(** * Count-Min Sketch with heavy-hitter tracking: a shallow embedding

    This development embeds [count_min_sketch.py] (the classes
    [CountMinSketch] and [CountMinSketchUsingEpsAndDelta]) and states the
    properties of its constructor, of [update], [estimate], [heavyHitters]
    and [merge], and of the bounded top-k tracker kept by [_update_heap].

    Python values are represented as follows.
    - [int] is [Z] (unbounded); [float] is the primitive binary64 [float].
    - An exception is a value of [exn]; a call returns a [result].
    - The counter rows are [array.array('l', ...)]: lists of [Z] whose
      stores are checked against the range of a C [long].
    - The two-element lists [[estimate, item]] shared by [_heap] and
      [_top_k], and the dictionaries, are objects in an explicit [Memory];
      the sketch holds their addresses.
    - Items are strings (the stream listener feeds lowercased hashtags).
    - The builtin [hash] and the MD5 digest are parameters of the model. *)

From Stdlib Require Import String Ascii DecimalString OrderedTypeEx.
From Stdlib Require Import ZArith Bool Lia Floats Permutation List.
Import ListNotations.
Open Scope Z_scope.

(** ** Python runtime: exceptions and results *)

Inductive exn : Set :=
| ValueError
| TypeError
| IndexError
| KeyError
| OverflowError
| ZeroDivisionError.

Inductive result (A : Type) : Type :=
| Ok (a : A)
| Raise (e : exn).
Arguments Ok {A} a.
Arguments Raise {A} e.

Definition bind {A B : Type} (r : result A) (f : A -> result B) : result B :=
  match r with
  | Ok a => f a
  | Raise e => Raise e
  end.

Notation "x <- r ;; k" := (bind r (fun x => k))
  (at level 61, r at next level, right associativity).

Definition is_ok {A : Type} (r : result A) : bool :=
  match r with Ok _ => true | Raise _ => false end.

(** ** Python runtime: floats *)

Module PyFloat.

(** [float(z)] for an [int] z: round to nearest even; CPython raises
    OverflowError when the rounded value leaves the binary64 range. *)
Definition of_int (z : Z) : result float :=
  let f := SF2Prim (binary_normalize prec emax z 0 false) in
  if PrimFloat.is_infinity f then Raise OverflowError else Ok f.

(** [a / b] on floats: a zero divisor raises, everything else is IEEE. *)
Definition truediv (a b : float) : result float :=
  if PrimFloat.is_zero b then Raise ZeroDivisionError
  else Ok (PrimFloat.div a b).

(** [math.pow(2, d)] for an [int] d.  Both arguments are converted to
    float first; the power of two is exact when representable, is [0.0]
    below the subnormal range and raises OverflowError above the range. *)
Definition pow2 (d : Z) : result float :=
  _ <- of_int d ;;
  let r := SF2Prim (binary_normalize prec emax 1 d false) in
  if PrimFloat.is_infinity r then Raise OverflowError else Ok r.

(** [math.ceil(x)]: an [int]; NaN and the infinities are rejected. *)
Definition ceil (x : float) : result Z :=
  match Prim2SF x with
  | S754_zero _ => Ok 0
  | S754_infinity _ => Raise OverflowError
  | S754_nan => Raise ValueError
  | S754_finite s m e =>
      let n := if s then Z.neg m else Z.pos m in
      if 0 <=? e then Ok (n * 2 ^ e)
      else Ok (- ((- n) / 2 ^ (- e)))
  end.

(** [math.log(...)].  The function takes positional arguments only: a call
    that passes any keyword is rejected with TypeError before a logarithm
    is computed.  [ln] stands for the C library's natural logarithm on the
    positional path. *)
Definition log (ln : float -> float)
    (args : list float) (kwargs : list (string * float)) : result float :=
  match kwargs with
  | _ :: _ => Raise TypeError
  | [] =>
      match args with
      | [x] =>
          if PrimFloat.leb x 0 then Raise ValueError else Ok (ln x)
      | [x; b] =>
          if PrimFloat.leb x 0 || PrimFloat.leb b 0 then Raise ValueError
          else truediv (ln x) (ln b)
      | _ => Raise TypeError
      end
  end.

End PyFloat.

(** ** Python runtime: [array.array('l', ...)] *)

Module PyArray.

(** Range of a C [long] on the LP64 platforms the program runs on. *)
Definition LONG_MAX : Z := 2 ^ 63 - 1.
Definition LONG_MIN : Z := - 2 ^ 63.

(** Index normalisation of a sequence of length [len]: a negative index
    counts from the end, anything else out of range raises IndexError. *)
Definition index (len : nat) (idx : Z) : result nat :=
  let n := Z.of_nat len in
  if (0 <=? idx) && (idx <? n) then Ok (Z.to_nat idx)
  else if (- n <=? idx) && (idx <? 0) then Ok (Z.to_nat (idx + n))
  else Raise IndexError.

Fixpoint set_nth {A : Type} (l : list A) (i : nat) (x : A) : list A :=
  match l, i with
  | [], _ => []
  | _ :: t, O => x :: t
  | a :: t, S j => a :: set_nth t j x
  end.

(** [table[idx]] *)
Definition getitem (row : list Z) (idx : Z) : result Z :=
  i <- index (length row) idx ;;
  Ok (nth i row 0).

(** [table[idx] = v]: the value must fit a C [long]. *)
Definition setitem (row : list Z) (idx : Z) (v : Z) : result (list Z) :=
  i <- index (length row) idx ;;
  if (LONG_MIN <=? v) && (v <=? LONG_MAX) then Ok (set_nth row i v)
  else Raise OverflowError.

(** [table[idx] += count] *)
Definition iadd (row : list Z) (idx : Z) (count : Z) : result (list Z) :=
  v <- getitem row idx ;;
  setitem row idx (v + count).

End PyArray.

(** [str(z)] for an [int] z: its decimal rendering. *)
Definition str_of_int (z : Z) : string :=
  NilZero.string_of_int (Z.to_int z).

(** ** Python library: [heapq]

    The three functions the sketch calls, with the two private sifting
    procedures they are built from, over a list whose elements are compared
    with [lt] (Python's [<]).  Loops run on a fuel that bounds the number
    of iterations: the position moves strictly towards the root in
    [_siftdown] and strictly towards the leaves in [_siftup]. *)

Module heapq.
Section Heapq.

Context {A : Type}.
Variable lt : A -> A -> bool.

Definition set_nth := @PyArray.set_nth A.

(** The [while pos > startpos] loop of [_siftdown]. *)
Fixpoint siftdown_loop (fuel : nat) (heap : list A) (startpos pos : nat)
    (newitem : A) : list A :=
  match fuel with
  | O => set_nth heap pos newitem
  | S fuel' =>
      if (startpos <? pos)%nat then
        let parentpos := ((pos - 1) / 2)%nat in
        let parent := nth parentpos heap newitem in
        if lt newitem parent then
          siftdown_loop fuel' (set_nth heap pos parent) startpos parentpos
            newitem
        else set_nth heap pos newitem
      else set_nth heap pos newitem
  end.

Definition _siftdown (heap : list A) (startpos pos : nat) : list A :=
  match nth_error heap pos with
  | Some newitem => siftdown_loop pos heap startpos pos newitem
  | None => heap
  end.

(** The [while childpos < endpos] loop of [_siftup]: the smaller child is
    moved up until a leaf is reached; returns the list and the leaf. *)
Fixpoint siftup_loop (fuel : nat) (heap : list A) (endpos pos : nat)
    (newitem : A) : list A * nat :=
  match fuel with
  | O => (heap, pos)
  | S fuel' =>
      let childpos := (2 * pos + 1)%nat in
      if (childpos <? endpos)%nat then
        let rightpos := (childpos + 1)%nat in
        let childpos :=
          if (rightpos <? endpos)%nat
             && negb (lt (nth childpos heap newitem)
                         (nth rightpos heap newitem))
          then rightpos else childpos in
        siftup_loop fuel' (set_nth heap pos (nth childpos heap newitem))
          endpos childpos newitem
      else (heap, pos)
  end.

Definition _siftup (heap : list A) (pos : nat) : list A :=
  match nth_error heap pos with
  | Some newitem =>
      let endpos := length heap in
      let startpos := pos in
      let '(heap1, pos1) := siftup_loop endpos heap endpos pos newitem in
      _siftdown (set_nth heap1 pos1 newitem) startpos pos1
  | None => heap
  end.

(** [heappush(heap, item)] *)
Definition heappush (heap : list A) (item : A) : list A :=
  let heap := heap ++ [item] in
  _siftdown heap 0 (length heap - 1).

(** [heappushpop(heap, item)]: the returned item and the list. *)
Definition heappushpop (heap : list A) (item : A) : A * list A :=
  match heap with
  | top :: rest =>
      if lt top item then (top, _siftup (item :: rest) 0)
      else (item, heap)
  | [] => (item, heap)
  end.

(** [heapify(x)]: [_siftup(x, i)] for [i] from [n//2 - 1] down to [0]. *)
Definition heapify (x : list A) : list A :=
  let n := length x in
  fold_left _siftup (rev (seq 0 (n / 2))) x.

(** The heap invariant of the library's documentation, with [<] only:
    no element is smaller than its parent.  [ordered_from p] restricts it
    to the pairs whose parent sits at index [p] or later, which is what
    the backward pass of [heapify] establishes step by step. *)
Definition parent (i : nat) : nat := ((i - 1) / 2)%nat.

Definition ordered_from (p : nat) (heap : list A) : Prop :=
  forall i x y, (0 < i)%nat -> (p <= parent i)%nat ->
    nth_error heap i = Some x -> nth_error heap (parent i) = Some y ->
    lt x y = false.

Definition heap_ok (heap : list A) : Prop := ordered_from 0 heap.

(** [desc p i]: index [i] lies in the subtree rooted at index [p]. *)
Inductive desc (p : nat) : nat -> Prop :=
| desc_self : desc p p
| desc_child (i : nat) : (0 < i)%nat -> desc p (parent i) -> desc p i.

(** A heap with a hole at [pos] on the path below [p]: the pairs that
    avoid the hole are in order, and the hole's parent is not above a
    child of the hole. *)
Record path_inv (p pos : nat) (heap : list A) : Prop := {
  path_in : (pos < length heap)%nat;
  path_desc : desc p pos;
  path_rest : forall i x y, (0 < i)%nat -> (p <= parent i)%nat ->
    i <> pos -> parent i <> pos ->
    nth_error heap i = Some x -> nth_error heap (parent i) = Some y ->
    lt x y = false;
  path_above : forall c x y, pos <> p -> (0 < c)%nat -> parent c = pos ->
    nth_error heap c = Some x -> nth_error heap (parent pos) = Some y ->
    lt x y = false
}.

(** The same with [newitem] waiting to be placed in the hole: no child of
    the hole is smaller than [newitem]. *)
Definition hole_inv (p pos : nat) (newitem : A) (heap : list A) : Prop :=
  path_inv p pos heap
  /\ forall c x, (0 < c)%nat -> parent c = pos ->
       nth_error heap c = Some x -> lt x newitem = false.

End Heapq.
End heapq.

(** ** Python runtime: objects shared by reference *)

(** [raise f(...)]: the callee is either an exception class, whose call
    builds the exception that is raised, or the builtin constant
    [NotImplemented], which is not callable: calling it raises TypeError. *)
Inductive callee : Set :=
| ExceptionClass (e : exn)
| NotImplemented.

Definition raise_call (f : callee) : exn :=
  match f with
  | ExceptionClass e => e
  | NotImplemented => TypeError
  end.

(** The objects the sketch shares by reference: the two-element lists
    [[estimate, item]] and the dictionaries from items to such lists.
    Addresses are allocated in increasing order. *)
Record Memory : Type := mkMemory {
  pair_cells : nat -> Z * string;
  next_pair : nat;
  dict_cells : nat -> list (string * nat);
  next_dict : nat
}.

Definition empty_memory : Memory :=
  mkMemory (fun _ => (0, EmptyString)) 0 (fun _ => []) 0.

Definition store_pair (m : Memory) (a : nat) (v : Z * string) : Memory :=
  mkMemory (fun b => if (b =? a)%nat then v else pair_cells m b)
    (next_pair m) (dict_cells m) (next_dict m).

Definition store_dict (m : Memory) (a : nat) (es : list (string * nat))
    : Memory :=
  mkMemory (pair_cells m) (next_pair m)
    (fun b => if (b =? a)%nat then es else dict_cells m b) (next_dict m).

Definition new_pair (m : Memory) (v : Z * string) : nat * Memory :=
  (next_pair m,
   mkMemory (fun b => if (b =? next_pair m)%nat then v else pair_cells m b)
     (S (next_pair m)) (dict_cells m) (next_dict m)).

Definition new_dict (m : Memory) (es : list (string * nat)) : nat * Memory :=
  (next_dict m,
   mkMemory (pair_cells m) (next_pair m)
     (fun b => if (b =? next_dict m)%nat then es else dict_cells m b)
     (S (next_dict m))).

(** [p < q] on two lists [[estimate, item]]: the first position where they
    differ decides; equal lists are not smaller. *)
Definition list_lt (p q : Z * string) : bool :=
  if fst p =? fst q then
    if String.eqb (snd p) (snd q) then false
    else String.ltb (snd p) (snd q)
  else fst p <? fst q.

(** [<] on two addresses of such lists. *)
Definition lt_at (m : Memory) (a b : nat) : bool :=
  list_lt (pair_cells m a) (pair_cells m b).

(** Dictionary operations on the entries, kept in insertion order. *)
Fixpoint dict_get (es : list (string * nat)) (k : string) : option nat :=
  match es with
  | [] => None
  | (k', v) :: es' => if String.eqb k' k then Some v else dict_get es' k
  end.

Fixpoint dict_set (es : list (string * nat)) (k : string) (v : nat)
    : list (string * nat) :=
  match es with
  | [] => [(k, v)]
  | (k', v') :: es' =>
      if String.eqb k' k then (k', v) :: es'
      else (k', v') :: dict_set es' k v
  end.

Fixpoint dict_remove (es : list (string * nat)) (k : string)
    : list (string * nat) :=
  match es with
  | [] => []
  | (k', v') :: es' =>
      if String.eqb k' k then es' else (k', v') :: dict_remove es' k
  end.

(** [d.pop(k)] *)
Definition dict_pop (es : list (string * nat)) (k : string)
    : result (nat * list (string * nat)) :=
  match dict_get es k with
  | Some v => Ok (v, dict_remove es k)
  | None => Raise KeyError
  end.

(** [copy.deepcopy] of a dictionary's entries: keys are immutable and kept;
    each value list is copied once, [memo] mapping originals to copies. *)
Fixpoint deepcopy_entries (m : Memory) (memo : list (nat * nat))
    (es : list (string * nat)) : list (string * nat) * Memory :=
  match es with
  | [] => ([], m)
  | (k, a) :: es' =>
      match find (fun e => (fst e =? a)%nat) memo with
      | Some (_, a') =>
          let '(r, m') := deepcopy_entries m memo es' in
          ((k, a') :: r, m')
      | None =>
          let '(a', m1) := new_pair m (pair_cells m a) in
          let '(r, m') := deepcopy_entries m1 ((a, a') :: memo) es' in
          ((k, a') :: r, m')
      end
  end.

(** [copy.deepcopy(d)] for a dictionary at address [d]: the copy is
    created first, then filled. *)
Definition deepcopy_dict (m : Memory) (d : nat) : nat * Memory :=
  let '(d', m1) := new_dict m [] in
  let '(es', m2) := deepcopy_entries m1 [] (dict_cells m1 d) in
  (d', store_dict m2 d' es').

(** ** The sketch *)

Record CountMinSketch : Type := mkSketch {
  _w : Z;
  _d : Z;
  _k : Z;
  _n : Z;
  _eps : float;
  _delta : float;
  _heap : list nat;          (* addresses of the tracked pairs, as a heap *)
  _top_k : nat;              (* address of the dictionary item -> pair *)
  _tables : list (list Z)
}.

(** The program state: the shared objects and the sketch's fields. *)
Record World : Type := mkWorld {
  mem : Memory;
  sk : CountMinSketch
}.

Definition with_n (s : CountMinSketch) (n : Z) : CountMinSketch :=
  mkSketch (_w s) (_d s) (_k s) n (_eps s) (_delta s) (_heap s) (_top_k s)
    (_tables s).

Definition with_tables (s : CountMinSketch) (t : list (list Z))
    : CountMinSketch :=
  mkSketch (_w s) (_d s) (_k s) (_n s) (_eps s) (_delta s) (_heap s)
    (_top_k s) t.

Definition with_heap (s : CountMinSketch) (h : list nat) : CountMinSketch :=
  mkSketch (_w s) (_d s) (_k s) (_n s) (_eps s) (_delta s) h (_top_k s)
    (_tables s).

(** [range(z)] *)
Definition range (z : Z) : list nat := seq 0 (Z.to_nat z).

(** [CountMinSketch.__init__(self, w, d, k)] *)
Definition construct (m : Memory) (w d k : Z) : result World :=
  if (w =? 0) || (d =? 0) then Raise (raise_call (ExceptionClass ValueError))
  else
    wf <- PyFloat.of_int w ;;
    eps <- PyFloat.truediv 2 wf ;;
    p <- PyFloat.pow2 d ;;
    q <- PyFloat.truediv 1 p ;;
    let delta := PrimFloat.sub 1 q in
    let '(top_k, m1) := new_dict m [] in
    let tables :=
      map (fun depth => map (fun val => 0) (range w)) (range d) in
    Ok (mkWorld m1 (mkSketch w d k 0 eps delta [] top_k tables)).

(** [a % b] on ints *)
Definition py_mod (a b : Z) : result Z :=
  if b =? 0 then Raise ZeroDivisionError else Ok (a mod b).

Definition py_min (l : list Z) : result Z :=
  match l with
  | [] => Raise ValueError
  | x :: t => Ok (fold_left Z.min t x)
  end.

Section Sketch.

(** The builtin [hash] on items, and [int(hashlib.md5(data).hexdigest(), 16)]
    as a function of the data fed to the digest so far. *)
Variable py_hash : string -> Z.
Variable md5 : string -> Z.

(** The loop of the generator [_hash]: [data] is what the digest has been
    fed; each row appends its index and yields the digest modulo the width.
    An element is the outcome of one [next()] on the generator. *)
Fixpoint hash_loop (w : Z) (data : string) (rows : list nat)
    : list (result Z) :=
  match rows with
  | [] => []
  | i :: rest =>
      let data := (data ++ str_of_int (Z.of_nat i))%string in
      py_mod (md5 data) w :: hash_loop w data rest
  end.

Definition _hash (s : CountMinSketch) (item : string) : list (result Z) :=
  hash_loop (_w s) (str_of_int (py_hash item)) (range (_d s)).

(** [table[idx] for table, idx in zip(self._tables, self._hash(item))] *)
Fixpoint estimate_values (tables : list (list Z)) (idxs : list (result Z))
    : result (list Z) :=
  match tables, idxs with
  | table :: ts, ri :: rest =>
      idx <- ri ;;
      v <- PyArray.getitem table idx ;;
      vs <- estimate_values ts rest ;;
      Ok (v :: vs)
  | _, _ => Ok []
  end.

(** [estimate(self, item)] *)
Definition estimate (wd : World) (item : string) : result Z :=
  vs <- estimate_values (_tables (sk wd)) (_hash (sk wd) item) ;;
  py_min vs.

(** The loop [for table, idx in zip(...): table[idx] += count].  The rows
    are updated in place: an exception leaves the rows already visited
    incremented. *)
Fixpoint add_count (tables : list (list Z)) (idxs : list (result Z))
    (count : Z) : result unit * list (list Z) :=
  match tables, idxs with
  | table :: ts, ri :: rest =>
      match ri with
      | Raise e => (Raise e, tables)
      | Ok idx =>
          match PyArray.iadd table idx count with
          | Raise e => (Raise e, tables)
          | Ok table' =>
              let '(r, ts') := add_count ts rest count in
              (r, table' :: ts')
          end
      end
  | _, _ => (Ok tt, tables)
  end.

(** [_update_heap(self, item)] *)
Definition _update_heap (wd : World) (item : string) : result unit * World :=
  let m := mem wd in
  let s := sk wd in
  let heap := _heap s in
  let top_k := dict_cells m (_top_k s) in
  match estimate wd item with
  | Raise e => (Raise e, wd)
  | Ok est =>
      match dict_get top_k item with
      | Some a =>
          let m1 := store_pair m a (est, snd (pair_cells m a)) in
          (Ok tt, mkWorld m1 (with_heap s (heapq.heapify (lt_at m1) heap)))
      | None =>
          let '(pair_, m1) := new_pair m (est, item) in
          if Z.of_nat (length heap) <? _k s then
            let m2 := store_dict m1 (_top_k s) (dict_set top_k item pair_) in
            (Ok tt,
             mkWorld m2 (with_heap s (heapq.heappush (lt_at m2) heap pair_)))
          else
            match heap with
            | [] => (Raise IndexError, mkWorld m1 s)
            | heap0 :: _ =>
                if est <=? fst (pair_cells m1 heap0) then
                  (Ok tt, mkWorld m1 s)
                else
                  let '(rmv, heap') :=
                    heapq.heappushpop (lt_at m1) heap pair_ in
                  let '(rmv_estimate, rmv_item) := pair_cells m1 rmv in
                  let s1 := with_heap s heap' in
                  match dict_pop top_k rmv_item with
                  | Raise e => (Raise e, mkWorld m1 s1)
                  | Ok (_, top_k1) =>
                      let m2 :=
                        store_dict m1 (_top_k s)
                          (dict_set top_k1 item pair_) in
                      (Ok tt, mkWorld m2 s1)
                  end
            end
      end
  end.

(** [update(self, item, count)] *)
Definition update (wd : World) (item : string) (count : Z)
    : result unit * World :=
  if count <? 0 then (Raise (raise_call (ExceptionClass ValueError)), wd)
  else
    let s := with_n (sk wd) (_n (sk wd) + count) in
    let '(r, tables) := add_count (_tables s) (_hash s item) count in
    let wd1 := mkWorld (mem wd) (with_tables s tables) in
    match r with
    | Raise e => (Raise e, wd1)
    | Ok _ => _update_heap wd1 item
    end.

(** [heavyHitters(self)]: the address of the returned dictionary. *)
Definition heavyHitters (wd : World) : nat * World :=
  let '(d, m) := deepcopy_dict (mem wd) (_top_k (sk wd)) in
  (d, mkWorld m (sk wd)).

(** [merge(self, count_min_sketch)] *)
Definition merge (wd : World) (count_min_sketch : CountMinSketch)
    : result unit * World :=
  (Raise (raise_call NotImplemented), wd).

Definition relativeError (wd : World) : float := _eps (sk wd).
Definition confidence (wd : World) : float := _delta (sk wd).
Definition totalCount (wd : World) : Z := _n (sk wd).

(** [CountMinSketchUsingEpsAndDelta.__init__(self, eps, delta)]; [ln] is
    the C library's logarithm. *)
Definition CountMinSketchUsingEpsAndDelta (ln : float -> float)
    (m : Memory) (eps delta : float) : result World :=
  q <- PyFloat.truediv 1 eps ;;
  w <- PyFloat.ceil q ;;
  l <- PyFloat.log ln [PrimFloat.sub 1 delta] [("base"%string, 0.5%float)] ;;
  d <- PyFloat.ceil l ;;
  construct m w d 10.

End Sketch.

(** ** Observations and runs *)

(** What a caller reads through a dictionary: each key with the contents of
    the list it maps to. *)
Definition view (m : Memory) (d : nat) : list (string * (Z * string)) :=
  map (fun e => (fst e, pair_cells m (snd e))) (dict_cells m d).

(** The entries of the sketch's own dictionary. *)
Definition entries (wd : World) : list (string * nat) :=
  dict_cells (mem wd) (_top_k (sk wd)).

(** The lists the sketch holds a reference to. *)
Definition owns_pair (wd : World) (a : nat) : Prop :=
  In a (_heap (sk wd)) \/ In a (map snd (entries wd)).

(** What the rest of the program may do to the memory: allocate, and write
    to objects other than the ones the sketch keeps to itself. *)
Record frame (wd : World) (m' : Memory) : Prop := {
  frame_next_pair : (next_pair (mem wd) <= next_pair m')%nat;
  frame_next_dict : (next_dict (mem wd) <= next_dict m')%nat;
  frame_dict : dict_cells m' (_top_k (sk wd)) = entries wd;
  frame_pairs : forall a, owns_pair wd a ->
    pair_cells m' a = pair_cells (mem wd) a
}.

(** Writes to a snapshot returned by [heavyHitters]: to the dictionary at
    [d] and to the lists [snap] it held when it was returned. *)
Record mutates_snapshot (m : Memory) (d : nat) (snap : list nat)
    (m' : Memory) : Prop := {
  mut_next_pair : next_pair m' = next_pair m;
  mut_next_dict : next_dict m' = next_dict m;
  mut_dicts : forall b, b <> d -> dict_cells m' b = dict_cells m b;
  mut_pairs : forall a, ~ In a snap -> pair_cells m' a = pair_cells m a
}.

(** Two states that differ only in objects the sketch holds no reference
    to: the same fields, the same allocation counters, the same entries in
    the sketch's dictionary and the same contents in the lists it owns. *)
Record agree (wdA wdB : World) : Prop := {
  agree_sk : sk wdB = sk wdA;
  agree_next_pair : next_pair (mem wdB) = next_pair (mem wdA);
  agree_next_dict : next_dict (mem wdB) = next_dict (mem wdA);
  agree_dict : entries wdB = entries wdA;
  agree_pairs : forall a, owns_pair wdA a ->
    pair_cells (mem wdB) a = pair_cells (mem wdA) a
}.

(** The smallest estimate stored in the tracker. *)
Definition min_tracked (wd : World) : result Z :=
  py_min (map (fun a => fst (pair_cells (mem wd) a)) (_heap (sk wd))).

Section Runs.

Variable py_hash : string -> Z.
Variable md5 : string -> Z.

(** One observable event of a run: a call of [update] with its outcome, a
    call of [heavyHitters] with the dictionary it returned, or activity of
    the rest of the program. *)
Inductive event : Type :=
| EvUpdate (item : string) (count : Z) (r : result unit)
| EvHeavyHitters (d : nat)
| EvEnv.

Inductive step : World -> event -> World -> Prop :=
| step_update wd item count r wd' :
    update py_hash md5 wd item count = (r, wd') ->
    step wd (EvUpdate item count r) wd'
| step_heavyHitters wd d wd' :
    heavyHitters wd = (d, wd') ->
    step wd (EvHeavyHitters d) wd'
| step_env wd m' :
    frame wd m' ->
    step wd EvEnv (mkWorld m' (sk wd)).

Inductive steps : World -> list event -> World -> Prop :=
| steps_nil wd : steps wd [] wd
| steps_cons wd ev wd1 evs wd2 :
    step wd ev wd1 -> steps wd1 evs wd2 -> steps wd (ev :: evs) wd2.

(** A state of a sketch built by [CountMinSketch(w, d, k)]. *)
Definition reachable (w d k : Z) (wd : World) : Prop :=
  exists m wd0 evs, construct m w d k = Ok wd0 /\ steps wd0 evs wd.

(** The weight applied to [x] by a run: the sum of the weights of the
    [update] calls on [x] that returned normally. *)
Fixpoint applied (x : string) (evs : list event) : Z :=
  match evs with
  | [] => 0
  | EvUpdate item count (Ok _) :: evs' =>
      (if String.eqb item x then count else 0) + applied x evs'
  | _ :: evs' => applied x evs'
  end.

(** Every [update] of the run returned normally. *)
Fixpoint all_returned (evs : list event) : bool :=
  match evs with
  | [] => true
  | EvUpdate _ _ r :: evs' => is_ok r && all_returned evs'
  | _ :: evs' => all_returned evs'
  end.

(** The invariant of reachable states. *)
Record Inv (wd : World) : Prop := {
  inv_w : _w (sk wd) <> 0;
  inv_tables : length (_tables (sk wd)) = Z.to_nat (_d (sk wd));
  inv_rows : Forall (fun row => length row = Z.to_nat (_w (sk wd)))
               (_tables (sk wd));
  inv_pairs_alloc : Forall (fun a => (a < next_pair (mem wd))%nat)
                      (_heap (sk wd));
  inv_dict_alloc : (_top_k (sk wd) < next_dict (mem wd))%nat;
  inv_heap_nodup : NoDup (_heap (sk wd));
  inv_keys_nodup : NoDup (map fst (entries wd));
  inv_same : Permutation (map snd (entries wd)) (_heap (sk wd));
  inv_items : Forall (fun e => snd (pair_cells (mem wd) (snd e)) = fst e)
                (entries wd);
  inv_heap_ok : heapq.heap_ok (lt_at (mem wd)) (_heap (sk wd));
  inv_capacity : 0 <= _k (sk wd) ->
    Z.of_nat (length (_heap (sk wd))) <= _k (sk wd)
}.

End Runs.

(** An outcome of the hash generator that is a column of a row of length
    [n]. *)
Definition column (n : nat) (r : result Z) : Prop :=
  exists idx, r = Ok idx /\ 0 <= idx < Z.of_nat n.

(** The true frequency of [x] in a sequence of calls of [update]: the sum
    of the weights passed together with [x]. *)
Fixpoint true_frequency (x : string) (calls : list (string * Z)) : Z :=
  match calls with
  | [] => 0
  | (item, count) :: rest =>
      (if String.eqb item x then count else 0) + true_frequency x rest
  end.

Section Calls.

Variable py_hash : string -> Z.
Variable md5 : string -> Z.

(** A caller that makes the [update] calls of [calls] one after the other,
    going on after a rejected call: the events with their outcomes, and
    the final state. *)
Fixpoint run_events (wd : World) (calls : list (string * Z))
    : list event * World :=
  match calls with
  | [] => ([], wd)
  | (item, count) :: rest =>
      let '(r, wd1) := update py_hash md5 wd item count in
      let '(evs, wd2) := run_events wd1 rest in
      (EvUpdate item count r :: evs, wd2)
  end.

End Calls.

(** Sample instances of the two hash parameters, for concrete runs. *)
Fixpoint sample_digest (s : string) : Z :=
  match s with
  | EmptyString => 7
  | String c t => (Z.of_nat (nat_of_ascii c) + 31 * sample_digest t)
                    mod 1000003
  end.

Definition sample_hash (s : string) : Z := sample_digest s - 500000.

(** A sketch of width 4 and depth 2 that tracks 2 heavy hitters, before
    and after the updates of ["a"] by 5 and of ["b"] by 3. *)
Definition sample_start : World :=
  match construct empty_memory 4 2 2 with
  | Ok wd => wd
  | Raise _ => mkWorld empty_memory (mkSketch 0 0 0 0 0 0 [] 0 [])
  end.

Definition sample_calls : list (string * Z) :=
  [("a"%string, 5); ("b"%string, 3)].

Definition sample_events : list event :=
  fst (run_events sample_hash sample_digest sample_start sample_calls).

Definition sample_world : World :=
  snd (run_events sample_hash sample_digest sample_start sample_calls).

(** A snapshot taken in that state, then written to by its holder: the
    first copied list is overwritten and the dictionary is emptied. *)
Definition sample_snapshot : nat * World := heavyHitters sample_world.

Definition sample_mutated : Memory :=
  store_dict
    (store_pair (mem (snd sample_snapshot)) 2 (1000, "zz"%string))
    (fst sample_snapshot) [].

(** ** Quantities of a run *)

(** [sum(table)] for a row of counters. *)
Definition row_sum (row : list Z) : Z := fold_right Z.add 0 row.

(** The weight accepted by a run: the sum of the weights of the [update]
    calls that got past the check of the weight, whether or not they then
    returned. *)
Fixpoint accepted (evs : list event) : Z :=
  match evs with
  | [] => 0
  | EvUpdate _ count _ :: evs' =>
      (if count <? 0 then 0 else count) + accepted evs'
  | _ :: evs' => accepted evs'
  end.

(** A run made of calls on the sketch only, with no other activity of the
    program in between. *)
Fixpoint calls_only (evs : list event) : bool :=
  match evs with
  | [] => true
  | EvEnv :: _ => false
  | _ :: evs' => calls_only evs'
  end.

(** The items passed to [update] in a run with a weight that is not
    negative. *)
Fixpoint updated_items (evs : list event) : list string :=
  match evs with
  | [] => []
  | EvUpdate item count _ :: evs' =>
      if count <? 0 then updated_items evs' else item :: updated_items evs'
  | _ :: evs' => updated_items evs'
  end.

(** An index that is a value of Python's [%] for the width [w]: it has the
    sign of [w]. *)
Definition in_width (w : Z) (r : result Z) : Prop :=
  exists idx, r = Ok idx
    /\ (0 < w -> 0 <= idx < w) /\ (w < 0 -> w < idx <= 0).

(** No counter is negative and no row holds more than the total count. *)
Definition counters_bounded (wd : World) : Prop :=
  Forall (fun row => Forall (fun v => 0 <= v) row
                     /\ row_sum row <= _n (sk wd))
    (_tables (sk wd)).

(** No list of the tracker stores more than the current estimate of its
    item. *)
Definition stored_not_above (py_hash md5 : string -> Z) (wd : World) : Prop :=
  forall x a, dict_get (entries wd) x = Some a ->
    exists e, estimate py_hash md5 wd x = Ok e
              /\ fst (pair_cells (mem wd) a) <= e.

(** A dictionary [snap] with entries [es] whose lists hold [cells], out of
    the reach of the sketch: it is not the sketch's dictionary and the
    sketch owns none of its lists. *)
Record apart (wd : World) (snap : nat) (es : list (string * nat))
    (cells : nat -> Z * string) : Prop := {
  apart_alloc : (snap < next_dict (mem wd))%nat;
  apart_dict : snap <> _top_k (sk wd);
  apart_entries : dict_cells (mem wd) snap = es;
  apart_lists : forall e, In e es ->
    (snd e < next_pair (mem wd))%nat /\ ~ owns_pair wd (snd e)
    /\ pair_cells (mem wd) (snd e) = cells (snd e)
}.

(** ** The stream listener ([twitter_stream.py])

    [TwitterStreamListener.on_status] feeds the sketch.  Of a status it
    uses [status.retweeted], [status.retweet_count] and
    [status.entities.get('hashtags')], a list of objects of which it takes
    [hash_obj.get('text')]; [get] gives [None] for a missing key.  The
    other attributes it reads are not used.  Strings are Python 3 [str];
    [lower] stands for [str.lower]. *)

Record Status : Type := mkStatus {
  retweeted : bool;
  retweet_count : Z;
  hashtags : option (list (option string))
}.

(** What [on_status] prints: a line of text, or the dictionary returned by
    [heavyHitters] (through [str]). *)
Inductive output : Type :=
| OutLine (s : string)
| OutHeavyHitters (d : nat).

Section Listener.

Variable py_hash : string -> Z.
Variable md5 : string -> Z.
Variable lower : string -> string.

(** [str(x)] for [x] a string or [None]. *)
Definition str_of_text (x : option string) : string :=
  match x with
  | Some s => s
  | None => "None"%string
  end.

(** The loop [for hash_obj in ...: self.sketch.update(hashtag, retweets + 1)]:
    an exception ends it. *)
Fixpoint update_hashtags (wd : World) (tags : list (option string))
    (count : Z) : result unit * World :=
  match tags with
  | [] => (Ok tt, wd)
  | hash_obj :: rest =>
      let hashtag := lower (str_of_text hash_obj) in
      match update py_hash md5 wd hashtag count with
      | (Ok _, wd1) => update_hashtags wd1 rest count
      | (Raise e, wd1) => (Raise e, wd1)
      end
  end.

(** [on_status(self, status)] on the listener's sketch: the outcome, the
    state and what was printed. *)
Definition on_status (wd : World) (status : Status)
    : result unit * World * list output :=
  if retweeted status then (Ok tt, wd, [])
  else
    let retweets := retweet_count status in
    match hashtags status with
    | None => (Raise TypeError, wd, [])
    | Some tags =>
        match update_hashtags wd tags (retweets + 1) with
        | (Raise e, wd1) => (Raise e, wd1, [])
        | (Ok _, wd1) =>
            if totalCount wd1 mod 100 =? 0 then
              let '(d, wd2) := heavyHitters wd1 in
              (Ok tt, wd2,
               [OutLine (String "010"%char EmptyString);
                OutLine ("total_count: " ++ str_of_int (totalCount wd1));
                OutLine "--------------- HEAVY HITTERS -------------";
                OutHeavyHitters d])
            else (Ok tt, wd1, [])
        end
    end.

End Listener.

(** The sketch the stream is started with, [CountMinSketch(w=2000, d=10)],
    and a status with two hashtags that was retweeted four times. *)
Definition stream_sketch : World :=
  match construct empty_memory 2000 10 10 with
  | Ok wd => wd
  | Raise _ => sample_start
  end.

Definition sample_status : Status :=
  mkStatus false 4 (Some [Some "Rocq"%string; Some "proofs"%string]).

(** ASCII lowercase, as a sample of [str.lower]. *)
Definition ascii_lower (c : ascii) : ascii :=
  let n := nat_of_ascii c in
  if ((65 <=? n) && (n <=? 90))%nat then ascii_of_nat (n + 32) else c.

Fixpoint sample_lower (s : string) : string :=
  match s with
  | EmptyString => EmptyString
  | String c t => String (ascii_lower c) (sample_lower t)
  end.

(** Sketches built with a capacity of zero, with a negative width and with
    a negative depth. *)
Definition sample_no_capacity : World :=
  match construct empty_memory 4 2 0 with
  | Ok wd => wd
  | Raise _ => sample_start
  end.

Definition sample_negative_width : World :=
  match construct empty_memory (-1) 3 10 with
  | Ok wd => wd
  | Raise _ => sample_start
  end.

Definition sample_negative_depth : World :=
  match construct empty_memory 4 (-2) 10 with
  | Ok wd => wd
  | Raise _ => sample_start
  end.

(** * Properties *)

(** ** Construction *)

Lemma construct_zero (m : Memory) (w d k : Z) :
  w = 0 \/ d = 0 -> construct m w d k = Raise ValueError.
Proof.
  intros H. unfold construct.
  assert (E : (w =? 0) || (d =? 0) = true).
  { destruct H as [-> | ->]; [reflexivity | apply orb_true_r]. }
  rewrite E. reflexivity.
Qed.

Lemma construct_nonzero (m : Memory) (w d k : Z) :
  w <> 0 -> d <> 0 -> construct m w d k <> Raise ValueError.
Proof.
  intros Hw Hd. unfold construct.
  apply Z.eqb_neq in Hw. apply Z.eqb_neq in Hd. rewrite Hw, Hd. simpl.
  unfold PyFloat.of_int, PyFloat.truediv, PyFloat.pow2, PyFloat.of_int, bind.
  repeat match goal with
         | |- context [if ?b then _ else _] => destruct b
         end; discriminate.
Qed.

(** C1, as the code has it: the constructor raises ValueError exactly when
    the width or the depth is zero, and then returns no sketch; so
    [construct(0, 5)] and [construct(5, 0)] fail.  A negative width or
    depth is not rejected by this check. *)
Theorem construct_value_error_iff_zero (m : Memory) (w d k : Z) :
  (construct m w d k = Raise ValueError <-> (w = 0 \/ d = 0))
  /\ construct m 0 5 k = Raise ValueError
  /\ construct m 5 0 k = Raise ValueError.
Proof.
  split; [split | split].
  - intros H. destruct (Z.eq_dec w 0) as [?|Hw]; [now left|].
    destruct (Z.eq_dec d 0) as [?|Hd]; [now right|].
    exfalso. exact (construct_nonzero m w d k Hw Hd H).
  - apply construct_zero.
  - apply construct_zero. now left.
  - apply construct_zero. now right.
Qed.

(** C1 fails as stated: the width [-1] is not positive, yet
    [construct(-1, 3)] returns a sketch (whose three rows are empty). *)
Lemma construct_negative_width_returns :
  (-1 <= 0 \/ 3 <= 0)
  /\ exists wd, construct empty_memory (-1) 3 10 = Ok wd
                /\ _tables (sk wd) = [[]; []; []].
Proof.
  split; [left; lia|].
  vm_compute. eexists. split; reflexivity.
Qed.

(** C2: the constructor from error bounds never returns a sketch: the call
    [math.log(1 - delta, base=0.5)] passes a keyword to a function that
    takes none, so whenever the width computes, TypeError is raised; at
    [eps = delta = 0.5] that is what happens. *)
Theorem from_error_bounds_always_raises (ln : float -> float) (m : Memory) :
  (forall eps delta,
     exists e, CountMinSketchUsingEpsAndDelta ln m eps delta = Raise e)
  /\ CountMinSketchUsingEpsAndDelta ln m 0.5 0.5 = Raise TypeError.
Proof.
  split.
  - intros eps delta. unfold CountMinSketchUsingEpsAndDelta.
    destruct (PyFloat.truediv 1 eps) as [q|e]; [|eexists; reflexivity].
    simpl. destruct (PyFloat.ceil q) as [w|e]; eexists; reflexivity.
  - reflexivity.
Qed.

(** ** [merge] *)

(** C9, as the code has it: [merge] never returns normally and leaves the
    state as it was, but what it raises is TypeError, because
    [NotImplemented] is a constant and not an exception class. *)
Theorem merge_raises_type_error (wd : World) (other : CountMinSketch) :
  merge wd other = (Raise TypeError, wd).
Proof. reflexivity. Qed.

(** ** Rejection of negative weights *)

(** C5: [update] with a negative weight raises ValueError and returns the
    state it was given: the total, every counter, the heap, the reverse
    index and the shared lists are untouched. *)
Theorem update_negative_rejected (py_hash md5 : string -> Z) (wd : World)
    (item : string) (count : Z) :
  count < 0 -> update py_hash md5 wd item count = (Raise ValueError, wd).
Proof.
  intros H. unfold update. apply Z.ltb_lt in H. rewrite H. reflexivity.
Qed.

Lemma update_negative_rejected_witness :
  update sample_hash sample_digest sample_world "x" (-1)
  = (Raise ValueError, sample_world).
Proof. apply update_negative_rejected. lia. Defined.

(** ** Lists updated by index *)

Section SetNth.

Context {A : Type}.
Implicit Types (l : list A) (i j : nat) (x y : A).

Lemma set_nth_length l i x : length (PyArray.set_nth l i x) = length l.
Proof.
  revert i. induction l as [|a t IH]; intros [|i]; simpl; auto.
Qed.

Lemma nth_error_set_nth_eq l i x :
  (i < length l)%nat -> nth_error (PyArray.set_nth l i x) i = Some x.
Proof.
  revert i. induction l as [|a t IH]; intros [|i] H; simpl in *;
    try lia; auto.
  apply IH. lia.
Qed.

Lemma nth_error_set_nth_neq l i j x :
  i <> j -> nth_error (PyArray.set_nth l i x) j = nth_error l j.
Proof.
  revert i j. induction l as [|a t IH]; intros [|i] [|j] H; simpl;
    try congruence.
  apply IH. congruence.
Qed.

Lemma set_nth_twice l i x y :
  PyArray.set_nth (PyArray.set_nth l i x) i y = PyArray.set_nth l i y.
Proof.
  revert i. induction l as [|a t IH]; intros [|i]; simpl; auto.
  now rewrite IH.
Qed.

Lemma set_nth_same l i x :
  nth_error l i = Some x -> PyArray.set_nth l i x = l.
Proof.
  revert i. induction l as [|a t IH]; intros [|i] H; simpl in *;
    try congruence.
  now rewrite IH.
Qed.

Lemma nth_of_nth_error l i x d : nth_error l i = Some x -> nth i l d = x.
Proof.
  revert i. induction l as [|a t IH]; intros [|i] H; simpl in *;
    try congruence; auto.
Qed.

Lemma nth_error_in_range l i :
  (i < length l)%nat -> exists x, nth_error l i = Some x.
Proof.
  intros H. destruct (nth_error l i) eqn:E; eauto.
  apply nth_error_None in E. lia.
Qed.

Lemma set_nth_head_perm l j x y :
  nth_error l j = Some y ->
  Permutation (y :: PyArray.set_nth l j x) (x :: l).
Proof.
  revert j. induction l as [|a t IH]; intros [|j] H; simpl in *;
    try congruence.
  - injection H as ->. apply perm_swap.
  - rewrite perm_swap. rewrite (IH _ H). apply perm_swap.
Qed.

Lemma set_nth_exchange_perm l i x a :
  (i < length l)%nat ->
  Permutation (x :: PyArray.set_nth l i a) (a :: PyArray.set_nth l i x).
Proof.
  revert i. induction l as [|b t IH]; intros [|i] H; simpl in *; try lia.
  - apply perm_swap.
  - rewrite perm_swap. rewrite (IH i) by lia. apply perm_swap.
Qed.

(** Moving the element at [j] into the hole at [i] and leaving the hole at
    [j] keeps the elements. *)
Lemma set_nth_move_perm l i j x y :
  i <> j -> (i < length l)%nat -> nth_error l j = Some y ->
  Permutation (PyArray.set_nth (PyArray.set_nth l i y) j x)
              (PyArray.set_nth l i x).
Proof.
  revert i j. induction l as [|a t IH]; intros [|i] [|j] Hij Hi Hj;
    simpl in *; try lia; try congruence.
  - now apply set_nth_head_perm.
  - injection Hj as ->. apply set_nth_exchange_perm. lia.
  - apply perm_skip. apply IH; auto. lia.
Qed.

End SetNth.

(** ** The heap library keeps the heap invariant *)

Section HeapqFacts.

Local Open Scope nat_scope.

Context {A : Type}.
Variable lt : A -> A -> bool.

(** [<] is a strict weak order: asymmetric, and its negation is
    transitive. *)
Hypothesis lt_asym : forall a b, lt a b = true -> lt b a = false.
Hypothesis lt_negtrans :
  forall a b c, lt a b = false -> lt b c = false -> lt a c = false.

Lemma lt_irrefl a : lt a a = false.
Proof.
  destruct (lt a a) eqn:E; auto. now rewrite (lt_asym _ _ E) in E.
Qed.

Lemma parent_spec i :
  0 < i -> i = 2 * heapq.parent i + 1 \/ i = 2 * heapq.parent i + 2.
Proof.
  intros H. unfold heapq.parent.
  pose proof (Nat.div_mod_eq (i - 1) 2) as E.
  pose proof (Nat.mod_upper_bound (i - 1) 2) as U.
  lia.
Qed.

Lemma parent_lt i : 0 < i -> heapq.parent i < i.
Proof. intros H. destruct (parent_spec i H); lia. Qed.

Lemma parent_left i : heapq.parent (2 * i + 1) = i.
Proof. pose proof (parent_spec (2 * i + 1)). lia. Qed.

Lemma parent_right i : heapq.parent (2 * i + 1 + 1) = i.
Proof. pose proof (parent_spec (2 * i + 1 + 1)). lia. Qed.

Lemma desc_le p i : heapq.desc p i -> p <= i.
Proof.
  induction 1 as [|i Hi _ IH]; [lia|].
  pose proof (parent_lt i Hi). lia.
Qed.

Lemma desc_parent p i :
  heapq.desc p i -> i <> p -> 0 < i /\ heapq.desc p (heapq.parent i).
Proof. intros H Hne. destruct H; [congruence|auto]. Qed.

Lemma desc_root i : heapq.desc 0 i.
Proof.
  induction i as [i IH] using lt_wf_ind.
  destruct i as [|i]; [constructor|].
  apply heapq.desc_child; [lia|]. apply IH, parent_lt. lia.
Qed.

(** Placing [newitem] in the hole, when it has reached the start position
    or is not below the hole's parent. *)
Lemma fill_hole p pos x h :
  heapq.hole_inv lt p pos x h ->
  (pos = p \/ exists y, nth_error h (heapq.parent pos) = Some y
                        /\ lt x y = false) ->
  heapq.ordered_from lt p (heapq.set_nth h pos x).
Proof.
  intros [[Hin Hdesc Hrest Habove] Hbelow] Hp i a b Hi Hpi Ha Hb.
  unfold heapq.set_nth in *.
  pose proof (parent_lt i Hi) as Hlt.
  destruct (Nat.eq_dec i pos) as [->|Hne].
  - rewrite nth_error_set_nth_eq in Ha by assumption. injection Ha as <-.
    rewrite nth_error_set_nth_neq in Hb by lia.
    destruct Hp as [->|(y & Hy & Hxy)]; [lia|]. congruence.
  - rewrite nth_error_set_nth_neq in Ha by congruence.
    destruct (Nat.eq_dec (heapq.parent i) pos) as [E|Hne'].
    + rewrite E in Hb. rewrite nth_error_set_nth_eq in Hb by assumption.
      injection Hb as <-. eapply Hbelow; eauto.
    + rewrite nth_error_set_nth_neq in Hb by congruence.
      eapply Hrest; eauto.
Qed.

Lemma siftdown_loop_ordered p x fuel : forall h pos,
  pos <= fuel -> heapq.hole_inv lt p pos x h ->
  heapq.ordered_from lt p (heapq.siftdown_loop lt fuel h p pos x).
Proof.
  induction fuel as [|fuel IH]; intros h pos Hfuel Hinv;
    cbn [heapq.siftdown_loop].
  - apply fill_hole; auto. left.
    destruct Hinv as [[_ Hd _ _] _]. apply desc_le in Hd. lia.
  - destruct (p <? pos) eqn:Hpp.
    2:{ apply Nat.ltb_ge in Hpp. apply fill_hole; auto. left.
        destruct Hinv as [[_ Hd _ _] _]. apply desc_le in Hd. lia. }
    apply Nat.ltb_lt in Hpp.
    pose proof Hinv as [[Hin Hdesc Hrest Habove] Hbelow].
    destruct (desc_parent p pos Hdesc ltac:(lia)) as [Hpos Hdp].
    pose proof (parent_lt pos Hpos) as Hlt.
    pose proof (desc_le _ _ Hdp) as Hple.
    destruct (nth_error_in_range h (heapq.parent pos) ltac:(lia))
      as [y Hy].
    change ((pos - 1) / 2) with (heapq.parent pos).
    rewrite (nth_of_nth_error _ _ _ x Hy).
    destruct (lt x y) eqn:Hxy.
    2:{ apply fill_hole; eauto. }
    apply IH; [lia|].
    unfold heapq.set_nth.
    assert (Hsib : forall c a, 0 < c -> heapq.parent c = heapq.parent pos ->
              nth_error (PyArray.set_nth h pos y) c = Some a ->
              lt a y = false).
    { intros c a Hc Hpc Hca.
      destruct (Nat.eq_dec c pos) as [->|Hcne].
      - rewrite nth_error_set_nth_eq in Hca by assumption.
        injection Hca as <-. apply lt_irrefl.
      - rewrite nth_error_set_nth_neq in Hca by congruence.
        apply (Hrest c a y); auto; try lia. congruence. }
    split; [constructor|].
    + rewrite set_nth_length. lia.
    + assumption.
    + intros i a b Hi Hpi Hne Hne' Ha Hb.
      pose proof (parent_lt i Hi) as Hlti.
      destruct (Nat.eq_dec i pos) as [->|Hipos]; [congruence|].
      rewrite nth_error_set_nth_neq in Ha by congruence.
      destruct (Nat.eq_dec (heapq.parent i) pos) as [E|Hne''].
      * rewrite E in Hb. rewrite nth_error_set_nth_eq in Hb by assumption.
        injection Hb as <-. apply (Habove i a y); auto. lia.
      * rewrite nth_error_set_nth_neq in Hb by congruence.
        eapply Hrest; eauto.
    + intros c a b Hne Hc Hpc Ha Hb.
      destruct (desc_parent p _ Hdp Hne) as [Hpp0 Hdpp].
      pose proof (parent_lt _ Hpp0) as Hlt2.
      pose proof (desc_le _ _ Hdpp) as Hple2.
      rewrite nth_error_set_nth_neq in Hb by lia.
      assert (Hyb : lt y b = false).
      { apply (Hrest (heapq.parent pos) y b); auto; lia. }
      apply (lt_negtrans a y b); [apply (Hsib c a); auto|exact Hyb].
    + intros c a Hc Hpc Ha.
      apply (lt_negtrans a y x); [apply (Hsib c a); auto|now apply lt_asym].
Qed.

Lemma path_inv_set_hole p pos v h :
  heapq.path_inv lt p pos h ->
  heapq.path_inv lt p pos (heapq.set_nth h pos v).
Proof.
  intros [Hin Hdesc Hrest Habove]. unfold heapq.set_nth. constructor.
  - now rewrite set_nth_length.
  - assumption.
  - intros i a b Hi Hpi Hne Hne' Ha Hb.
    rewrite nth_error_set_nth_neq in Ha, Hb by congruence. eauto.
  - intros c a b Hne Hc Hpc Ha Hb.
    assert (0 < pos) by (destruct (desc_parent p pos Hdesc Hne); auto).
    pose proof (parent_lt pos H). pose proof (parent_lt c Hc).
    rewrite nth_error_set_nth_neq in Ha, Hb by lia. eauto.
Qed.

(** The first loop of [_siftup] walks the hole down to a leaf. *)
Lemma siftup_loop_path p x fuel : forall h pos h1 pos1,
  length h - pos <= fuel -> heapq.path_inv lt p pos h ->
  heapq.siftup_loop lt fuel h (length h) pos x = (h1, pos1) ->
  heapq.path_inv lt p pos1 h1 /\ length h1 = length h
  /\ length h <= 2 * pos1 + 1.
Proof.
  induction fuel as [|fuel IH]; intros h pos h1 pos1 Hfuel Hinv;
    cbn [heapq.siftup_loop]; intros Hrun.
  - destruct Hinv as [Hin _ _ _]. lia.
  - destruct (2 * pos + 1 <? length h) eqn:Hleft.
    2:{ apply Nat.ltb_ge in Hleft. injection Hrun as <- <-. auto. }
    apply Nat.ltb_lt in Hleft.
    pose proof Hinv as [Hin Hdesc Hrest Habove].
    pose proof (desc_le _ _ Hdesc) as Hple.
    destruct (nth_error_in_range h (2 * pos + 1) Hleft) as [yl Hyl].
    rewrite (nth_of_nth_error _ _ _ x Hyl) in Hrun.
    (* the child that moves up, and why the other one is not smaller *)
    remember (if (2 * pos + 1 + 1 <? length h)
                 && negb (lt yl (nth (2 * pos + 1 + 1) h x))
              then 2 * pos + 1 + 1 else 2 * pos + 1) as c eqn:Ec.
    assert (Hsel :
      (c = 2 * pos + 1 + 1
       /\ exists yr, nth_error h (2 * pos + 1 + 1) = Some yr
                     /\ lt yl yr = false)
      \/ (c = 2 * pos + 1
          /\ (length h <= 2 * pos + 1 + 1
              \/ exists yr, nth_error h (2 * pos + 1 + 1) = Some yr
                            /\ lt yl yr = true))).
    { destruct (2 * pos + 1 + 1 <? length h) eqn:Hr; cbn [andb] in Ec.
      - apply Nat.ltb_lt in Hr.
        destruct (nth_error_in_range h (2 * pos + 1 + 1) Hr) as [yr Hyr].
        rewrite (nth_of_nth_error _ _ _ x Hyr) in Ec.
        destruct (lt yl yr) eqn:Hlr; cbn [negb] in Ec; eauto 6.
      - apply Nat.ltb_ge in Hr. right. split; auto. }
    clear Ec.
    assert (Hclt : c < length h).
    { destruct Hsel as [(-> & yr & Hyr & _)|[-> _]]; [|lia].
      apply nth_error_Some. congruence. }
    assert (Hpc : heapq.parent c = pos).
    { destruct Hsel as [[-> _]|[-> _]];
        [apply parent_right|apply parent_left]. }
    destruct (nth_error_in_range h c Hclt) as [v Hv].
    assert (Hmin : forall i a, 0 < i -> heapq.parent i = pos -> i <> c ->
              nth_error h i = Some a -> lt a v = false).
    { intros i a Hi Hpi Hic Ha.
      assert (Hran : i < length h) by (apply nth_error_Some; congruence).
      destruct (parent_spec i Hi) as [Ei|Ei]; rewrite Hpi in Ei;
        destruct Hsel as [(-> & yr & Hyr & Hlr)|(-> & Hr)]; try lia.
      - (* the left child stayed: the right one moved *)
        replace i with (2 * pos + 1) in Ha by lia.
        assert (a = yl) by congruence. assert (v = yr) by congruence.
        now subst.
      - (* the right child stayed: the left one moved *)
        replace i with (2 * pos + 1 + 1) in Ha by lia.
        destruct Hr as [Hr|(yr & Hyr & Hlr)]; [lia|].
        assert (a = yr) by congruence. assert (v = yl) by congruence.
        subst. now apply lt_asym. }
    assert (Hcpos : pos < c) by (destruct Hsel as [[-> _]|[-> _]]; lia).
    replace (nth c h x) with v in Hrun
      by (symmetry; now apply nth_of_nth_error).
    change (PyArray.set_nth h pos v) with (heapq.set_nth h pos v) in Hrun.
    assert (Hlen : length (heapq.set_nth h pos v) = length h)
      by apply set_nth_length.
    rewrite <- Hlen in Hrun.
    apply IH in Hrun; [rewrite Hlen in Hrun; exact Hrun|lia|].
    unfold heapq.set_nth. constructor.
    + rewrite set_nth_length. lia.
    + apply heapq.desc_child; [lia|]. now rewrite Hpc.
    + intros i a b Hi Hpi Hne Hne' Ha Hb.
      pose proof (parent_lt i Hi) as Hlti.
      destruct (Nat.eq_dec i pos) as [->|Hipos].
      * rewrite nth_error_set_nth_eq in Ha by assumption.
        injection Ha as <-.
        rewrite nth_error_set_nth_neq in Hb by lia.
        apply (Habove c v b); auto; lia.
      * rewrite nth_error_set_nth_neq in Ha by congruence.
        destruct (Nat.eq_dec (heapq.parent i) pos) as [E|Hne''].
        -- rewrite E in Hb.
           rewrite nth_error_set_nth_eq in Hb by assumption.
           injection Hb as <-. apply (Hmin i a); auto.
        -- rewrite nth_error_set_nth_neq in Hb by congruence.
           eapply Hrest; eauto.
    + intros cc a b _ Hcc Hpcc Ha Hb.
      rewrite Hpc in Hb.
      rewrite nth_error_set_nth_eq in Hb by assumption.
      injection Hb as <-.
      pose proof (parent_lt cc Hcc).
      rewrite nth_error_set_nth_neq in Ha by lia.
      apply (Hrest cc a v); auto; try lia.
      now rewrite Hpcc.
Qed.

Lemma siftdown_ordered p pos x h :
  nth_error h pos = Some x -> heapq.hole_inv lt p pos x h ->
  heapq.ordered_from lt p (heapq._siftdown lt h p pos).
Proof.
  intros Hx Hinv. unfold heapq._siftdown. rewrite Hx.
  now apply siftdown_loop_ordered.
Qed.

(** [_siftup(heap, p)] orders the pairs below [p] once the later ones are
    ordered. *)
Lemma siftup_ordered p h :
  p < length h -> heapq.ordered_from lt (S p) h ->
  heapq.ordered_from lt p (heapq._siftup lt h p).
Proof.
  intros Hp Hord. unfold heapq._siftup.
  destruct (nth_error_in_range h p Hp) as [x Hx]. rewrite Hx.
  destruct (heapq.siftup_loop lt (length h) h (length h) p x)
    as [h1 pos1] eqn:Hrun.
  apply (siftup_loop_path p) in Hrun as (Hpath & Hlen & Hleaf); [|lia|].
  - destruct Hpath as [Hin1 Hd1 Hr1 Ha1].
    apply (siftdown_ordered p pos1 x).
    + apply nth_error_set_nth_eq. assumption.
    + split.
      * apply path_inv_set_hole. now constructor.
      * intros c a Hc Hpc Ha. exfalso.
        assert (c < length (heapq.set_nth h1 pos1 x))
          by (apply nth_error_Some; congruence).
        unfold heapq.set_nth in H. rewrite set_nth_length in H.
        destruct (parent_spec c Hc); lia.
  - constructor; [assumption|constructor| |].
    + intros i a b Hi Hpi Hne Hne' Ha Hb.
      apply (Hord i a b); auto. lia.
    + intros c a b Hne. congruence.
Qed.

(** The sifting procedures permute the list. *)
Lemma siftdown_loop_perm p x fuel : forall h pos,
  pos < length h ->
  Permutation (heapq.siftdown_loop lt fuel h p pos x)
              (heapq.set_nth h pos x).
Proof.
  induction fuel as [|fuel IH]; intros h pos Hin;
    cbn [heapq.siftdown_loop]; [reflexivity|].
  destruct (p <? pos) eqn:Hpp; [|reflexivity].
  apply Nat.ltb_lt in Hpp.
  pose proof (parent_lt pos ltac:(lia)) as Hlt.
  change ((pos - 1) / 2) with (heapq.parent pos).
  destruct (nth_error_in_range h (heapq.parent pos) ltac:(lia)) as [y Hy].
  rewrite (nth_of_nth_error _ _ _ x Hy).
  destruct (lt x y); [|reflexivity].
  rewrite IH by (unfold heapq.set_nth; rewrite set_nth_length; lia).
  unfold heapq.set_nth. apply set_nth_move_perm; auto. lia.
Qed.

Lemma siftdown_perm p pos h :
  Permutation (heapq._siftdown lt h p pos) h.
Proof.
  unfold heapq._siftdown. destruct (nth_error h pos) as [x|] eqn:Hx;
    [|reflexivity].
  rewrite siftdown_loop_perm by (apply nth_error_Some; congruence).
  unfold heapq.set_nth. now rewrite set_nth_same.
Qed.

Lemma siftup_loop_perm x fuel : forall h pos h1 pos1,
  pos < length h ->
  heapq.siftup_loop lt fuel h (length h) pos x = (h1, pos1) ->
  pos1 < length h1
  /\ Permutation (heapq.set_nth h1 pos1 x) (heapq.set_nth h pos x).
Proof.
  induction fuel as [|fuel IH]; intros h pos h1 pos1 Hin;
    cbn [heapq.siftup_loop]; intros Hrun.
  - injection Hrun as <- <-. auto.
  - destruct (2 * pos + 1 <? length h) eqn:Hleft.
    2:{ injection Hrun as <- <-. auto. }
    apply Nat.ltb_lt in Hleft.
    remember (if (2 * pos + 1 + 1 <? length h)
                 && negb (lt (nth (2 * pos + 1) h x)
                             (nth (2 * pos + 1 + 1) h x))
              then 2 * pos + 1 + 1 else 2 * pos + 1) as c eqn:Ec.
    assert (Hc : pos < c < length h).
    { subst c. destruct (2 * pos + 1 + 1 <? length h) eqn:Hr;
        cbn [andb].
      - apply Nat.ltb_lt in Hr. destruct (negb _); lia.
      - lia. }
    destruct (nth_error_in_range h c ltac:(lia)) as [v Hv].
    rewrite (nth_of_nth_error _ _ _ x Hv) in Hrun.
    change (PyArray.set_nth h pos v) with (heapq.set_nth h pos v) in Hrun.
    assert (Hlen : length (heapq.set_nth h pos v) = length h)
      by apply set_nth_length.
    rewrite <- Hlen in Hrun.
    apply IH in Hrun as [Hin1 Hperm]; [|lia].
    split; [assumption|]. rewrite Hperm.
    unfold heapq.set_nth. apply set_nth_move_perm; auto; lia.
Qed.

Lemma siftup_perm h p : Permutation (heapq._siftup lt h p) h.
Proof.
  unfold heapq._siftup. destruct (nth_error h p) as [x|] eqn:Hx;
    [|reflexivity].
  destruct (heapq.siftup_loop lt (length h) h (length h) p x)
    as [h1 pos1] eqn:Hrun.
  apply siftup_loop_perm in Hrun as [Hin1 Hperm];
    [|apply nth_error_Some; congruence].
  rewrite siftdown_perm, Hperm.
  unfold heapq.set_nth. now rewrite set_nth_same.
Qed.

(** [heappush] *)
Lemma heappush_perm h x : Permutation (heapq.heappush lt h x) (x :: h).
Proof.
  unfold heapq.heappush. rewrite siftdown_perm.
  rewrite Permutation_app_comm. reflexivity.
Qed.

Lemma heappush_ok h x :
  heapq.heap_ok lt h -> heapq.heap_ok lt (heapq.heappush lt h x).
Proof.
  intros Hok. unfold heapq.heappush, heapq.heap_ok.
  rewrite length_app. simpl length.
  replace (length h + 1 - 1) with (length h) by lia.
  assert (Hx : nth_error (h ++ [x]) (length h) = Some x).
  { rewrite nth_error_app2 by lia. now rewrite Nat.sub_diag. }
  assert (Hleaf : forall c a, 0 < c -> heapq.parent c = length h ->
            nth_error (h ++ [x]) c = Some a -> False).
  { intros c a Hc Hpc Ha.
    assert (c < length (h ++ [x])) by (apply nth_error_Some; congruence).
    rewrite length_app in H. simpl in H.
    destruct (parent_spec c Hc); lia. }
  apply (siftdown_ordered 0 (length h) x); [assumption|].
  split; [constructor|].
  - rewrite length_app. simpl. lia.
  - apply desc_root.
  - intros i a b Hi _ Hne Hne' Ha Hb.
    assert (i < length (h ++ [x])) by (apply nth_error_Some; congruence).
    rewrite length_app in H. simpl in H.
    pose proof (parent_lt i Hi).
    rewrite nth_error_app1 in Ha, Hb by lia.
    apply (Hok i a b); auto. lia.
  - intros c a b _ Hc Hpc Ha _. exfalso. eauto.
  - intros c a Hc Hpc Ha. exfalso. eauto.
Qed.

(** [heappushpop], on the branch the sketch takes. *)
Lemma heappushpop_perm h x r h' :
  heapq.heappushpop lt h x = (r, h') -> Permutation (r :: h') (x :: h).
Proof.
  unfold heapq.heappushpop. destruct h as [|top rest].
  - intros [= <- <-]. reflexivity.
  - destruct (lt top x).
    + intros [= <- <-]. rewrite siftup_perm. apply perm_swap.
    + intros [= <- <-]. reflexivity.
Qed.

Lemma heappushpop_ok h x r h' :
  heapq.heap_ok lt h -> heapq.heappushpop lt h x = (r, h') ->
  heapq.heap_ok lt h'.
Proof.
  intros Hok. unfold heapq.heappushpop. destruct h as [|top rest].
  - intros [= <- <-]. assumption.
  - destruct (lt top x); intros [= <- <-]; [|assumption].
    apply siftup_ordered; [simpl; lia|].
    intros i a b Hi Hpi Ha Hb.
    pose proof (parent_lt i Hi).
    destruct i as [|i]; [lia|].
    destruct (heapq.parent (S i)) as [|q] eqn:Eq; [lia|].
    simpl in Ha, Hb. apply (Hok (S i) a b); auto; try lia.
    now rewrite Eq.
Qed.

Lemma heappushpop_root top rest x :
  lt top x = true ->
  heapq.heappushpop lt (top :: rest) x
  = (top, heapq._siftup lt (x :: rest) 0).
Proof. intros H. unfold heapq.heappushpop. now rewrite H. Qed.

(** [heapify] *)
Lemma heapify_steps_perm k : forall h,
  Permutation (fold_left (heapq._siftup lt) (rev (seq 0 k)) h) h.
Proof.
  induction k as [|k IH]; intros h; [reflexivity|].
  rewrite seq_S, rev_app_distr. simpl. rewrite IH. apply siftup_perm.
Qed.

Lemma heapify_perm h : Permutation (heapq.heapify lt h) h.
Proof. apply heapify_steps_perm. Qed.

Lemma heapify_steps_ok k : forall h,
  k <= length h -> heapq.ordered_from lt k h ->
  heapq.heap_ok lt (fold_left (heapq._siftup lt) (rev (seq 0 k)) h).
Proof.
  induction k as [|k IH]; intros h Hk Hord; [exact Hord|].
  rewrite seq_S, rev_app_distr. simpl. apply IH.
  - rewrite (Permutation_length (siftup_perm h k)). lia.
  - apply siftup_ordered; [lia|assumption].
Qed.

Lemma heapify_ok h : heapq.heap_ok lt (heapq.heapify lt h).
Proof.
  unfold heapq.heapify. apply heapify_steps_ok.
  - pose proof (Nat.div_mod_eq (length h) 2). lia.
  - intros i a b Hi Hpi Ha Hb. exfalso.
    assert (i < length h) by (apply nth_error_Some; congruence).
    pose proof (Nat.div_mod_eq (length h) 2).
    pose proof (Nat.mod_upper_bound (length h) 2).
    destruct (parent_spec i Hi); lia.
Qed.

(** In a heap nothing is smaller than the first element. *)
Lemma heap_root_min h r :
  heapq.heap_ok lt h -> nth_error h 0 = Some r ->
  forall i x, nth_error h i = Some x -> lt x r = false.
Proof.
  intros Hok Hr i. induction i as [i IH] using lt_wf_ind. intros x Hx.
  destruct (Nat.eq_dec i 0) as [->|Hi].
  - assert (x = r) by congruence. subst. apply lt_irrefl.
  - pose proof (parent_lt i ltac:(lia)) as Hlt.
    assert (i < length h) by (apply nth_error_Some; congruence).
    destruct (nth_error_in_range h (heapq.parent i) ltac:(lia)) as [y Hy].
    apply (lt_negtrans x y r).
    + apply (Hok i x y); auto; lia.
    + apply (IH (heapq.parent i)); auto.
Qed.

End HeapqFacts.

(** ** The order on the tracked lists *)

Lemma str_ltb_lt (a b : string) :
  String.ltb a b = true <-> String_as_OT.lt a b.
Proof.
  unfold String.ltb. rewrite <- String_as_OT.cmp_lt.
  unfold String_as_OT.cmp. destruct (String.compare a b); split;
    congruence.
Qed.

Lemma str_ltb_irrefl (a : string) : String.ltb a a = false.
Proof.
  destruct (String.ltb a a) eqn:E; auto.
  apply str_ltb_lt in E.
  exfalso. exact (String_as_OT.lt_not_eq _ _ E eq_refl).
Qed.

Lemma str_ltb_asym (a b : string) :
  String.ltb a b = true -> String.ltb b a = false.
Proof.
  intros H. destruct (String.ltb b a) eqn:E; auto.
  apply str_ltb_lt in H, E.
  pose proof (String_as_OT.lt_trans _ _ _ H E) as C.
  exfalso. exact (String_as_OT.lt_not_eq _ _ C eq_refl).
Qed.

Lemma str_ltb_total (a b : string) :
  String.ltb a b = false -> a = b \/ String.ltb b a = true.
Proof.
  unfold String.ltb. rewrite (String.compare_antisym b a).
  destruct (String.compare a b) eqn:E; simpl; auto; try discriminate.
  left. now apply String.compare_eq_iff.
Qed.

Lemma str_ltb_negtrans (a b c : string) :
  String.ltb a b = false -> String.ltb b c = false ->
  String.ltb a c = false.
Proof.
  intros Hab Hbc. destruct (String.ltb a c) eqn:Hac; auto.
  destruct (str_ltb_total _ _ Hab) as [->|Hba]; [congruence|].
  destruct (str_ltb_total _ _ Hbc) as [->|Hcb]; [congruence|].
  apply str_ltb_lt in Hba, Hcb, Hac.
  pose proof (String_as_OT.lt_trans _ _ _ Hcb
                (String_as_OT.lt_trans _ _ _ Hba Hac)) as C.
  exfalso. exact (String_as_OT.lt_not_eq _ _ C eq_refl).
Qed.

Lemma list_lt_unfold (p q : Z * string) :
  list_lt p q = if fst p =? fst q then String.ltb (snd p) (snd q)
                else fst p <? fst q.
Proof.
  unfold list_lt. destruct (fst p =? fst q); auto.
  destruct (String.eqb_spec (snd p) (snd q)) as [->|]; auto.
  now rewrite str_ltb_irrefl.
Qed.

Lemma list_lt_asym (p q : Z * string) :
  list_lt p q = true -> list_lt q p = false.
Proof.
  rewrite !list_lt_unfold. rewrite (Z.eqb_sym (fst q)).
  destruct (fst p =? fst q) eqn:E.
  - apply str_ltb_asym.
  - intros H. apply Z.ltb_lt in H. apply Z.ltb_ge. lia.
Qed.

Lemma list_lt_negtrans (p q r : Z * string) :
  list_lt p q = false -> list_lt q r = false -> list_lt p r = false.
Proof.
  rewrite !list_lt_unfold.
  destruct (Z.eqb_spec (fst p) (fst q)) as [Epq|Npq];
    destruct (Z.eqb_spec (fst q) (fst r)) as [Eqr|Nqr];
    destruct (Z.eqb_spec (fst p) (fst r)) as [Epr|Npr];
    try lia; rewrite ?Z.ltb_ge, ?Z.ltb_lt; try lia.
  apply str_ltb_negtrans.
Qed.

(** A smaller estimate makes a smaller list. *)
Lemma list_lt_estimate (p q : Z * string) :
  fst p < fst q -> list_lt p q = true.
Proof.
  intros H. rewrite list_lt_unfold.
  destruct (Z.eqb_spec (fst p) (fst q)); [lia|]. now apply Z.ltb_lt.
Qed.

Lemma list_lt_false_estimate (p q : Z * string) :
  list_lt p q = false -> fst q <= fst p.
Proof.
  intros H. destruct (Z.le_gt_cases (fst q) (fst p)); auto.
  rewrite list_lt_estimate in H by lia. discriminate.
Qed.

Lemma lt_at_asym (m : Memory) (a b : nat) :
  lt_at m a b = true -> lt_at m b a = false.
Proof. apply list_lt_asym. Qed.

Lemma lt_at_negtrans (m : Memory) (a b c : nat) :
  lt_at m a b = false -> lt_at m b c = false -> lt_at m a c = false.
Proof. apply list_lt_negtrans. Qed.

(** The heap order only looks at the lists in the heap. *)
Lemma heap_ok_frame (m m' : Memory) (h : list nat) :
  (forall a, In a h -> pair_cells m' a = pair_cells m a) ->
  heapq.heap_ok (lt_at m) h -> heapq.heap_ok (lt_at m') h.
Proof.
  intros Hsame Hok i x y Hi Hp Hx Hy. unfold lt_at.
  rewrite !Hsame by (eapply nth_error_In; eauto).
  exact (Hok i x y Hi Hp Hx Hy).
Qed.

(** ** Counter rows *)

Lemma index_column (n : nat) (idx : Z) :
  0 <= idx < Z.of_nat n -> PyArray.index n idx = Ok (Z.to_nat idx).
Proof.
  intros H. unfold PyArray.index.
  destruct (Z.leb_spec 0 idx); [|lia].
  destruct (Z.ltb_spec idx (Z.of_nat n)); [|lia]. reflexivity.
Qed.

Lemma getitem_column (row : list Z) (idx : Z) :
  0 <= idx < Z.of_nat (length row) ->
  PyArray.getitem row idx = Ok (nth (Z.to_nat idx) row 0).
Proof.
  intros H. unfold PyArray.getitem. now rewrite index_column.
Qed.

Lemma iadd_length (row row' : list Z) (idx count : Z) :
  PyArray.iadd row idx count = Ok row' -> length row' = length row.
Proof.
  unfold PyArray.iadd, PyArray.getitem, PyArray.setitem, bind.
  destruct (PyArray.index (length row) idx); [|discriminate].
  destruct (_ && _); [|discriminate].
  intros [= <-]. apply set_nth_length.
Qed.

Lemma nth_set_nth (l : list Z) (i j : nat) (x : Z) :
  (i < length l)%nat ->
  nth j (PyArray.set_nth l i x) 0 = if (j =? i)%nat then x else nth j l 0.
Proof.
  intros Hi. destruct (Nat.eqb_spec j i) as [->|Hne].
  - apply nth_of_nth_error. now apply nth_error_set_nth_eq.
  - destruct (nth_error l j) as [y|] eqn:E.
    + rewrite (nth_of_nth_error _ _ _ 0 E). apply nth_of_nth_error.
      rewrite nth_error_set_nth_neq by congruence. assumption.
    + apply nth_error_None in E.
      rewrite !nth_overflow; auto. now rewrite set_nth_length.
Qed.

(** What [table[idx] += count] does to the column [j] of the row. *)
Lemma iadd_getitem (row row' : list Z) (idx count j : Z) :
  0 <= idx < Z.of_nat (length row) -> 0 <= j < Z.of_nat (length row) ->
  PyArray.iadd row idx count = Ok row' ->
  exists v, PyArray.getitem row j = Ok v
    /\ PyArray.getitem row' j = Ok (if j =? idx then v + count else v).
Proof.
  intros Hidx Hj H. pose proof (iadd_length _ _ _ _ H) as Hlen.
  rewrite (getitem_column row' j) by lia.
  rewrite (getitem_column row j) by lia.
  eexists; split; [reflexivity|].
  unfold PyArray.iadd, PyArray.setitem, bind in H.
  rewrite getitem_column, index_column in H by lia.
  destruct (_ && _); [|discriminate]. injection H as <-.
  rewrite nth_set_nth by lia.
  destruct (Z.eqb_spec j idx) as [->|Hne].
  - now rewrite Nat.eqb_refl.
  - destruct (Nat.eqb_spec (Z.to_nat j) (Z.to_nat idx)); [lia|reflexivity].
Qed.

(** The rows keep their number and their lengths, whatever the outcome. *)
Lemma add_count_shape (n : nat) (count : Z) (tables : list (list Z)) :
  forall idxs r tables',
  add_count tables idxs count = (r, tables') ->
  Forall (fun row => length row = n) tables ->
  length tables' = length tables
  /\ Forall (fun row => length row = n) tables'.
Proof.
  induction tables as [|table ts IH]; intros idxs r tables' H Hshape;
    simpl in H.
  - injection H as <- <-. auto.
  - destruct idxs as [|[idx|e] rest]; try (injection H as <- <-; auto).
    destruct (PyArray.iadd table idx count) as [table'|e] eqn:E;
      [|injection H as <- <-; auto].
    destruct (add_count ts rest count) as [r1 ts'] eqn:E1.
    injection H as <- <-. inversion Hshape as [|? ? Hrow Hrest]; subst.
    destruct (IH _ _ _ E1 Hrest) as [Hl Hs]. split; simpl; [lia|].
    constructor; auto. now rewrite (iadd_length _ _ _ _ E).
Qed.

(** Reading the counters of any item never fails on well-shaped rows. *)
Lemma estimate_values_ok (n : nat) (tables : list (list Z)) :
  forall idxs,
  Forall (fun row => length row = n) tables -> Forall (column n) idxs ->
  length idxs = length tables ->
  exists vs, estimate_values tables idxs = Ok vs
             /\ length vs = length tables.
Proof.
  induction tables as [|table ts IH]; intros idxs Hshape Hcols Hlen;
    simpl.
  - eauto.
  - destruct idxs as [|r rest]; [discriminate|].
    inversion Hshape as [|? ? Hrow Hrest]; subst.
    inversion Hcols as [|? ? Hcol Hc]; subst.
    destruct Hcol as (idx & -> & Hidx).
    simpl. rewrite getitem_column by lia. simpl.
    destruct (IH rest Hrest Hc) as (vs & -> & Hl); [simpl in Hlen; lia|].
    simpl. eexists; split; [reflexivity|]. simpl. lia.
Qed.

(** Adding a non-negative count never lowers a counter that is read. *)
Lemma add_count_monotone (n : nat) (count : Z) (tables : list (list Z)) :
  forall idxs r tables' idxs2 vs,
  0 <= count ->
  add_count tables idxs count = (r, tables') ->
  Forall (fun row => length row = n) tables ->
  Forall (column n) idxs -> Forall (column n) idxs2 ->
  estimate_values tables idxs2 = Ok vs ->
  exists vs', estimate_values tables' idxs2 = Ok vs'
              /\ Forall2 Z.le vs vs'.
Proof.
  induction tables as [|table ts IH];
    intros idxs r tables' idxs2 vs Hc H Hshape Hcols Hcols2 Hvs;
    simpl in H.
  - injection H as <- <-. exists vs. split; auto.
    clear. induction vs; constructor; auto; lia.
  - assert (Hrefl : forall l, Forall2 Z.le l l).
    { induction l; constructor; auto; lia. }
    destruct idxs as [|[idx|e] rest];
      try (injection H as <- <-; eauto).
    destruct (PyArray.iadd table idx count) as [table'|e] eqn:E;
      [|injection H as <- <-; eauto].
    destruct (add_count ts rest count) as [r1 ts'] eqn:E1.
    injection H as <- <-.
    inversion Hshape as [|? ? Hrow Hrest]; subst.
    inversion Hcols as [|? ? Hcol Hcr]; subst.
    destruct Hcol as (idx0 & Heq & Hidx). injection Heq as <-.
    destruct idxs2 as [|r2 rest2]; simpl in Hvs |- *.
    { injection Hvs as <-. eauto. }
    inversion Hcols2 as [|? ? Hcol2 Hcr2]; subst.
    destruct Hcol2 as (j & -> & Hj).
    simpl in Hvs |- *.
    destruct (iadd_getitem table table' idx count j) as (v & Hv & Hv');
      auto; try lia.
    rewrite Hv in Hvs. rewrite Hv'. simpl in Hvs |- *.
    destruct (estimate_values ts rest2) as [vs0|] eqn:E0;
      [|discriminate].
    simpl in Hvs. injection Hvs as <-.
    destruct (IH _ _ _ _ _ Hc E1 Hrest Hcr Hcr2 E0) as (vs' & -> & Hle).
    simpl. eexists; split; [reflexivity|]. constructor; auto.
    destruct (j =? idx); lia.
Qed.

(** A completed pass adds the count to every counter of the item. *)
Lemma add_count_exact (n : nat) (count : Z) (tables : list (list Z)) :
  forall idxs tables' vs,
  add_count tables idxs count = (Ok tt, tables') ->
  Forall (fun row => length row = n) tables ->
  Forall (column n) idxs -> length idxs = length tables ->
  estimate_values tables idxs = Ok vs ->
  estimate_values tables' idxs = Ok (map (fun v => v + count) vs).
Proof.
  induction tables as [|table ts IH];
    intros idxs tables' vs H Hshape Hcols Hlen Hvs; simpl in H.
  - injection H as <-. simpl in *. injection Hvs as <-. reflexivity.
  - destruct idxs as [|[idx|e] rest]; try discriminate.
    destruct (PyArray.iadd table idx count) as [table'|e] eqn:E;
      [|discriminate].
    destruct (add_count ts rest count) as [r1 ts'] eqn:E1.
    injection H as -> <-.
    inversion Hshape as [|? ? Hrow Hrest]; subst.
    inversion Hcols as [|? ? Hcol Hcr]; subst.
    destruct Hcol as (idx0 & Heq & Hidx). injection Heq as <-.
    simpl in Hvs |- *.
    destruct (iadd_getitem table table' idx count idx) as (v & Hv & Hv');
      auto; try lia.
    rewrite Hv in Hvs. rewrite Hv'. rewrite Z.eqb_refl. simpl in Hvs |- *.
    destruct (estimate_values ts rest) as [vs0|] eqn:E0; [|discriminate].
    simpl in Hvs. injection Hvs as <-.
    rewrite (IH _ _ _ E1 Hrest Hcr ltac:(simpl in Hlen; lia) E0).
    reflexivity.
Qed.

(** ** The minimum *)

Lemma fold_min_le (t : list Z) : forall x b,
  b <= x -> Forall (fun v => b <= v) t -> b <= fold_left Z.min t x.
Proof.
  induction t as [|a t IH]; intros x b Hx Ht; simpl; auto.
  inversion Ht; subst. apply IH; auto. lia.
Qed.

Lemma fold_min_monotone (t t' : list Z) : forall x x',
  x <= x' -> Forall2 Z.le t t' ->
  fold_left Z.min t x <= fold_left Z.min t' x'.
Proof.
  intros x x' Hx H. revert x x' Hx.
  induction H as [|a a' t t' Ha _ IH]; intros x x' Hx; simpl; auto.
  apply IH. lia.
Qed.

Lemma py_min_lower (vs : list Z) (b : Z) :
  vs <> [] -> Forall (fun v => b <= v) vs ->
  exists e, py_min vs = Ok e /\ b <= e.
Proof.
  intros Hne H. destruct vs as [|x t]; [congruence|].
  inversion H; subst. eexists; split; [reflexivity|].
  now apply fold_min_le.
Qed.

Lemma py_min_monotone (vs vs' : list Z) (e : Z) :
  Forall2 Z.le vs vs' -> py_min vs = Ok e ->
  exists e', py_min vs' = Ok e' /\ e <= e'.
Proof.
  intros H He. destruct H as [|x x' t t' Hx Ht]; [discriminate|].
  injection He as <-. eexists; split; [reflexivity|].
  now apply fold_min_monotone.
Qed.

(** ** The hash generator *)

Section HashFacts.

Variable py_hash : string -> Z.
Variable md5 : string -> Z.

Lemma hash_loop_length (w : Z) (rows : list nat) : forall data,
  length (hash_loop md5 w data rows) = length rows.
Proof.
  induction rows as [|i rest IH]; intros data; simpl; auto.
Qed.

Lemma hash_loop_columns (w : Z) (rows : list nat) : forall data,
  0 < w -> Forall (column (Z.to_nat w)) (hash_loop md5 w data rows).
Proof.
  induction rows as [|i rest IH]; intros data Hw; simpl; constructor;
    auto.
  unfold py_mod. destruct (Z.eqb_spec w 0); [lia|].
  eexists; split; [reflexivity|].
  pose proof (Z.mod_pos_bound (md5 (data ++ str_of_int (Z.of_nat i))) w Hw).
  lia.
Qed.

Lemma hash_length (s : CountMinSketch) (item : string) :
  length (_hash py_hash md5 s item) = Z.to_nat (_d s).
Proof.
  unfold _hash, range. now rewrite hash_loop_length, length_seq.
Qed.

Lemma hash_columns (s : CountMinSketch) (item : string) :
  0 < _w s -> Forall (column (Z.to_nat (_w s))) (_hash py_hash md5 s item).
Proof. intros H. now apply hash_loop_columns. Qed.

End HashFacts.

(** ** What [update] leaves alone *)

Section UpdateFacts.

Variable py_hash : string -> Z.
Variable md5 : string -> Z.

(** Case analysis on the program text of a definition: every scrutinee
    of the goal is destructed, results are decomposed. *)
Ltac cases_of H :=
  repeat match type of H with
         | context [match ?x with _ => _ end] =>
             let E := fresh "E" in destruct x eqn:E
         | context [if ?b then _ else _] =>
             let E := fresh "E" in destruct b eqn:E
         end.

(** [_update_heap] only touches the heap and the shared objects. *)
Lemma update_heap_fields (wd wd' : World) (item : string) (r : result unit) :
  _update_heap py_hash md5 wd item = (r, wd') ->
  sk wd' = with_heap (sk wd) (_heap (sk wd')).
Proof.
  unfold _update_heap. intros H.
  destruct wd as [m s]; destruct s; simpl in *.
  cases_of H; injection H as <- <-; reflexivity.
Qed.

Lemma update_heap_tables (wd wd' : World) (item : string) (r : result unit) :
  _update_heap py_hash md5 wd item = (r, wd') ->
  _tables (sk wd') = _tables (sk wd) /\ _w (sk wd') = _w (sk wd)
  /\ _d (sk wd') = _d (sk wd) /\ _k (sk wd') = _k (sk wd)
  /\ _top_k (sk wd') = _top_k (sk wd) /\ _n (sk wd') = _n (sk wd).
Proof.
  intros H. apply update_heap_fields in H. rewrite H.
  destruct (sk wd); simpl; auto 10.
Qed.

(** The shape of a call of [update]: rejected, stopped in the counter
    loop, or continued into [_update_heap]. *)
Lemma update_cases (wd wd' : World) (item : string) (count : Z)
    (r : result unit) :
  update py_hash md5 wd item count = (r, wd') ->
  (count < 0 /\ r = Raise ValueError /\ wd' = wd)
  \/ (0 <= count /\ exists r1 tables,
        add_count (_tables (sk wd)) (_hash py_hash md5 (sk wd) item) count
        = (r1, tables)
        /\ let wd1 := mkWorld (mem wd)
                        (with_tables (with_n (sk wd) (_n (sk wd) + count))
                           tables) in
           match r1 with
           | Raise e => r = Raise e /\ wd' = wd1
           | Ok _ => _update_heap py_hash md5 wd1 item = (r, wd')
           end).
Proof.
  unfold update. destruct (Z.ltb_spec count 0) as [Hc|Hc].
  - intros [= <- <-]. left. auto.
  - intros H. right. split; auto.
    change (_tables (with_n (sk wd) (_n (sk wd) + count)))
      with (_tables (sk wd)) in H.
    change (_hash py_hash md5 (with_n (sk wd) (_n (sk wd) + count)) item)
      with (_hash py_hash md5 (sk wd) item) in H.
    destruct (add_count (_tables (sk wd)) (_hash py_hash md5 (sk wd) item)
                count) as [r1 tables] eqn:E.
    exists r1, tables. split; auto. simpl.
    destruct r1; [assumption|]. injection H as <- <-. auto.
Qed.

Lemma update_params (wd wd' : World) (item : string) (count : Z)
    (r : result unit) :
  update py_hash md5 wd item count = (r, wd') ->
  _w (sk wd') = _w (sk wd) /\ _d (sk wd') = _d (sk wd)
  /\ _k (sk wd') = _k (sk wd) /\ _top_k (sk wd') = _top_k (sk wd).
Proof.
  intros H. apply update_cases in H
    as [(_ & _ & ->)|(_ & r1 & tables & _ & H)]; auto.
  simpl in H. destruct r1.
  - apply update_heap_tables in H. simpl in H. intuition congruence.
  - destruct H as [_ ->]. simpl. auto.
Qed.

End UpdateFacts.

(** ** Dictionaries *)

Lemma dict_get_none (es : list (string * nat)) (k : string) :
  dict_get es k = None -> ~ In k (map fst es).
Proof.
  induction es as [|[k' v] es IH]; simpl; auto.
  destruct (String.eqb_spec k' k); [discriminate|].
  intros H [?|?]; [congruence|]. now apply IH.
Qed.

Lemma dict_get_some (es : list (string * nat)) (k : string) (v : nat) :
  dict_get es k = Some v -> In (k, v) es.
Proof.
  induction es as [|[k' v'] es IH]; simpl; [discriminate|].
  destruct (String.eqb_spec k' k) as [->|]; auto.
  intros [= ->]. now left.
Qed.

Lemma dict_get_in (es : list (string * nat)) (k : string) (v : nat) :
  NoDup (map fst es) -> In (k, v) es -> dict_get es k = Some v.
Proof.
  induction es as [|[k' v'] es IH]; simpl; [tauto|].
  intros Hnd [H|H]; inversion Hnd; subst.
  - injection H as -> ->. now rewrite String.eqb_refl.
  - destruct (String.eqb_spec k' k) as [->|]; auto.
    exfalso. apply H2. change k with (fst (k, v)). now apply in_map.
Qed.

Lemma dict_set_fresh (es : list (string * nat)) (k : string) (v : nat) :
  dict_get es k = None -> dict_set es k v = es ++ [(k, v)].
Proof.
  induction es as [|[k' v'] es IH]; simpl; auto.
  destruct (String.eqb k' k); [discriminate|].
  intros H. now rewrite IH.
Qed.

Lemma dict_remove_perm (es : list (string * nat)) (k : string) (v : nat) :
  dict_get es k = Some v -> Permutation es ((k, v) :: dict_remove es k).
Proof.
  induction es as [|[k' v'] es IH]; simpl; [discriminate|].
  destruct (String.eqb_spec k' k) as [->|].
  - intros [= ->]. reflexivity.
  - intros H. rewrite (IH H) at 1. apply perm_swap.
Qed.

Lemma dict_remove_get_other (es : list (string * nat)) (k k' : string) :
  k' <> k -> dict_get (dict_remove es k) k' = dict_get es k'.
Proof.
  intros Hne. induction es as [|[k0 v0] es IH]; simpl; auto.
  destruct (String.eqb_spec k0 k) as [->|].
  - destruct (String.eqb_spec k k'); [congruence|reflexivity].
  - simpl. now rewrite IH.
Qed.

(** ** The invariant is kept *)

Lemma with_heap_same (s : CountMinSketch) : with_heap s (_heap s) = s.
Proof. now destruct s. Qed.

Lemma inv_owned_allocated (wd : World) (a : nat) :
  Inv wd -> owns_pair wd a -> (a < next_pair (mem wd))%nat.
Proof.
  intros I [H|H].
  - exact (proj1 (Forall_forall _ _) (inv_pairs_alloc _ I) a H).
  - apply (Permutation_in _ (inv_same _ I)) in H.
    exact (proj1 (Forall_forall _ _) (inv_pairs_alloc _ I) a H).
Qed.

(** Replacing the heap and the memory by ones with the tracker's
    properties. *)
Lemma inv_tracker (wd : World) (m' : Memory) (heap' : list nat) :
  Inv wd ->
  Forall (fun a => (a < next_pair m')%nat) heap' ->
  (_top_k (sk wd) < next_dict m')%nat ->
  NoDup heap' ->
  NoDup (map fst (dict_cells m' (_top_k (sk wd)))) ->
  Permutation (map snd (dict_cells m' (_top_k (sk wd)))) heap' ->
  Forall (fun e => snd (pair_cells m' (snd e)) = fst e)
    (dict_cells m' (_top_k (sk wd))) ->
  heapq.heap_ok (lt_at m') heap' ->
  (0 <= _k (sk wd) -> Z.of_nat (length heap') <= _k (sk wd)) ->
  Inv (mkWorld m' (with_heap (sk wd) heap')).
Proof.
  intros I. intros. destruct wd as [m s]; destruct s.
  destruct I; simpl in *. constructor; simpl; auto.
Qed.

(** Activity of the rest of the program keeps the invariant. *)
Lemma inv_frame (wd : World) (m' : Memory) :
  Inv wd -> frame wd m' -> Inv (mkWorld m' (sk wd)).
Proof.
  intros I [Hnp Hnd Hd Hp].
  rewrite <- (with_heap_same (sk wd)).
  assert (Hown : forall e, In e (entries wd) -> owns_pair wd (snd e)).
  { intros e He. right. now apply in_map. }
  apply inv_tracker; auto; try rewrite Hd; try apply I.
  - eapply Forall_impl; [|apply (inv_pairs_alloc _ I)]. simpl. lia.
  - pose proof (inv_dict_alloc _ I). lia.
  - apply Forall_forall. intros e He. rewrite Hp by auto.
    exact (proj1 (Forall_forall _ _) (inv_items _ I) e He).
  - apply (heap_ok_frame (mem wd)); [|apply I].
    intros a Ha. apply Hp. now left.
Qed.

(** Allocating a list is such an activity. *)
Lemma new_pair_frame (wd : World) (v : Z * string) :
  Inv wd -> frame wd (snd (new_pair (mem wd) v)).
Proof.
  intros I. constructor; simpl; auto.
  intros a Ha. pose proof (inv_owned_allocated _ _ I Ha).
  destruct (Nat.eqb_spec a (next_pair (mem wd))); [lia|reflexivity].
Qed.

(** ** The tracker's four cases *)

Lemma inv_entry_of_heap (wd : World) (a : nat) :
  Inv wd -> In a (_heap (sk wd)) ->
  dict_get (entries wd) (snd (pair_cells (mem wd) a)) = Some a.
Proof.
  intros I Ha.
  apply (Permutation_in _ (Permutation_sym (inv_same _ I))) in Ha.
  apply in_map_iff in Ha as ([k v] & Hv & He). simpl in Hv. subst v.
  pose proof (proj1 (Forall_forall _ _) (inv_items _ I) _ He) as Hk.
  simpl in Hk. rewrite Hk. apply dict_get_in; [apply I|assumption].
Qed.

Lemma inv_heap_of_entry (wd : World) (k : string) (a : nat) :
  Inv wd -> dict_get (entries wd) k = Some a ->
  In a (_heap (sk wd)) /\ snd (pair_cells (mem wd) a) = k.
Proof.
  intros I Hk. apply dict_get_some in Hk. split.
  - apply (Permutation_in _ (inv_same _ I)).
    change a with (snd (k, a)). now apply in_map.
  - exact (proj1 (Forall_forall _ _) (inv_items _ I) _ Hk).
Qed.

(** Case 1: the item is tracked. *)
Lemma inv_refresh (wd : World) (item : string) (a : nat) (est : Z) :
  Inv wd -> dict_get (entries wd) item = Some a ->
  let m1 := store_pair (mem wd) a (est, snd (pair_cells (mem wd) a)) in
  Inv (mkWorld m1
         (with_heap (sk wd) (heapq.heapify (lt_at m1) (_heap (sk wd))))).
Proof.
  intros I Hget m1.
  pose proof (heapify_perm (lt_at m1) (_heap (sk wd))) as Hperm.
  apply inv_tracker; auto; try apply I.
  - apply (Permutation_Forall (Permutation_sym Hperm)). apply I.
  - apply (Permutation_NoDup (Permutation_sym Hperm)). apply I.
  - rewrite Hperm. apply I.
  - eapply Forall_impl; [|apply (inv_items _ I)].
    intros e He. simpl. destruct (Nat.eqb_spec (snd e) a) as [E|]; auto.
    simpl. now rewrite <- E.
  - apply heapify_ok; [apply lt_at_asym|apply lt_at_negtrans].
  - rewrite (Permutation_length Hperm). apply I.
Qed.

(** Case 2: a new item while the tracker has room. *)
Lemma inv_insert (wd : World) (item : string) (est : Z) :
  Inv wd -> dict_get (entries wd) item = None ->
  Z.of_nat (length (_heap (sk wd))) < _k (sk wd) ->
  let p := next_pair (mem wd) in
  let m1 := snd (new_pair (mem wd) (est, item)) in
  let m2 := store_dict m1 (_top_k (sk wd))
              (dict_set (entries wd) item p) in
  Inv (mkWorld m2
         (with_heap (sk wd) (heapq.heappush (lt_at m2) (_heap (sk wd)) p))).
Proof.
  intros I Hget Hroom p m1 m2.
  pose proof (heappush_perm (lt_at m2) (_heap (sk wd)) p) as Hperm.
  assert (Hold : forall a, owns_pair wd a -> a <> p).
  { intros a Ha. pose proof (inv_owned_allocated _ _ I Ha). unfold p. lia. }
  assert (Hcells : forall a, owns_pair wd a ->
            pair_cells m2 a = pair_cells (mem wd) a).
  { intros a Ha. simpl. destruct (Nat.eqb_spec a (next_pair (mem wd)));
      [exfalso; now apply (Hold a)|reflexivity]. }
  assert (Hdict : dict_cells m2 (_top_k (sk wd))
                  = entries wd ++ [(item, p)]).
  { simpl. rewrite Nat.eqb_refl. now apply dict_set_fresh. }
  apply inv_tracker; auto; rewrite ?Hdict.
  - apply (Permutation_Forall (Permutation_sym Hperm)). constructor.
    + simpl. lia.
    + eapply Forall_impl; [|apply (inv_pairs_alloc _ I)]. simpl. lia.
  - simpl. apply I.
  - apply (Permutation_NoDup (Permutation_sym Hperm)). constructor;
      [|apply I].
    intros Hin. apply (Hold p); [now left|reflexivity].
  - rewrite map_app. simpl.
    apply (Permutation_NoDup (Permutation_cons_append _ _)).
    constructor; [now apply dict_get_none|apply I].
  - rewrite map_app. simpl. rewrite Hperm.
    rewrite <- Permutation_cons_append. apply perm_skip. apply I.
  - apply Forall_app. split.
    + apply Forall_forall. intros e He.
      rewrite Hcells by (right; now apply in_map).
      exact (proj1 (Forall_forall _ _) (inv_items _ I) _ He).
    + constructor; [|constructor]. simpl. now rewrite Nat.eqb_refl.
  - apply heappush_ok; [apply lt_at_asym|apply lt_at_negtrans|].
    apply (heap_ok_frame (mem wd)); [|apply I].
    intros a Ha. apply Hcells. now left.
  - intros _. rewrite (Permutation_length Hperm). simpl length. lia.
Qed.

(** Case 4, first half: which list leaves the heap, and that the reverse
    index knows it. *)
Lemma evict_root (wd : World) (item : string) (est : Z) (heap0 : nat)
    (rest : list nat) :
  Inv wd -> _heap (sk wd) = heap0 :: rest ->
  let p := next_pair (mem wd) in
  let m1 := snd (new_pair (mem wd) (est, item)) in
  fst (pair_cells m1 heap0) < est ->
  pair_cells m1 heap0 = pair_cells (mem wd) heap0
  /\ heapq.heappushpop (lt_at m1) (heap0 :: rest) p
     = (heap0, heapq._siftup (lt_at m1) (p :: rest) 0)
  /\ dict_pop (entries wd) (snd (pair_cells m1 heap0))
     = Ok (heap0, dict_remove (entries wd) (snd (pair_cells m1 heap0))).
Proof.
  intros I Hheap p m1 Hlt.
  assert (Hin : In heap0 (_heap (sk wd))) by (rewrite Hheap; now left).
  assert (Hcell : pair_cells m1 heap0 = pair_cells (mem wd) heap0).
  { simpl. pose proof (inv_owned_allocated wd heap0 I (or_introl Hin)).
    destruct (Nat.eqb_spec heap0 (next_pair (mem wd))); [lia|reflexivity]. }
  split; [assumption|]. split.
  - apply heappushpop_root. unfold lt_at. apply list_lt_estimate.
    replace (pair_cells m1 p) with (est, item); [assumption|].
    simpl. now rewrite Nat.eqb_refl.
  - unfold dict_pop. rewrite Hcell.
    now rewrite (inv_entry_of_heap wd heap0 I Hin).
Qed.

(** Case 4, second half: the state after the eviction. *)
Lemma inv_evict (wd : World) (item : string) (est : Z) (heap0 : nat)
    (rest : list nat) :
  Inv wd -> dict_get (entries wd) item = None ->
  _heap (sk wd) = heap0 :: rest ->
  let p := next_pair (mem wd) in
  let m1 := snd (new_pair (mem wd) (est, item)) in
  let rmv_item := snd (pair_cells m1 heap0) in
  let m2 := store_dict m1 (_top_k (sk wd))
              (dict_set (dict_remove (entries wd) rmv_item) item p) in
  fst (pair_cells m1 heap0) < est ->
  Inv (mkWorld m2
         (with_heap (sk wd) (heapq._siftup (lt_at m1) (p :: rest) 0))).
Proof.
  intros I Hget Hheap p m1 rmv_item m2 Hlt.
  destruct (evict_root wd item est heap0 rest I Hheap Hlt)
    as (Hcell & Hpp & Hpop).
  fold p m1 in Hcell, Hpp, Hpop.
  pose proof (siftup_perm (lt_at m1) (p :: rest) 0) as Hperm.
  assert (Hin : In heap0 (_heap (sk wd))) by (rewrite Hheap; now left).
  assert (Hkey : dict_get (entries wd) rmv_item = Some heap0).
  { unfold rmv_item. rewrite Hcell. now apply inv_entry_of_heap. }
  pose proof (dict_remove_perm _ _ _ Hkey) as Hes.
  assert (Hold : forall a, owns_pair wd a -> a <> p).
  { intros a Ha. pose proof (inv_owned_allocated _ _ I Ha). unfold p. lia. }
  assert (Hcells : forall a, owns_pair wd a ->
            pair_cells m2 a = pair_cells (mem wd) a).
  { intros a Ha. simpl. destruct (Nat.eqb_spec a (next_pair (mem wd)));
      [exfalso; now apply (Hold a)|reflexivity]. }
  assert (Hne : item <> rmv_item).
  { intros E. rewrite E in Hget. congruence. }
  assert (Hget1 : dict_get (dict_remove (entries wd) rmv_item) item = None).
  { rewrite dict_remove_get_other by congruence. assumption. }
  assert (Hdict : dict_cells m2 (_top_k (sk wd))
                  = dict_remove (entries wd) rmv_item ++ [(item, p)]).
  { simpl. rewrite Nat.eqb_refl. now apply dict_set_fresh. }
  assert (Hkeys : NoDup (rmv_item :: map fst (dict_remove (entries wd)
                                                rmv_item))).
  { apply (Permutation_NoDup (Permutation_map fst Hes)). apply I. }
  assert (Hvals : Permutation
                    (map snd (dict_remove (entries wd) rmv_item)) rest).
  { apply (Permutation_cons_inv (a := heap0)).
    rewrite <- Hheap. rewrite <- (inv_same _ I).
    symmetry. exact (Permutation_map snd Hes). }
  assert (Hnd : NoDup (heap0 :: rest)) by (rewrite <- Hheap; apply I).
  assert (Hsub : forall e, In e (dict_remove (entries wd) rmv_item) ->
            In e (entries wd)).
  { intros e He. apply (Permutation_in _ (Permutation_sym Hes)).
    now right. }
  apply inv_tracker; auto; rewrite ?Hdict.
  - apply (Permutation_Forall (Permutation_sym Hperm)). constructor.
    + simpl. lia.
    + pose proof (inv_pairs_alloc _ I) as Hall. rewrite Hheap in Hall.
      inversion Hall; subst.
      eapply Forall_impl; [|eassumption]. simpl. lia.
  - simpl. apply I.
  - apply (Permutation_NoDup (Permutation_sym Hperm)). constructor.
    + intros Hp. apply (Hold p); [|reflexivity].
      left. rewrite Hheap. now right.
    + now inversion Hnd.
  - rewrite map_app. simpl.
    apply (Permutation_NoDup (Permutation_cons_append _ _)).
    constructor; [now apply dict_get_none|now inversion Hkeys].
  - rewrite map_app. simpl. rewrite Hperm.
    rewrite <- Permutation_cons_append. now apply perm_skip.
  - apply Forall_app. split.
    + apply Forall_forall. intros e He. apply Hsub in He.
      rewrite Hcells by (right; now apply in_map).
      exact (proj1 (Forall_forall _ _) (inv_items _ I) _ He).
    + constructor; [|constructor]. simpl. now rewrite Nat.eqb_refl.
  - apply (heap_ok_frame m1); [reflexivity|].
    apply (heappushpop_ok (lt_at m1) (lt_at_asym m1) (lt_at_negtrans m1)
             (heap0 :: rest) p heap0); [|exact Hpp].
    rewrite <- Hheap. apply (heap_ok_frame (mem wd)); [|apply I].
    intros a Ha. apply (Hcells a). now left.
  - intros Hk. rewrite (Permutation_length Hperm).
    pose proof (inv_capacity _ I Hk) as Hcap. rewrite Hheap in Hcap.
    exact Hcap.
Qed.

Section TrackerFacts.

Variable py_hash : string -> Z.
Variable md5 : string -> Z.

(** The outcomes of [_update_heap] on a state that satisfies the
    invariant. *)
Lemma update_heap_cases (wd wd' : World) (item : string) (r : result unit) :
  Inv wd -> _update_heap py_hash md5 wd item = (r, wd') ->
  (exists e, estimate py_hash md5 wd item = Raise e
             /\ r = Raise e /\ wd' = wd)
  \/ exists est, estimate py_hash md5 wd item = Ok est /\
     let heap := _heap (sk wd) in
     let p := next_pair (mem wd) in
     let m1 := snd (new_pair (mem wd) (est, item)) in
     ((exists a, dict_get (entries wd) item = Some a /\ r = Ok tt
         /\ let m' := store_pair (mem wd) a
                        (est, snd (pair_cells (mem wd) a)) in
            wd' = mkWorld m'
                    (with_heap (sk wd) (heapq.heapify (lt_at m') heap)))
      \/ (dict_get (entries wd) item = None
          /\ Z.of_nat (length heap) < _k (sk wd) /\ r = Ok tt
          /\ let m2 := store_dict m1 (_top_k (sk wd))
                         (dict_set (entries wd) item p) in
             wd' = mkWorld m2
                     (with_heap (sk wd) (heapq.heappush (lt_at m2) heap p)))
      \/ (dict_get (entries wd) item = None
          /\ _k (sk wd) <= Z.of_nat (length heap) /\ heap = []
          /\ r = Raise IndexError /\ wd' = mkWorld m1 (sk wd))
      \/ (dict_get (entries wd) item = None
          /\ _k (sk wd) <= Z.of_nat (length heap)
          /\ exists heap0 rest, heap = heap0 :: rest
             /\ est <= fst (pair_cells m1 heap0)
             /\ r = Ok tt /\ wd' = mkWorld m1 (sk wd))
      \/ (dict_get (entries wd) item = None
          /\ _k (sk wd) <= Z.of_nat (length heap)
          /\ exists heap0 rest, heap = heap0 :: rest
             /\ fst (pair_cells m1 heap0) < est /\ r = Ok tt
             /\ let rmv_item := snd (pair_cells m1 heap0) in
                let m2 := store_dict m1 (_top_k (sk wd))
                            (dict_set (dict_remove (entries wd) rmv_item)
                               item p) in
                wd' = mkWorld m2
                        (with_heap (sk wd)
                           (heapq._siftup (lt_at m1) (p :: rest) 0)))).
Proof.
  intros I H. unfold _update_heap in H.
  destruct (estimate py_hash md5 wd item) as [est|e] eqn:Eest.
  2:{ injection H as <- <-. left. eauto. }
  right. exists est. split; [reflexivity|]. cbv zeta.
  fold (entries wd) in H.
  destruct (dict_get (entries wd) item) as [a|] eqn:Eget.
  { injection H as <- <-. left. eauto. }
  right. unfold new_pair in H. cbv beta iota zeta in H.
  change (snd (new_pair (mem wd) (est, item)))
    with (mkMemory
            (fun b => if (b =? next_pair (mem wd))%nat then (est, item)
                      else pair_cells (mem wd) b)
            (S (next_pair (mem wd))) (dict_cells (mem wd))
            (next_dict (mem wd))).
  set (m1 := mkMemory _ _ _ _) in *.
  destruct (Z.ltb_spec (Z.of_nat (length (_heap (sk wd)))) (_k (sk wd)))
    as [Hroom|Hfull].
  { injection H as <- <-. left. auto. }
  right. destruct (_heap (sk wd)) as [|heap0 rest] eqn:Hheap.
  { injection H as <- <-. left. auto. }
  right. destruct (Z.leb_spec est (fst (pair_cells m1 heap0))) as [Hle|Hgt].
  { injection H as <- <-. left. split; auto. split; auto. eauto 6. }
  right. split; auto. split; auto. exists heap0, rest.
  destruct (evict_root wd item est heap0 rest I Hheap Hgt)
    as (Hcell & Hpp & Hpop).
  change (snd (new_pair (mem wd) (est, item))) with m1 in Hpp, Hpop.
  rewrite Hpp in H.
  destruct (pair_cells m1 heap0) as [rmv_estimate rmv_item] eqn:Ecell.
  simpl snd in Hpop. rewrite Hpop in H. injection H as <- <-.
  auto.
Qed.

(** [_update_heap] keeps the invariant, whatever its outcome. *)
Lemma update_heap_inv (wd wd' : World) (item : string) (r : result unit) :
  Inv wd -> _update_heap py_hash md5 wd item = (r, wd') -> Inv wd'.
Proof.
  intros I H.
  destruct (update_heap_cases _ _ _ _ I H)
    as [(e & _ & _ & ->)|(est & _ & Hc)]; [assumption|].
  cbv zeta in Hc.
  destruct Hc as [(a & Hget & _ & ->)
                 |[(Hget & Hroom & _ & ->)
                  |[(_ & _ & _ & _ & ->)
                   |[(_ & _ & h0 & rest & _ & _ & _ & ->)
                    |(Hget & _ & h0 & rest & Hheap & Hlt & _ & ->)]]]].
  - now apply (inv_refresh wd item).
  - now apply inv_insert.
  - apply inv_frame; auto. now apply new_pair_frame.
  - apply inv_frame; auto. now apply new_pair_frame.
  - now apply inv_evict.
Qed.

(** The counter loop keeps the invariant. *)
Lemma inv_tables_update (wd : World) (n : Z) (tables : list (list Z)) :
  Inv wd ->
  length tables = length (_tables (sk wd)) ->
  Forall (fun row => length row = Z.to_nat (_w (sk wd))) tables ->
  Inv (mkWorld (mem wd) (with_tables (with_n (sk wd) n) tables)).
Proof.
  intros I Hl Hs. destruct wd as [m s]; destruct s; destruct I;
    simpl in *. constructor; simpl; auto. congruence.
Qed.

Lemma update_inv (wd wd' : World) (item : string) (count : Z)
    (r : result unit) :
  Inv wd -> update py_hash md5 wd item count = (r, wd') -> Inv wd'.
Proof.
  intros I H. apply update_cases in H
    as [(_ & _ & ->)|(_ & r1 & tables & Hadd & H)]; auto.
  destruct (add_count_shape _ _ _ _ _ _ Hadd (inv_rows _ I)) as [Hl Hs].
  pose proof (inv_tables_update wd (_n (sk wd) + count) tables I Hl Hs)
    as I1.
  simpl in H. destruct r1.
  - eapply update_heap_inv; eauto.
  - destruct H as [_ ->]. assumption.
Qed.

End TrackerFacts.

(** ** Deep copies *)

Lemma Forall2_impl_left {A B : Type} (P : A -> Prop) (R R' : A -> B -> Prop)
    (l : list A) (l' : list B) :
  (forall a b, P a -> R a b -> R' a b) ->
  Forall P l -> Forall2 R l l' -> Forall2 R' l l'.
Proof.
  intros Himp HP H. induction H; constructor; inversion HP; subst; auto.
Qed.

Lemma deepcopy_entries_spec (es : list (string * nat)) :
  forall m memo r m',
  deepcopy_entries m memo es = (r, m') ->
  Forall (fun e => (snd e < next_pair m)%nat) es ->
  (forall a a', In (a, a') memo ->
     (a < next_pair m)%nat /\ (a' < next_pair m)%nat
     /\ pair_cells m a' = pair_cells m a) ->
  (next_pair m <= next_pair m')%nat
  /\ next_dict m' = next_dict m
  /\ dict_cells m' = dict_cells m
  /\ (forall a, (a < next_pair m)%nat -> pair_cells m' a = pair_cells m a)
  /\ Forall2 (fun e e' => fst e' = fst e
                /\ pair_cells m' (snd e') = pair_cells m (snd e)) es r
  /\ Forall (fun e' => In (snd e') (map snd memo)
                \/ (next_pair m <= snd e' < next_pair m')%nat) r.
Proof.
  induction es as [|[k a] es IH]; intros m memo r m' H Hes Hmemo;
    simpl in H.
  - injection H as <- <-. repeat split; auto.
  - inversion Hes as [|? ? Ha Hes']; subst. simpl in Ha.
    destruct (find (fun e => (fst e =? a)%nat) memo) as [[x a']|] eqn:Ef.
    + apply find_some in Ef as [Hin Hx]. simpl in Hx.
      apply Nat.eqb_eq in Hx. subst x.
      destruct (Hmemo _ _ Hin) as (_ & Ha' & Hc).
      destruct (deepcopy_entries m memo es) as [r0 m0] eqn:E0.
      injection H as <- <-.
      destruct (IH _ _ _ _ E0 Hes' Hmemo)
        as (Hn & Hd & Hdc & Hold & Hcopy & Hfresh).
      repeat split; auto.
      * constructor; auto. simpl. split; auto.
        rewrite Hold by assumption. assumption.
      * constructor; auto. left. simpl.
        change a' with (snd (a, a')). now apply in_map.
    + unfold new_pair in H. cbv beta iota zeta in H.
      set (m1 := mkMemory _ _ _ _) in H.
      destruct (deepcopy_entries m1 ((a, next_pair m) :: memo) es)
        as [r0 m0] eqn:E0.
      injection H as <- <-.
      assert (Hsame : forall b, (b < next_pair m)%nat ->
                pair_cells m1 b = pair_cells m b).
      { intros b Hb. simpl.
        destruct (Nat.eqb_spec b (next_pair m)); [lia|reflexivity]. }
      assert (Hnew : pair_cells m1 (next_pair m) = pair_cells m a).
      { simpl. now rewrite Nat.eqb_refl. }
      destruct (IH m1 ((a, next_pair m) :: memo) r0 m0 E0)
        as (Hn & Hd & Hdc & Hold & Hcopy & Hfresh).
      { eapply Forall_impl; [|exact Hes']. simpl. lia. }
      { intros b b' [[= <- <-]|Hin].
        - simpl next_pair. rewrite Hnew, Hsame by assumption.
          repeat split; auto; lia.
        - destruct (Hmemo _ _ Hin) as (Hb & Hb' & Hc).
          simpl next_pair. rewrite !Hsame by assumption.
          repeat split; auto; lia. }
      simpl next_pair in *. repeat split; auto.
      * lia.
      * intros b Hb. rewrite Hold by lia. now apply Hsame.
      * constructor.
        -- simpl. split; auto. rewrite Hold by lia. assumption.
        -- eapply Forall2_impl_left; [|exact Hes'|exact Hcopy].
           intros e e' He [Hk Hc]. split; auto.
           rewrite Hc. now apply Hsame.
      * constructor.
        -- right. simpl. lia.
        -- eapply Forall_impl; [|exact Hfresh].
           intros e' [[Hin|Hin]|Hr]; simpl in *; auto; right; lia.
Qed.

Lemma deepcopy_dict_spec (m m' : Memory) (d d' : nat) :
  deepcopy_dict m d = (d', m') ->
  (d < next_dict m)%nat ->
  Forall (fun e => (snd e < next_pair m)%nat) (dict_cells m d) ->
  d' = next_dict m
  /\ (next_pair m <= next_pair m')%nat
  /\ next_dict m' = S (next_dict m)
  /\ (forall b, b <> d' -> dict_cells m' b = dict_cells m b)
  /\ (forall a, (a < next_pair m)%nat -> pair_cells m' a = pair_cells m a)
  /\ view m' d' = view m d
  /\ Forall (fun e' => (next_pair m <= snd e' < next_pair m')%nat)
       (dict_cells m' d').
Proof.
  unfold deepcopy_dict, new_dict. cbv beta iota zeta.
  set (m1 := mkMemory _ _ _ _).
  intros H Hd Hes.
  assert (Hd1 : dict_cells m1 d = dict_cells m d).
  { simpl. destruct (Nat.eqb_spec d (next_dict m)); [lia|reflexivity]. }
  rewrite Hd1 in H.
  destruct (deepcopy_entries m1 [] (dict_cells m d)) as [es' m2] eqn:E.
  injection H as <- <-.
  destruct (deepcopy_entries_spec _ _ _ _ _ E Hes)
    as (Hn & Hnd & Hdc & Hold & Hcopy & Hfresh).
  { intros a a' []. }
  simpl in Hn, Hnd, Hold, Hfresh.
  repeat split; auto.
  - intros b Hb. simpl. apply Nat.eqb_neq in Hb. rewrite Hb.
    rewrite Hdc. simpl. now rewrite Hb.
  - unfold view. simpl. rewrite Nat.eqb_refl.
    clear - Hcopy. induction Hcopy as [|e e' l l' [Hk Hc] _ IH]; simpl;
      [reflexivity|].
    simpl in Hc. now rewrite Hk, Hc, IH.
  - simpl. rewrite Nat.eqb_refl.
    eapply Forall_impl; [|exact Hfresh]. intros e' [[]|Hr]. exact Hr.
Qed.

(** [heavyHitters] only allocates: for the sketch it is activity of the
    rest of the program. *)
Lemma heavyHitters_spec (wd wd' : World) (d : nat) :
  Inv wd -> heavyHitters wd = (d, wd') ->
  sk wd' = sk wd
  /\ frame wd (mem wd')
  /\ d <> _top_k (sk wd)
  /\ view (mem wd') d = view (mem wd) (_top_k (sk wd))
  /\ Forall (fun e' => (next_pair (mem wd) <= snd e'
                        < next_pair (mem wd'))%nat)
       (dict_cells (mem wd') d).
Proof.
  intros I. unfold heavyHitters.
  destruct (deepcopy_dict (mem wd) (_top_k (sk wd))) as [d' m'] eqn:E.
  intros [= <- <-]. simpl.
  assert (Hes : Forall (fun e => (snd e < next_pair (mem wd))%nat)
                  (entries wd)).
  { apply Forall_forall. intros e He.
    apply (inv_owned_allocated wd (snd e) I). right. now apply in_map. }
  destruct (deepcopy_dict_spec _ _ _ _ E (inv_dict_alloc _ I) Hes)
    as (-> & Hn & Hnd & Hdict & Hold & Hview & Hfresh).
  pose proof (inv_dict_alloc _ I) as Hlt.
  repeat split; auto; try lia.
  - apply Hdict. lia.
  - intros a Ha. apply Hold. now apply inv_owned_allocated.
Qed.

Lemma heavyHitters_inv (wd wd' : World) (d : nat) :
  Inv wd -> heavyHitters wd = (d, wd') -> Inv wd'.
Proof.
  intros I H. destruct (heavyHitters_spec _ _ _ I H) as (Hs & Hf & _).
  destruct wd' as [m' s']. simpl in *. subst s'. now apply inv_frame.
Qed.

(** ** Reachable states *)

Lemma construct_inv (m : Memory) (w d k : Z) (wd : World) :
  construct m w d k = Ok wd ->
  Inv wd /\ _w (sk wd) = w /\ _d (sk wd) = d /\ _k (sk wd) = k
  /\ _n (sk wd) = 0 /\ _heap (sk wd) = [] /\ entries wd = []
  /\ _tables (sk wd)
     = map (fun _ => map (fun _ => 0) (range w)) (range d).
Proof.
  unfold construct.
  destruct (Z.eqb_spec w 0) as [|Hw]; [discriminate|].
  destruct (Z.eqb_spec d 0) as [|Hd]; [discriminate|]. simpl.
  destruct (PyFloat.of_int w) as [wf|]; [|discriminate]. simpl.
  destruct (PyFloat.truediv 2 wf) as [eps|]; [|discriminate]. simpl.
  destruct (PyFloat.pow2 d) as [p|]; [|discriminate]. simpl.
  destruct (PyFloat.truediv 1 p) as [q|]; [|discriminate]. simpl.
  intros [= <-]. unfold entries. simpl. rewrite Nat.eqb_refl.
  split; [|repeat split; reflexivity].
  constructor; unfold entries; simpl; rewrite ?Nat.eqb_refl.
  - assumption.
  - unfold range. now rewrite length_map, length_seq.
  - apply Forall_forall. intros row Hrow.
    apply in_map_iff in Hrow as (i & <- & _).
    unfold range. now rewrite length_map, length_seq.
  - constructor.
  - lia.
  - constructor.
  - constructor.
  - constructor.
  - constructor.
  - intros i x y Hi _ Hx. destruct i; discriminate.
  - auto.
Qed.

Section RunFacts.

Variable py_hash : string -> Z.
Variable md5 : string -> Z.

Lemma step_inv (wd wd' : World) (ev : event) :
  Inv wd -> step py_hash md5 wd ev wd' -> Inv wd'.
Proof.
  intros I H. destruct H as [wd item count r wd' H|wd d wd' H|wd m' H].
  - eapply update_inv; eauto.
  - eapply heavyHitters_inv; eauto.
  - now apply inv_frame.
Qed.

Lemma step_params (wd wd' : World) (ev : event) :
  Inv wd -> step py_hash md5 wd ev wd' ->
  _w (sk wd') = _w (sk wd) /\ _d (sk wd') = _d (sk wd)
  /\ _k (sk wd') = _k (sk wd) /\ _top_k (sk wd') = _top_k (sk wd).
Proof.
  intros I H. destruct H as [wd item count r wd' H|wd d wd' H|wd m' H].
  - eapply update_params; eauto.
  - destruct (heavyHitters_spec _ _ _ I H) as (-> & _). auto.
  - simpl. auto.
Qed.

Lemma steps_inv (wd wd' : World) (evs : list event) :
  Inv wd -> steps py_hash md5 wd evs wd' ->
  Inv wd' /\ _w (sk wd') = _w (sk wd) /\ _d (sk wd') = _d (sk wd)
  /\ _k (sk wd') = _k (sk wd).
Proof.
  intros I H. induction H as [wd|wd ev wd1 evs wd2 Hs _ IH]; auto.
  destruct (step_params _ _ _ I Hs) as (Hw & Hd & Hk & _).
  destruct (IH (step_inv _ _ _ I Hs)) as (I2 & Hw2 & Hd2 & Hk2).
  split; [assumption|]. repeat split; congruence.
Qed.

Lemma reachable_inv (w d k : Z) (wd : World) :
  reachable py_hash md5 w d k wd ->
  Inv wd /\ _w (sk wd) = w /\ _d (sk wd) = d /\ _k (sk wd) = k.
Proof.
  intros (m & wd0 & evs & Hc & Hs).
  destruct (construct_inv _ _ _ _ _ Hc) as (I0 & Hw & Hd & Hk & _).
  destruct (steps_inv _ _ _ I0 Hs) as (I & Hw' & Hd' & Hk').
  split; [assumption|]. repeat split; congruence.
Qed.

End RunFacts.

(** ** Estimates *)

Section EstimateFacts.

Variable py_hash : string -> Z.
Variable md5 : string -> Z.

Lemma hash_params (s s' : CountMinSketch) (x : string) :
  _w s' = _w s -> _d s' = _d s ->
  _hash py_hash md5 s' x = _hash py_hash md5 s x.
Proof. unfold _hash. now intros -> ->. Qed.

(** The counters read for [x]. *)
Lemma counters_ok (wd : World) (x : string) :
  Inv wd -> 0 < _w (sk wd) ->
  exists vs,
    estimate_values (_tables (sk wd)) (_hash py_hash md5 (sk wd) x) = Ok vs
    /\ length vs = Z.to_nat (_d (sk wd)).
Proof.
  intros I Hw.
  destruct (estimate_values_ok (Z.to_nat (_w (sk wd))) (_tables (sk wd))
              (_hash py_hash md5 (sk wd) x)) as (vs & Hvs & Hl).
  - apply I.
  - now apply hash_columns.
  - rewrite hash_length. symmetry. apply I.
  - exists vs. split; auto. rewrite Hl. apply I.
Qed.

Lemma Forall2_le_refl (l : list Z) : Forall2 Z.le l l.
Proof. induction l; constructor; auto; lia. Qed.

(** What one call of [update] does to the counters read for [x]. *)
Lemma update_counters (wd wd' : World) (item x : string) (count : Z)
    (r : result unit) (vs : list Z) :
  Inv wd -> 0 < _w (sk wd) ->
  update py_hash md5 wd item count = (r, wd') ->
  estimate_values (_tables (sk wd)) (_hash py_hash md5 (sk wd) x) = Ok vs ->
  exists vs',
    estimate_values (_tables (sk wd')) (_hash py_hash md5 (sk wd') x)
    = Ok vs'
    /\ Forall2 Z.le vs vs'
    /\ (is_ok r = true -> 0 <= count
        /\ (item = x -> vs' = map (fun v => v + count) vs)).
Proof.
  intros I Hw H Hvs.
  pose proof (update_params _ _ _ _ _ _ _ H) as (Hw' & Hd' & _).
  rewrite (hash_params _ _ x Hw' Hd').
  apply update_cases in H
    as [(_ & -> & ->)|(Hc & r1 & tables & Hadd & H)].
  { exists vs. split; auto. split; [apply Forall2_le_refl|discriminate]. }
  simpl in H.
  assert (Hcols : forall y, Forall (column (Z.to_nat (_w (sk wd))))
                              (_hash py_hash md5 (sk wd) y))
    by (intros y; now apply hash_columns).
  destruct (add_count_monotone _ _ _ _ _ _ _ _ Hc Hadd (inv_rows _ I)
              (Hcols item) (Hcols x) Hvs) as (vs' & Hvs' & Hle).
  assert (Ht : _tables (sk wd') = tables
               /\ (is_ok r = true -> r1 = Ok tt)).
  { destruct r1 as [[]|e].
    - apply update_heap_tables in H. simpl in H. intuition.
    - destruct H as [-> ->]. simpl. split; auto. discriminate. }
  destruct Ht as [-> Hr1].
  exists vs'. split; auto. split; auto.
  intros Hr. split; auto. intros <-.
  rewrite (Hr1 Hr) in Hadd.
  rewrite (add_count_exact _ _ _ _ _ _ Hadd (inv_rows _ I) (Hcols item)
             ltac:(rewrite hash_length; symmetry; apply I) Hvs) in Hvs'.
  congruence.
Qed.

(** Along a run the counters read for [x] grow by at least the weight
    applied to [x]. *)
Lemma steps_counters (wd wd' : World) (evs : list event) (x : string) :
  steps py_hash md5 wd evs wd' -> Inv wd -> 0 < _w (sk wd) ->
  forall b vs,
  estimate_values (_tables (sk wd)) (_hash py_hash md5 (sk wd) x) = Ok vs ->
  Forall (fun v => b <= v) vs ->
  exists vs',
    estimate_values (_tables (sk wd')) (_hash py_hash md5 (sk wd') x)
    = Ok vs'
    /\ length vs' = length vs
    /\ Forall (fun v => b + applied x evs <= v) vs'.
Proof.
  induction 1 as [wd|wd ev wd1 evs wd2 Hs Hss IH]; intros I Hw b vs Hvs Hb.
  - exists vs. simpl. split; auto. split; auto.
    eapply Forall_impl; [|exact Hb]. simpl. lia.
  - pose proof (step_inv _ _ _ _ _ I Hs) as I1.
    pose proof (step_params _ _ _ _ _ I Hs) as (Hw1 & _).
    assert (Hstep : exists vs1,
              estimate_values (_tables (sk wd1))
                (_hash py_hash md5 (sk wd1) x) = Ok vs1
              /\ length vs1 = length vs
              /\ Forall (fun v => b + (applied x (ev :: evs)
                                       - applied x evs) <= v) vs1).
    { destruct Hs as [wd item count r wd1 H|wd dd wd1 H|wd m' H].
      - destruct (update_counters _ _ _ x _ _ _ I Hw H Hvs)
          as (vs1 & Hvs1 & Hle & Hok).
        exists vs1. split; auto.
        split; [symmetry; eapply Forall2_length; eauto|].
        destruct r as [[]|e]; simpl.
        + destruct (Hok eq_refl) as [Hc Hx].
          destruct (String.eqb_spec item x) as [E|E].
          * rewrite (Hx E). apply Forall_forall. intros v Hv.
            apply in_map_iff in Hv as (v0 & <- & Hv0).
            pose proof (proj1 (Forall_forall _ _) Hb _ Hv0) as Hbv.
            simpl in Hbv. lia.
          * clear - Hb Hle. induction Hle; inversion Hb; subst;
              constructor; auto; lia.
        + clear - Hb Hle. induction Hle; inversion Hb; subst;
            constructor; auto; lia.
      - destruct (heavyHitters_spec _ _ _ I H) as (Hsk & _).
        rewrite Hsk. exists vs. simpl. split; auto. split; auto.
        eapply Forall_impl; [|exact Hb]. simpl. lia.
      - exists vs. simpl. split; auto. split; auto.
        eapply Forall_impl; [|exact Hb]. simpl. lia. }
    destruct Hstep as (vs1 & Hvs1 & Hl1 & Hb1).
    destruct (IH I1 ltac:(lia) _ _ Hvs1 Hb1) as (vs' & Hvs' & Hl' & Hb').
    exists vs'. split; auto. split; [congruence|].
    eapply Forall_impl; [|exact Hb']. simpl. lia.
Qed.

Lemma estimate_values_zero (w : Z) (rows : list nat)
    (idxs : list (result Z)) (vs : list Z) :
  estimate_values (map (fun _ => map (fun _ => 0) (range w)) rows) idxs
  = Ok vs ->
  Forall (fun v => 0 <= v) vs.
Proof.
  revert idxs vs. induction rows as [|i rows IH]; intros idxs vs; simpl.
  - intros [= <-]. constructor.
  - destruct idxs as [|[idx|e] rest]; simpl; try discriminate.
    + intros [= <-]. constructor.
    + unfold PyArray.getitem.
      destruct (PyArray.index _ idx) as [j|]; simpl; [|discriminate].
      destruct (estimate_values _ rest) as [vs0|] eqn:E; simpl;
        [|discriminate].
      intros [= <-]. constructor; [|eapply IH; eauto].
      destruct (nth_in_or_default j (map (fun _ : nat => 0) (range w)) 0)
        as [Hin | ->]; [|lia].
      apply in_map_iff in Hin as (? & <- & _). lia.
Qed.

End EstimateFacts.

(** ** Runs of [update] calls *)

Section CallFacts.

Variable py_hash : string -> Z.
Variable md5 : string -> Z.

Lemma run_events_steps (calls : list (string * Z)) :
  forall wd evs wd',
  run_events py_hash md5 wd calls = (evs, wd') ->
  steps py_hash md5 wd evs wd'.
Proof.
  induction calls as [|[item count] rest IH]; intros wd evs wd'; simpl.
  - intros [= <- <-]. constructor.
  - destruct (update py_hash md5 wd item count) as [r wd1] eqn:E.
    destruct (run_events py_hash md5 wd1 rest) as [evs1 wd2] eqn:E1.
    intros [= <- <-]. econstructor; [constructor; eassumption|eauto].
Qed.

Lemma applied_all_returned (x : string) (calls : list (string * Z)) :
  forall wd evs wd',
  run_events py_hash md5 wd calls = (evs, wd') ->
  all_returned evs = true ->
  applied x evs = true_frequency x calls.
Proof.
  induction calls as [|[item count] rest IH]; intros wd evs wd'; simpl.
  - intros [= <- <-]. reflexivity.
  - destruct (update py_hash md5 wd item count) as [r wd1] eqn:E.
    destruct (run_events py_hash md5 wd1 rest) as [evs1 wd2] eqn:E1.
    intros [= <- <-]. simpl. destruct r as [[]|e]; simpl; [|discriminate].
    intros Hall. now rewrite (IH _ _ _ E1 Hall).
Qed.

(** In every run from a new sketch of positive width and depth, the
    estimate of an item is defined and at least the weight applied to it. *)
Lemma estimate_not_below_applied (m : Memory) (w d k : Z)
    (wd0 wd : World) (evs : list event) (x : string) :
  0 < w -> 0 < d -> construct m w d k = Ok wd0 ->
  steps py_hash md5 wd0 evs wd ->
  exists e, estimate py_hash md5 wd x = Ok e /\ applied x evs <= e.
Proof.
  intros Hw Hd Hc Hs.
  destruct (construct_inv _ _ _ _ _ Hc)
    as (I0 & Hw0 & Hd0 & _ & _ & _ & _ & Ht0).
  destruct (counters_ok py_hash md5 wd0 x I0 ltac:(lia)) as (vs0 & Hvs0 & Hl0).
  assert (Hz : Forall (fun v => 0 <= v) vs0).
  { rewrite Ht0 in Hvs0. eapply estimate_values_zero; eauto. }
  destruct (steps_counters _ _ _ _ _ x Hs I0 ltac:(lia) 0 vs0 Hvs0 Hz)
    as (vs & Hvs & Hl & Hb).
  unfold estimate. rewrite Hvs. simpl.
  apply py_min_lower; [|exact Hb].
  intros ->. simpl in Hl. rewrite <- Hl in Hl0. simpl in Hl0. lia.
Qed.

End CallFacts.

(** C3, as the code has it: on a sketch built with positive width and
    depth, after any sequence of [update] calls, the estimate of every item
    is at least the sum of the weights of the calls for that item that
    returned; when every call of the sequence returned, that is the sum of
    all the weights passed with the item.  A call that raises adds nothing
    to the bound. *)
Theorem no_underestimate (py_hash md5 : string -> Z) (m : Memory)
    (w d k : Z) (wd0 wd : World) (calls : list (string * Z))
    (evs : list event) (x : string) :
  0 < w -> 0 < d -> construct m w d k = Ok wd0 ->
  run_events py_hash md5 wd0 calls = (evs, wd) ->
  exists e, estimate py_hash md5 wd x = Ok e
            /\ applied x evs <= e
            /\ (all_returned evs = true -> true_frequency x calls <= e).
Proof.
  intros Hw Hd Hc Hrun.
  pose proof (run_events_steps py_hash md5 calls _ _ _ Hrun) as Hs.
  destruct (estimate_not_below_applied py_hash md5 m w d k wd0 wd evs x
              Hw Hd Hc Hs) as (e & He & Hle).
  exists e. split; [assumption|]. split; [assumption|].
  intros Hall.
  now rewrite <- (applied_all_returned py_hash md5 x calls _ _ _ Hrun Hall).
Qed.

Lemma no_underestimate_witness :
  exists e, estimate sample_hash sample_digest sample_world "a" = Ok e
            /\ applied "a" sample_events <= e
            /\ true_frequency "a" sample_calls <= e.
Proof.
  destruct (no_underestimate sample_hash sample_digest empty_memory 4 2 2
              sample_start sample_world sample_calls sample_events "a")
    as (e & He & Ha & Hall).
  - lia.
  - lia.
  - reflexivity.
  - reflexivity.
  - exists e. split; [exact He|]. split; [exact Ha|].
    apply Hall. reflexivity.
Defined.

(** C3 fails as stated: the weight [2 ^ 63] is not negative, yet
    [update("a", 2 ^ 63)] on a new sketch of width 4 and depth 2 raises
    OverflowError at the first counter, and the estimate of ["a"] is then
    0, below the weight passed with ["a"]. *)
Lemma underestimate_after_overflow :
  0 < 4 /\ 0 < 2
  /\ construct empty_memory 4 2 2 = Ok sample_start
  /\ Forall (fun c => 0 <= snd c) [("a"%string, 2 ^ 63)]
  /\ fst (run_events sample_hash sample_digest sample_start
            [("a"%string, 2 ^ 63)])
     = [EvUpdate "a" (2 ^ 63) (Raise OverflowError)]
  /\ estimate sample_hash sample_digest
       (snd (run_events sample_hash sample_digest sample_start
               [("a"%string, 2 ^ 63)])) "a" = Ok 0
  /\ true_frequency "a" [("a"%string, 2 ^ 63)] = 2 ^ 63
  /\ ~ (exists e,
          estimate sample_hash sample_digest
            (snd (run_events sample_hash sample_digest sample_start
                    [("a"%string, 2 ^ 63)])) "a" = Ok e
          /\ true_frequency "a" [("a"%string, 2 ^ 63)] <= e).
Proof.
  assert (E : estimate sample_hash sample_digest
                (snd (run_events sample_hash sample_digest sample_start
                        [("a"%string, 2 ^ 63)])) "a" = Ok 0)
    by (vm_compute; reflexivity).
  assert (F : true_frequency "a" [("a"%string, 2 ^ 63)] = 2 ^ 63)
    by (vm_compute; reflexivity).
  split; [lia|]. split; [lia|]. split; [reflexivity|].
  split; [repeat constructor; simpl; lia|].
  split; [vm_compute; reflexivity|].
  split; [exact E|]. split; [exact F|].
  intros (e & He & Hle). rewrite E in He. injection He as <-.
  rewrite F in Hle. lia.
Qed.

(** C4: on a reachable state of a sketch of positive width and depth, an
    [update] call that returns never lowers the estimate of any item,
    whether it is the item updated or another one. *)
Theorem update_never_lowers_estimate (py_hash md5 : string -> Z)
    (w d k : Z) (wd wd' : World) (item x : string) (count : Z) :
  0 < w -> 0 < d -> reachable py_hash md5 w d k wd ->
  update py_hash md5 wd item count = (Ok tt, wd') ->
  exists e e', estimate py_hash md5 wd x = Ok e
               /\ estimate py_hash md5 wd' x = Ok e' /\ e <= e'.
Proof.
  intros Hw Hd Hr Hu.
  destruct (reachable_inv _ _ _ _ _ _ Hr) as (I & Hw0 & Hd0 & _).
  destruct (counters_ok py_hash md5 wd x I ltac:(lia)) as (vs & Hvs & Hl).
  destruct (update_counters _ _ _ _ _ x _ _ _ I ltac:(lia) Hu Hvs)
    as (vs' & Hvs' & Hle & _).
  destruct (py_min_lower vs (fold_left Z.min vs 0)) as (e & He & _).
  { intros ->. simpl in Hl. lia. }
  { clear. assert (H : forall l a, Forall (fun v => fold_left Z.min l a <= v) l
                                   /\ fold_left Z.min l a <= a).
    { induction l as [|b l IH]; intros a; simpl; [split; [constructor|lia]|].
      destruct (IH (Z.min a b)) as [H1 H2]. split; [|lia].
      constructor; auto. lia. }
    apply H. }
  destruct (py_min_monotone _ _ _ Hle He) as (e' & He' & Hee).
  exists e, e'. unfold estimate. rewrite Hvs, Hvs'. simpl. auto.
Qed.

Lemma sample_reachable :
  reachable sample_hash sample_digest 4 2 2 sample_world.
Proof.
  exists empty_memory, sample_start, sample_events.
  split; [reflexivity|].
  apply (run_events_steps _ _ sample_calls). reflexivity.
Defined.

Lemma update_never_lowers_estimate_witness :
  exists e e',
    estimate sample_hash sample_digest sample_world "a" = Ok e
    /\ estimate sample_hash sample_digest
         (snd (update sample_hash sample_digest sample_world "c" 9)) "a"
       = Ok e'
    /\ e <= e'.
Proof.
  apply (update_never_lowers_estimate sample_hash sample_digest 4 2 2
           sample_world _ "c" "a" 9).
  - lia.
  - lia.
  - exact sample_reachable.
  - reflexivity.
Defined.

(** ** The tracker *)

Lemma view_length (m : Memory) (d : nat) :
  length (view m d) = length (dict_cells m d).
Proof. unfold view. apply length_map. Qed.

Lemma entries_length (wd : World) :
  Inv wd -> length (entries wd) = length (_heap (sk wd)).
Proof.
  intros I. rewrite <- (Permutation_length (inv_same _ I)).
  now rewrite length_map.
Qed.

(** C8: in every reachable state of a sketch built with a capacity
    [k >= 0], the heap and the reverse index hold at most [k] entries, and
    so does the dictionary returned by [heavyHitters]. *)
Theorem heavy_hitters_bounded (py_hash md5 : string -> Z) (w d k : Z)
    (wd : World) :
  0 <= k -> reachable py_hash md5 w d k wd ->
  Z.of_nat (length (_heap (sk wd))) <= k
  /\ Z.of_nat (length (entries wd)) <= k
  /\ forall snap wd', heavyHitters wd = (snap, wd') ->
       Z.of_nat (length (dict_cells (mem wd') snap)) <= k.
Proof.
  intros Hk Hr.
  destruct (reachable_inv _ _ _ _ _ _ Hr) as (I & _ & _ & Hk0).
  pose proof (inv_capacity _ I) as Hcap. rewrite Hk0 in Hcap.
  specialize (Hcap Hk).
  split; [assumption|]. split.
  - now rewrite entries_length.
  - intros snap wd' H.
    destruct (heavyHitters_spec _ _ _ I H) as (_ & _ & _ & Hview & _).
    rewrite <- view_length, Hview, view_length.
    fold (entries wd). now rewrite entries_length.
Qed.

Lemma heavy_hitters_bounded_witness :
  Z.of_nat (length (_heap (sk sample_world))) <= 2
  /\ Z.of_nat (length (entries sample_world)) <= 2
  /\ forall snap wd', heavyHitters sample_world = (snap, wd') ->
       Z.of_nat (length (dict_cells (mem wd') snap)) <= 2.
Proof.
  apply (heavy_hitters_bounded sample_hash sample_digest 4 2 2).
  - lia.
  - exact sample_reachable.
Defined.

(** C10: in every reachable state the heap and the reverse index hold the
    same entries: the item of every list in the heap is a key that maps to
    that very list, every key maps to a list of the heap that carries the
    key, the two have the same size, and the items in the heap are the
    keys. *)
Theorem heap_matches_reverse_index (py_hash md5 : string -> Z) (w d k : Z)
    (wd : World) :
  reachable py_hash md5 w d k wd ->
  (forall a, In a (_heap (sk wd)) ->
     dict_get (entries wd) (snd (pair_cells (mem wd) a)) = Some a)
  /\ (forall key a, dict_get (entries wd) key = Some a ->
        In a (_heap (sk wd)) /\ snd (pair_cells (mem wd) a) = key)
  /\ length (_heap (sk wd)) = length (entries wd)
  /\ Permutation (map (fun a => snd (pair_cells (mem wd) a)) (_heap (sk wd)))
       (map fst (entries wd)).
Proof.
  intros Hr. destruct (reachable_inv _ _ _ _ _ _ Hr) as (I & _).
  split; [|split; [|split]].
  - intros a Ha. now apply inv_entry_of_heap.
  - intros key a Hk. now apply inv_heap_of_entry.
  - symmetry. now apply entries_length.
  - rewrite <- (inv_same _ I). rewrite map_map.
    assert (E : map (fun e => snd (pair_cells (mem wd) (snd e))) (entries wd)
                = map fst (entries wd)).
    { apply map_ext_in. intros e He.
      exact (proj1 (Forall_forall _ _) (inv_items _ I) e He). }
    now rewrite E.
Qed.

Lemma heap_matches_reverse_index_witness :
  (forall a, In a (_heap (sk sample_world)) ->
     dict_get (entries sample_world)
       (snd (pair_cells (mem sample_world) a)) = Some a)
  /\ (forall key a, dict_get (entries sample_world) key = Some a ->
        In a (_heap (sk sample_world))
        /\ snd (pair_cells (mem sample_world) a) = key)
  /\ length (_heap (sk sample_world)) = length (entries sample_world)
  /\ Permutation
       (map (fun a => snd (pair_cells (mem sample_world) a))
          (_heap (sk sample_world)))
       (map fst (entries sample_world)).
Proof.
  exact (heap_matches_reverse_index sample_hash sample_digest 4 2 2
           sample_world sample_reachable).
Defined.

(** ** Eviction *)

Lemma dict_get_not_in (es : list (string * nat)) (k : string) :
  ~ In k (map fst es) -> dict_get es k = None.
Proof.
  induction es as [|[k' v] es IH]; simpl; auto.
  intros H. destruct (String.eqb_spec k' k) as [->|]; [tauto|].
  apply IH. tauto.
Qed.

Lemma fold_min_root (t : list Z) (x : Z) :
  Forall (fun v => x <= v) t -> fold_left Z.min t x = x.
Proof.
  induction t as [|a t IH]; simpl; auto.
  intros H. inversion H; subst. rewrite Z.min_l by assumption. auto.
Qed.

(** The first list of the heap carries the smallest stored estimate. *)
Lemma min_tracked_root (wd : World) (heap0 : nat) (rest : list nat) :
  Inv wd -> _heap (sk wd) = heap0 :: rest ->
  min_tracked wd = Ok (fst (pair_cells (mem wd) heap0)).
Proof.
  intros I Hheap. unfold min_tracked. rewrite Hheap. simpl. f_equal.
  apply fold_min_root. apply Forall_forall. intros v Hv.
  apply in_map_iff in Hv as (a & <- & Ha).
  apply In_nth_error in Ha as [i Hi].
  apply list_lt_false_estimate.
  apply (heap_root_min (lt_at (mem wd)) (lt_at_asym _) (lt_at_negtrans _)
           (_heap (sk wd)) heap0 (inv_heap_ok _ I)
           ltac:(now rewrite Hheap) (S i)).
  now rewrite Hheap.
Qed.

(** C6: an [update] that returns, for an item that is not tracked, on a
    tracker that holds exactly [k] lists.  If the item's fresh estimate is
    above the smallest stored estimate, the list with that smallest
    estimate leaves the heap and its item leaves the reverse index, and the
    new list enters both; otherwise heap and reverse index are as before. *)
Theorem full_tracker_replaces_minimum (py_hash md5 : string -> Z)
    (w d k : Z) (wd wd' : World) (item : string) (count : Z) :
  reachable py_hash md5 w d k wd ->
  dict_get (entries wd) item = None ->
  Z.of_nat (length (_heap (sk wd))) = k ->
  update py_hash md5 wd item count = (Ok tt, wd') ->
  exists est low,
    estimate py_hash md5 wd' item = Ok est
    /\ min_tracked wd = Ok low
    /\ (low < est ->
        exists victim rest,
          Permutation (_heap (sk wd)) (victim :: rest)
          /\ fst (pair_cells (mem wd) victim) = low
          /\ let new := next_pair (mem wd) in
             let gone := snd (pair_cells (mem wd) victim) in
             Permutation (_heap (sk wd')) (new :: rest)
             /\ entries wd' = dict_remove (entries wd) gone ++ [(item, new)]
             /\ pair_cells (mem wd') new = (est, item)
             /\ ~ In victim (_heap (sk wd'))
             /\ dict_get (entries wd') gone = None
             /\ dict_get (entries wd') item = Some new)
    /\ (est <= low ->
        _heap (sk wd') = _heap (sk wd)
        /\ entries wd' = entries wd
        /\ view (mem wd') (_top_k (sk wd'))
           = view (mem wd) (_top_k (sk wd))).
Proof.
  intros Hr Hget Hfull Hu.
  destruct (reachable_inv _ _ _ _ _ _ Hr) as (I & _ & _ & Hk).
  pose proof (update_inv _ _ _ _ _ _ _ I Hu) as I'.
  apply update_cases in Hu
    as [(_ & [=] & _)|(Hc & r1 & tables & Hadd & Hu)].
  simpl in Hu. destruct r1 as [[]|e]; [|destruct Hu; discriminate].
  destruct (add_count_shape _ _ _ _ _ _ Hadd (inv_rows _ I)) as [Hl Hs].
  pose proof (inv_tables_update wd (_n (sk wd) + count) tables I Hl Hs)
    as I1.
  set (wd1 := mkWorld (mem wd)
                (with_tables (with_n (sk wd) (_n (sk wd) + count)) tables))
    in *.
  assert (Hest : estimate py_hash md5 wd' item
                 = estimate py_hash md5 wd1 item).
  { destruct (update_heap_tables _ _ _ _ _ _ Hu) as (Ht & Hw & Hd & _).
    unfold estimate. now rewrite Ht, (hash_params _ _ _ _ item Hw Hd). }
  destruct (update_heap_cases _ _ _ _ _ _ I1 Hu)
    as [(e & _ & [=] & _)|(est & Eest & Hcases)].
  change (entries wd1) with (entries wd) in Hcases.
  change (_heap (sk wd1)) with (_heap (sk wd)) in Hcases.
  change (_k (sk wd1)) with (_k (sk wd)) in Hcases.
  change (_top_k (sk wd1)) with (_top_k (sk wd)) in Hcases.
  change (mem wd1) with (mem wd) in Hcases.
  cbv zeta in Hcases. rewrite Hest, Eest. exists est.
  destruct Hcases as [(a & Hget' & _)
                     |[(_ & Hroom & _)
                      |[(_ & _ & _ & [=] & _)
                       |[(_ & _ & h0 & rest & Hheap & Hle & _ & Hwd')
                        |(_ & _ & h0 & rest & Hheap & Hlt & _ & Hwd')]]]];
    [congruence|lia| |].
  - (* the estimate does not exceed the minimum: nothing is replaced *)
    assert (Hown : forall a, owns_pair wd a ->
              pair_cells (snd (new_pair (mem wd) (est, item))) a
              = pair_cells (mem wd) a).
    { intros a Ha. pose proof (inv_owned_allocated _ _ I Ha). simpl.
      destruct (Nat.eqb_spec a (next_pair (mem wd))); [lia|reflexivity]. }
    rewrite Hown in Hle by (left; rewrite Hheap; now left).
    exists (fst (pair_cells (mem wd) h0)).
    split; [reflexivity|]. split; [now apply (min_tracked_root wd h0 rest)|].
    split; [lia|]. intros _. subst wd'. simpl.
    split; [reflexivity|]. split; [reflexivity|].
    unfold view. simpl. apply map_ext_in. intros e He.
    pose proof (inv_owned_allocated wd (snd e) I
                  (or_intror (in_map snd _ _ He))) as Ha.
    destruct (Nat.eqb_spec (snd e) (next_pair (mem wd))); [lia|reflexivity].
  - (* the estimate exceeds the minimum: the first list is replaced *)
    destruct (evict_root wd1 item est h0 rest I1 Hheap Hlt)
      as (Hcell & _ & _).
    change (mem wd1) with (mem wd) in Hcell.
    rewrite Hcell in Hlt, Hwd'.
    exists (fst (pair_cells (mem wd) h0)).
    split; [reflexivity|]. split; [now apply (min_tracked_root wd h0 rest)|].
    split; [|lia]. intros _. exists h0, rest.
    split; [now rewrite Hheap|]. split; [reflexivity|]. cbv zeta.
    set (gone := snd (pair_cells (mem wd) h0)) in *.
    set (new := next_pair (mem wd)) in *.
    assert (Hin : In h0 (_heap (sk wd))) by (rewrite Hheap; now left).
    assert (Hkey : dict_get (entries wd) gone = Some h0)
      by now apply inv_entry_of_heap.
    assert (Hne : item <> gone) by (intros E; congruence).
    assert (Hget1 : dict_get (dict_remove (entries wd) gone) item = None).
    { rewrite dict_remove_get_other by congruence. assumption. }
    assert (Hentries : entries wd'
                       = dict_remove (entries wd) gone ++ [(item, new)]).
    { subst wd'. unfold entries. simpl. rewrite Nat.eqb_refl.
      now apply dict_set_fresh. }
    assert (Hheap' : Permutation (_heap (sk wd')) (new :: rest)).
    { subst wd'. simpl. apply siftup_perm. }
    assert (Hnew : pair_cells (mem wd') new = (est, item)).
    { subst wd'. simpl. unfold new. now rewrite Nat.eqb_refl. }
    assert (Hkeys : NoDup (gone :: map fst (dict_remove (entries wd) gone))).
    { apply (Permutation_NoDup
               (Permutation_map fst (dict_remove_perm _ _ _ Hkey))).
      apply I. }
    repeat split; auto.
    + intros Hv. apply (Permutation_in _ Hheap') in Hv as [Hv|Hv].
      * pose proof (inv_owned_allocated wd h0 I (or_introl Hin)).
        unfold new in Hv. lia.
      * pose proof (inv_heap_nodup _ I) as Hnd. rewrite Hheap in Hnd.
        inversion Hnd; subst. contradiction.
    + rewrite Hentries. apply dict_get_not_in. rewrite map_app. simpl.
      intros Hg. apply in_app_or in Hg as [Hg|[Hg|[]]].
      * inversion Hkeys; subst. contradiction.
      * congruence.
    + apply dict_get_in; [apply I'|]. rewrite Hentries.
      apply in_or_app. right. now left.
Qed.

Lemma full_tracker_replaces_minimum_witness :
  exists est low,
    estimate sample_hash sample_digest
      (snd (update sample_hash sample_digest sample_world "c" 9)) "c"
    = Ok est
    /\ min_tracked sample_world = Ok low
    /\ (low < est ->
        exists victim rest,
          Permutation (_heap (sk sample_world)) (victim :: rest)
          /\ fst (pair_cells (mem sample_world) victim) = low
          /\ let new := next_pair (mem sample_world) in
             let gone := snd (pair_cells (mem sample_world) victim) in
             let wd' :=
               snd (update sample_hash sample_digest sample_world "c" 9) in
             Permutation (_heap (sk wd')) (new :: rest)
             /\ entries wd' = dict_remove (entries sample_world) gone
                                ++ [(String "c" EmptyString, new)]
             /\ pair_cells (mem wd') new = (est, String "c" EmptyString)
             /\ ~ In victim (_heap (sk wd'))
             /\ dict_get (entries wd') gone = None
             /\ dict_get (entries wd') "c" = Some new)
    /\ (est <= low ->
        let wd' :=
          snd (update sample_hash sample_digest sample_world "c" 9) in
        _heap (sk wd') = _heap (sk sample_world)
        /\ entries wd' = entries sample_world
        /\ view (mem wd') (_top_k (sk wd'))
           = view (mem sample_world) (_top_k (sk sample_world))).
Proof.
  apply (full_tracker_replaces_minimum sample_hash sample_digest 4 2 2
           sample_world _ "c" 9).
  - exact sample_reachable.
  - reflexivity.
  - reflexivity.
  - reflexivity.
Defined.

(** ** The heap functions only look at the elements they are given *)

Section HeapqSame.

Context {A : Type}.
Variables lt1 lt2 : A -> A -> bool.
Variable P : A -> Prop.
Hypothesis lt_same : forall a b, P a -> P b -> lt1 a b = lt2 a b.

Lemma set_nth_Forall (l : list A) (i : nat) (x : A) :
  Forall P l -> P x -> Forall P (heapq.set_nth l i x).
Proof.
  intros Hl Hx. revert i.
  induction Hl as [|a l Ha Hl IH]; intros [|i]; simpl; auto.
Qed.

Lemma nth_Forall (l : list A) (i : nat) (x : A) :
  Forall P l -> P x -> P (nth i l x).
Proof.
  intros Hl Hx. destruct (nth_in_or_default i l x) as [H | ->]; auto.
  exact (proj1 (Forall_forall _ _) Hl _ H).
Qed.

Lemma siftdown_loop_same (fuel : nat) :
  forall (heap : list A) (startpos pos : nat) (x : A),
    Forall P heap -> P x ->
    heapq.siftdown_loop lt1 fuel heap startpos pos x
    = heapq.siftdown_loop lt2 fuel heap startpos pos x.
Proof.
  induction fuel as [|fuel IH]; intros heap startpos pos x Hh Hx;
    cbn [heapq.siftdown_loop]; [reflexivity|].
  destruct (startpos <? pos)%nat; [|reflexivity].
  rewrite (lt_same x (nth ((pos - 1) / 2) heap x))
    by auto using nth_Forall.
  destruct (lt2 x (nth ((pos - 1) / 2) heap x)); [|reflexivity].
  apply IH; auto using set_nth_Forall, nth_Forall.
Qed.

Lemma siftdown_same (heap : list A) (startpos pos : nat) :
  Forall P heap ->
  heapq._siftdown lt1 heap startpos pos = heapq._siftdown lt2 heap startpos pos.
Proof.
  intros Hh. unfold heapq._siftdown.
  destruct (nth_error heap pos) as [x|] eqn:E; [|reflexivity].
  apply siftdown_loop_same; auto.
  exact (proj1 (Forall_forall _ _) Hh _ (nth_error_In _ _ E)).
Qed.

Lemma siftup_loop_same (fuel : nat) :
  forall (heap : list A) (endpos pos : nat) (x : A),
    Forall P heap -> P x ->
    heapq.siftup_loop lt1 fuel heap endpos pos x
    = heapq.siftup_loop lt2 fuel heap endpos pos x.
Proof.
  induction fuel as [|fuel IH]; intros heap endpos pos x Hh Hx;
    cbn [heapq.siftup_loop]; [reflexivity|].
  destruct (2 * pos + 1 <? endpos)%nat; [|reflexivity].
  rewrite (lt_same (nth (2 * pos + 1) heap x) (nth (2 * pos + 1 + 1) heap x))
    by auto using nth_Forall.
  apply IH; auto using set_nth_Forall, nth_Forall.
Qed.

Lemma siftup_same (heap : list A) (pos : nat) :
  Forall P heap -> heapq._siftup lt1 heap pos = heapq._siftup lt2 heap pos.
Proof.
  intros Hh. unfold heapq._siftup.
  destruct (nth_error heap pos) as [x|] eqn:E; [|reflexivity].
  assert (Hx : P x)
    by exact (proj1 (Forall_forall _ _) Hh _ (nth_error_In _ _ E)).
  assert (Hpos : (pos < length heap)%nat)
    by (apply nth_error_Some; congruence).
  rewrite (siftup_loop_same _ heap _ pos x Hh Hx).
  destruct (heapq.siftup_loop lt2 (length heap) heap (length heap) pos x)
    as [heap1 pos1] eqn:El.
  apply siftdown_same.
  destruct (siftup_loop_perm lt2 x _ heap pos heap1 pos1 Hpos El)
    as [_ Hperm].
  apply (Permutation_Forall (Permutation_sym Hperm)).
  now apply set_nth_Forall.
Qed.

Lemma heappush_same (heap : list A) (item : A) :
  Forall P heap -> P item ->
  heapq.heappush lt1 heap item = heapq.heappush lt2 heap item.
Proof.
  intros Hh Hx. unfold heapq.heappush. apply siftdown_same.
  apply Forall_app. auto.
Qed.

Lemma heappushpop_same (heap : list A) (item : A) :
  Forall P heap -> P item ->
  heapq.heappushpop lt1 heap item = heapq.heappushpop lt2 heap item.
Proof.
  intros Hh Hx. unfold heapq.heappushpop.
  destruct heap as [|top rest]; [reflexivity|].
  inversion Hh as [|? ? Htop Hrest]; subst.
  rewrite (lt_same top item Htop Hx).
  destruct (lt2 top item); [|reflexivity].
  f_equal. apply siftup_same. auto.
Qed.

Lemma heapify_same (x : list A) :
  Forall P x -> heapq.heapify lt1 x = heapq.heapify lt2 x.
Proof.
  unfold heapq.heapify. generalize (rev (seq 0 (length x / 2))).
  intros l. revert x.
  induction l as [|p l IH]; intros x Hx; simpl; [reflexivity|].
  rewrite (siftup_same x p Hx). apply IH.
  exact (Permutation_Forall (Permutation_sym (siftup_perm lt2 x p)) Hx).
Qed.

End HeapqSame.

(** ** States that agree on what the sketch refers to *)

Lemma agree_refl (wd : World) : agree wd wd.
Proof. now constructor. Qed.

Lemma agree_owns (wdA wdB : World) (a : nat) :
  agree wdA wdB -> owns_pair wdB a <-> owns_pair wdA a.
Proof.
  intros H. unfold owns_pair.
  now rewrite (agree_sk _ _ H), (agree_dict _ _ H).
Qed.

Lemma agree_frame (wdA wdB : World) :
  agree wdA wdB -> frame wdA (mem wdB).
Proof.
  intros H. constructor.
  - rewrite (agree_next_pair _ _ H). lia.
  - rewrite (agree_next_dict _ _ H). lia.
  - rewrite <- (agree_dict _ _ H). unfold entries.
    now rewrite (agree_sk _ _ H).
  - apply H.
Qed.

Lemma agree_inv (wdA wdB : World) : Inv wdA -> agree wdA wdB -> Inv wdB.
Proof.
  intros I H. pose proof (inv_frame _ _ I (agree_frame _ _ H)) as I'.
  rewrite <- (agree_sk _ _ H) in I'. now destruct wdB.
Qed.

Lemma owns_heap (wd : World) (a : nat) :
  Inv wd -> owns_pair wd a -> In a (_heap (sk wd)).
Proof.
  intros I [H|H]; [assumption|].
  exact (Permutation_in _ (inv_same _ I) H).
Qed.

Lemma lt_at_same (mA mB : Memory) (P : nat -> Prop) :
  (forall a, P a -> pair_cells mB a = pair_cells mA a) ->
  forall a b, P a -> P b -> lt_at mB a b = lt_at mA a b.
Proof. intros H a b Ha Hb. unfold lt_at. now rewrite (H a), (H b). Qed.

Lemma agree_result (s : CountMinSketch) (mA mB : Memory) (hA hB : list nat) :
  Inv (mkWorld mA (with_heap s hA)) ->
  hB = hA ->
  next_pair mB = next_pair mA ->
  next_dict mB = next_dict mA ->
  dict_cells mB (_top_k s) = dict_cells mA (_top_k s) ->
  (forall a, In a hA -> pair_cells mB a = pair_cells mA a) ->
  agree (mkWorld mA (with_heap s hA)) (mkWorld mB (with_heap s hB)).
Proof.
  intros I -> Hnp Hnd Hd Hp. constructor; simpl; auto.
  intros a Ha. apply Hp. exact (owns_heap _ _ I Ha).
Qed.

Section AgreeFacts.

Variable py_hash : string -> Z.
Variable md5 : string -> Z.

Lemma agree_estimate (wdA wdB : World) (x : string) :
  agree wdA wdB -> estimate py_hash md5 wdB x = estimate py_hash md5 wdA x.
Proof. intros H. unfold estimate. now rewrite (agree_sk _ _ H). Qed.

Lemma update_heap_agree (wdA wdB wdA' : World) (item : string)
    (r : result unit) :
  Inv wdA -> agree wdA wdB ->
  _update_heap py_hash md5 wdA item = (r, wdA') ->
  exists wdB', _update_heap py_hash md5 wdB item = (r, wdB')
               /\ agree wdA' wdB'.
Proof.
  intros I H Hu.
  pose proof (agree_estimate _ _ item H) as Hest.
  pose proof (update_heap_inv _ _ _ _ _ _ I Hu) as I'.
  destruct wdA as [mA s], wdB as [mB sB].
  destruct H as [Hsk Hnp Hnd Hdict Hpairs]. unfold entries in Hdict.
  simpl in Hsk, Hnp, Hnd, Hdict, Hpairs. subst sB.
  assert (Hheap : forall a, In a (_heap s) ->
            pair_cells mB a = pair_cells mA a).
  { intros a Ha. apply Hpairs. now left. }
  destruct (update_heap_cases _ _ _ _ _ _ I Hu)
    as [(e & Ee & -> & ->)|(est & Eest & Hcases)].
  { exists (mkWorld mB s). unfold _update_heap. rewrite Hest, Ee.
    split; [reflexivity|]. now constructor. }
  pose proof (agree_inv _ _ I
                (Build_agree (mkWorld mA s) (mkWorld mB s) eq_refl Hnp Hnd
                   Hdict Hpairs)) as IB.
  unfold _update_heap at 1. rewrite Hest, Eest. cbn [mem sk].
  rewrite Hdict. unfold entries in Hcases. cbn [mem sk] in Hcases.
  change (new_pair mB (est, item))
    with (next_pair mB, snd (new_pair mB (est, item))).
  cbv beta iota zeta in Hcases. cbv beta iota zeta. rewrite Hnp.
  set (p := next_pair mA) in *.
  set (m1A := snd (new_pair mA (est, item))) in *.
  set (m1B := snd (new_pair mB (est, item))) in *.
  assert (Hc1 : forall x, In x (p :: _heap s) ->
            pair_cells m1B x = pair_cells m1A x).
  { intros x Hx. simpl. rewrite Hnp. fold p.
    destruct (Nat.eqb_spec x p) as [|Hne]; [reflexivity|].
    destruct Hx as [Hx|Hx]; [congruence|auto]. }
  assert (Hn1 : next_pair m1B = next_pair m1A) by (simpl; now rewrite Hnp).
  destruct Hcases as [(a & Hget & -> & ->)
                     |[(Hget & Hroom & -> & ->)
                      |[(Hget & Hfull & Hnil & -> & ->)
                       |[(Hget & Hfull & h0 & rest & Hh & Hle & -> & ->)
                        |(Hget & Hfull & h0 & rest & Hh & Hlt & -> & ->)]]]];
    rewrite Hget.
  - (* the item is tracked *)
    assert (Ha : In a (_heap s)).
    { apply (inv_heap_of_entry _ item a I). exact Hget. }
    rewrite (Hheap a Ha).
    eexists. split; [reflexivity|].
    assert (Hc : forall x, In x (_heap s) ->
              pair_cells (store_pair mB a (est, snd (pair_cells mA a))) x
              = pair_cells (store_pair mA a (est, snd (pair_cells mA a))) x).
    { intros x Hx. simpl. destruct (x =? a)%nat; auto. }
    apply agree_result; auto.
    + apply heapify_same with (P := fun x => In x (_heap s)).
      * now apply lt_at_same.
      * apply Forall_forall. auto.
    + intros x Hx. apply Hc.
      exact (Permutation_in _ (heapify_perm _ _) Hx).
  - (* a free place *)
    rewrite (proj2 (Z.ltb_lt _ _) Hroom).
    eexists. split; [reflexivity|].
    apply agree_result; auto.
    + apply heappush_same with (P := fun x => In x (p :: _heap s)).
      * apply lt_at_same. exact Hc1.
      * apply Forall_forall. intros x Hx. now right.
      * now left.
    + simpl. now rewrite Nat.eqb_refl.
    + intros x Hx. apply Hc1.
      exact (Permutation_in _ (heappush_perm _ _ _) Hx).
  - (* no place and an empty heap *)
    rewrite (proj2 (Z.ltb_ge _ _) Hfull), Hnil.
    eexists. split; [reflexivity|].
    constructor; simpl; auto.
    intros x Hx. apply Hc1. right. exact (owns_heap _ _ I' Hx).
  - (* the estimate does not exceed the smallest one *)
    rewrite (proj2 (Z.ltb_ge _ _) Hfull), Hh.
    rewrite (Hc1 h0) by (rewrite Hh; right; now left).
    rewrite (proj2 (Z.leb_le _ _) Hle).
    eexists. split; [reflexivity|].
    constructor; simpl; auto.
    intros x Hx. apply Hc1. right. exact (owns_heap _ _ I' Hx).
  - (* the smallest one is replaced *)
    rewrite (proj2 (Z.ltb_ge _ _) Hfull), Hh.
    assert (Hh0 : pair_cells m1B h0 = pair_cells m1A h0)
      by (apply Hc1; rewrite Hh; right; now left).
    rewrite Hh0. rewrite (proj2 (Z.leb_gt _ _) Hlt).
    destruct (evict_root (mkWorld mB s) item est h0 rest IB Hh)
      as (_ & Hpop & Hrm).
    { cbn [mem]. fold m1B. now rewrite Hh0. }
    cbn [mem] in Hpop, Hrm. fold m1B in Hpop, Hrm.
    unfold entries in Hrm. cbn [mem sk] in Hrm.
    rewrite Hnp in Hpop. fold p in Hpop. rewrite Hh0, Hdict in Hrm.
    rewrite Hpop. cbv beta iota zeta. rewrite Hh0.
    destruct (pair_cells m1A h0) as [rmv_estimate rmv_item] eqn:Ecell.
    cbn [snd] in *. rewrite Hrm.
    eexists. split; [reflexivity|].
    assert (Hc2 : forall x, In x (p :: rest) ->
              pair_cells m1B x = pair_cells m1A x).
    { intros x Hx. apply Hc1. rewrite Hh.
      destruct Hx as [Hx|Hx]; [now left|right; now right]. }
    apply agree_result; auto.
    + apply siftup_same with (P := fun x => In x (p :: rest)).
      * apply lt_at_same. exact Hc2.
      * apply Forall_forall. auto.
    + simpl. now rewrite Nat.eqb_refl.
    + intros x Hx. apply Hc2.
      exact (Permutation_in _ (siftup_perm _ _ _) Hx).
Qed.

Lemma update_unfold (wd : World) (item : string) (count : Z) :
  update py_hash md5 wd item count
  = if count <? 0 then (Raise ValueError, wd)
    else
      let '(r1, tables) :=
        add_count (_tables (sk wd)) (_hash py_hash md5 (sk wd) item) count in
      let wd1 := mkWorld (mem wd)
                   (with_tables (with_n (sk wd) (_n (sk wd) + count))
                      tables) in
      match r1 with
      | Raise e => (Raise e, wd1)
      | Ok _ => _update_heap py_hash md5 wd1 item
      end.
Proof. reflexivity. Qed.

Lemma update_agree (wdA wdB wdA' : World) (item : string) (count : Z)
    (r : result unit) :
  Inv wdA -> agree wdA wdB ->
  update py_hash md5 wdA item count = (r, wdA') ->
  exists wdB', update py_hash md5 wdB item count = (r, wdB')
               /\ agree wdA' wdB'.
Proof.
  intros I H Hu. rewrite update_unfold in Hu |- *.
  destruct (count <? 0).
  { injection Hu as <- <-. eauto. }
  rewrite (agree_sk _ _ H).
  destruct (add_count (_tables (sk wdA)) (_hash py_hash md5 (sk wdA) item)
              count) as [r1 tables] eqn:Hadd.
  cbv zeta in Hu |- *.
  destruct (add_count_shape _ _ _ _ _ _ Hadd (inv_rows _ I)) as [Hl Hs].
  pose proof (inv_tables_update wdA (_n (sk wdA) + count) tables I Hl Hs)
    as I1.
  assert (H1 : agree
                 (mkWorld (mem wdA)
                    (with_tables (with_n (sk wdA) (_n (sk wdA) + count))
                       tables))
                 (mkWorld (mem wdB)
                    (with_tables (with_n (sk wdA) (_n (sk wdA) + count))
                       tables))).
  { destruct H as [Hsk Hnp Hnd Hdict Hpairs].
    unfold entries in Hdict. rewrite Hsk in Hdict.
    constructor; auto. }
  destruct r1 as [[]|e].
  - exact (update_heap_agree _ _ _ _ _ I1 H1 Hu).
  - injection Hu as <- <-. eauto.
Qed.

End AgreeFacts.

(** ** Copies made in states that agree *)

Lemma deepcopy_entries_counters (es : list (string * nat)) :
  forall (mA mB : Memory) (memo : list (nat * nat)),
    next_pair mB = next_pair mA ->
    fst (deepcopy_entries mB memo es) = fst (deepcopy_entries mA memo es)
    /\ next_pair (snd (deepcopy_entries mB memo es))
       = next_pair (snd (deepcopy_entries mA memo es)).
Proof.
  induction es as [|[k a] es IH]; intros mA mB memo Hnp; simpl; auto.
  destruct (find (fun e => (fst e =? a)%nat) memo) as [[a0 a']|].
  - destruct (IH mA mB memo Hnp) as [Hf Hn].
    destruct (deepcopy_entries mB memo es) as [rB mB'].
    destruct (deepcopy_entries mA memo es) as [rA mA'].
    simpl in *. subst. auto.
  - rewrite Hnp.
    set (m1A := mkMemory _ _ (dict_cells mA) _).
    set (m1B := mkMemory _ _ (dict_cells mB) _).
    destruct (IH m1A m1B ((a, next_pair mA) :: memo) eq_refl) as [Hf Hn].
    destruct (deepcopy_entries m1B _ es) as [rB mB'].
    destruct (deepcopy_entries m1A _ es) as [rA mA'].
    simpl in *. subst. auto.
Qed.

Lemma deepcopy_entries_next_dict (es : list (string * nat)) :
  forall (m : Memory) (memo : list (nat * nat)),
    next_dict (snd (deepcopy_entries m memo es)) = next_dict m.
Proof.
  induction es as [|[k a] es IH]; intros m memo; simpl; auto.
  destruct (find (fun e => (fst e =? a)%nat) memo) as [[a0 a']|].
  - specialize (IH m memo).
    destruct (deepcopy_entries m memo es) as [r m']. exact IH.
  - set (m1 := mkMemory _ _ (dict_cells m) _).
    specialize (IH m1 ((a, next_pair m) :: memo)).
    destruct (deepcopy_entries m1 _ es) as [r m']. exact IH.
Qed.

Lemma deepcopy_dict_counters (mA mB : Memory) (d : nat) :
  next_pair mB = next_pair mA -> next_dict mB = next_dict mA ->
  dict_cells mB d = dict_cells mA d ->
  fst (deepcopy_dict mB d) = fst (deepcopy_dict mA d)
  /\ next_pair (snd (deepcopy_dict mB d))
     = next_pair (snd (deepcopy_dict mA d))
  /\ next_dict (snd (deepcopy_dict mB d))
     = next_dict (snd (deepcopy_dict mA d)).
Proof.
  intros Hnp Hnd Hd. unfold deepcopy_dict, new_dict. cbv beta iota zeta.
  set (m1A := mkMemory (pair_cells mA) _ _ _).
  set (m1B := mkMemory (pair_cells mB) _ _ _).
  assert (E : dict_cells m1B d = dict_cells m1A d).
  { simpl. rewrite Hnd, Hd. reflexivity. }
  rewrite E.
  destruct (deepcopy_entries_counters (dict_cells m1A d) m1A m1B []
              ltac:(exact Hnp)) as [Hf Hn].
  pose proof (deepcopy_entries_next_dict (dict_cells m1A d) m1A []) as DA.
  pose proof (deepcopy_entries_next_dict (dict_cells m1A d) m1B []) as DB.
  destruct (deepcopy_entries m1B [] (dict_cells m1A d)) as [rB mB'].
  destruct (deepcopy_entries m1A [] (dict_cells m1A d)) as [rA mA'].
  simpl in Hf, Hn, DA, DB. simpl. rewrite DA, DB, Hnd. auto.
Qed.

(** ** Snapshots *)

Lemma agree_view (wdA wdB : World) :
  agree wdA wdB ->
  view (mem wdB) (_top_k (sk wdB)) = view (mem wdA) (_top_k (sk wdA)).
Proof.
  intros H. unfold view. fold (entries wdB). fold (entries wdA).
  rewrite (agree_dict _ _ H). apply map_ext_in. intros e He.
  rewrite (agree_pairs _ _ H); [reflexivity|].
  right. now apply in_map.
Qed.

Lemma frame_owns (wd : World) (m' : Memory) (a : nat) :
  frame wd m' -> owns_pair (mkWorld m' (sk wd)) a <-> owns_pair wd a.
Proof.
  intros F. unfold owns_pair, entries. cbn [mem sk].
  now rewrite (frame_dict _ _ F).
Qed.

Lemma heavyHitters_agree (wdA wdB wdA' : World) (d : nat) :
  Inv wdA -> agree wdA wdB -> heavyHitters wdA = (d, wdA') ->
  exists wdB', heavyHitters wdB = (d, wdB')
               /\ agree wdA' wdB'
               /\ view (mem wdB') d = view (mem wdA') d.
Proof.
  intros I H HA. pose proof (agree_inv _ _ I H) as IB.
  destruct (heavyHitters wdB) as [dB wdB'] eqn:HB.
  destruct (heavyHitters_spec _ _ _ I HA) as (SA & FA & _ & VA & _).
  destruct (heavyHitters_spec _ _ _ IB HB) as (SB & FB & _ & VB & _).
  destruct (deepcopy_dict_counters (mem wdA) (mem wdB) (_top_k (sk wdA))
              (agree_next_pair _ _ H) (agree_next_dict _ _ H))
    as (Hd & Hnp & Hnd).
  { pose proof (agree_dict _ _ H) as E. unfold entries in E.
    now rewrite (agree_sk _ _ H) in E. }
  unfold heavyHitters in HA, HB. rewrite (agree_sk _ _ H) in HB.
  destruct (deepcopy_dict (mem wdA) (_top_k (sk wdA))) as [dA' mA'].
  destruct (deepcopy_dict (mem wdB) (_top_k (sk wdA))) as [dB' mB'].
  injection HA as <- <-. injection HB as <- <-.
  simpl in Hd, Hnp, Hnd, SA, SB, FA, FB, VA, VB. subst dB'.
  exists (mkWorld mB' (sk wdA)). split; [reflexivity|]. split.
  - constructor; simpl; auto.
    + unfold entries. simpl.
      rewrite (frame_dict _ _ FA).
      pose proof (frame_dict _ _ FB) as E.
      rewrite (agree_sk _ _ H) in E. rewrite E. apply H.
    + intros a Ha. apply (frame_owns wdA mA' a FA) in Ha.
      rewrite (frame_pairs _ _ FA a Ha).
      rewrite (frame_pairs _ _ FB a) by now apply (agree_owns wdA wdB).
      now apply H.
  - simpl. rewrite VA, VB. now apply agree_view.
Qed.

Section SnapshotFacts.

Variable py_hash : string -> Z.
Variable md5 : string -> Z.

Lemma step_agree (wdA wdB wdA' : World) (ev : event) :
  Inv wdA -> agree wdA wdB -> step py_hash md5 wdA ev wdA' ->
  exists wdB', step py_hash md5 wdB ev wdB' /\ agree wdA' wdB'.
Proof.
  intros I H Hs.
  destruct Hs as [wdA item count r wdA' Hu|wdA d wdA' Hh|wdA m' F].
  - destruct (update_agree _ _ _ _ _ _ _ _ I H Hu) as (wdB' & Hu' & H').
    exists wdB'. split; [now constructor|assumption].
  - destruct (heavyHitters_agree _ _ _ _ I H Hh) as (wdB' & Hh' & H' & _).
    exists wdB'. split; [now constructor|assumption].
  - exists (mkWorld m' (sk wdB)). split.
    + constructor. destruct F as [Fnp Fnd Fd Fp]. constructor.
      * rewrite (agree_next_pair _ _ H). exact Fnp.
      * rewrite (agree_next_dict _ _ H). exact Fnd.
      * rewrite (agree_sk _ _ H), (agree_dict _ _ H). exact Fd.
      * intros a Ha. apply (agree_owns _ _ a H) in Ha.
        rewrite (Fp a Ha). symmetry. now apply H.
    + rewrite (agree_sk _ _ H). apply agree_refl.
Qed.

Lemma steps_agree (wdA wdA' : World) (evs : list event) :
  steps py_hash md5 wdA evs wdA' ->
  forall wdB, Inv wdA -> agree wdA wdB ->
  exists wdB', steps py_hash md5 wdB evs wdB' /\ agree wdA' wdB'
               /\ Inv wdA'.
Proof.
  induction 1 as [wdA|wdA ev wd1 evs wd2 Hs _ IH]; intros wdB I H.
  - exists wdB. split; [constructor|]. auto.
  - destruct (step_agree _ _ _ _ I H Hs) as (wdB1 & Hs1 & H1).
    destruct (IH wdB1 (step_inv _ _ _ _ _ I Hs) H1) as (wdB2 & Hs2 & H2).
    exists wdB2. split; [|assumption].
    econstructor; eassumption.
Qed.

End SnapshotFacts.

Lemma sample_mutated_writes :
  mutates_snapshot (mem (snd sample_snapshot)) (fst sample_snapshot)
    (map snd (dict_cells (mem (snd sample_snapshot)) (fst sample_snapshot)))
    sample_mutated.
Proof.
  constructor.
  - reflexivity.
  - reflexivity.
  - intros b Hb. unfold sample_mutated. cbn [store_dict dict_cells].
    destruct (Nat.eqb_spec b (fst sample_snapshot)); [contradiction|].
    reflexivity.
  - intros a Ha. unfold sample_mutated. cbn [store_dict store_pair pair_cells].
    destruct (Nat.eqb_spec a 2) as [->|]; [|reflexivity].
    exfalso. apply Ha. vm_compute. now left.
Defined.

(** C7: [heavyHitters] returns a new dictionary that maps each tracked
    item to a new list holding the stored estimate and the item.  Neither
    the dictionary nor its lists are objects of the sketch, and whatever is
    written to them, every later run of calls on the sketch has the same
    outcomes, the same estimates and the same snapshots as without the
    writes. *)
Theorem heavy_hitters_snapshot_independent (py_hash md5 : string -> Z)
    (w d k : Z) (wd wd1 : World) (snap : nat) :
  reachable py_hash md5 w d k wd ->
  heavyHitters wd = (snap, wd1) ->
  view (mem wd1) snap = view (mem wd) (_top_k (sk wd))
  /\ Forall (fun e => snd (snd e) = fst e) (view (mem wd1) snap)
  /\ sk wd1 = sk wd
  /\ snap <> _top_k (sk wd1)
  /\ (forall a, In a (map snd (dict_cells (mem wd1) snap)) ->
        ~ owns_pair wd1 a)
  /\ forall m',
       mutates_snapshot (mem wd1) snap
         (map snd (dict_cells (mem wd1) snap)) m' ->
       forall evs wdA, steps py_hash md5 wd1 evs wdA ->
       exists wdB,
         steps py_hash md5 (mkWorld m' (sk wd1)) evs wdB
         /\ (forall x, estimate py_hash md5 wdB x
                       = estimate py_hash md5 wdA x)
         /\ (forall s wA, heavyHitters wdA = (s, wA) ->
               exists wB, heavyHitters wdB = (s, wB)
                          /\ view (mem wB) s = view (mem wA) s).
Proof.
  intros Hr Hh.
  destruct (reachable_inv _ _ _ _ _ _ Hr) as (I & _).
  pose proof (heavyHitters_inv _ _ _ I Hh) as I1.
  destruct (heavyHitters_spec _ _ _ I Hh) as (Hsk & F & Hne & Hview & Hfresh).
  assert (Hnot : forall a, In a (map snd (dict_cells (mem wd1) snap)) ->
            ~ owns_pair wd1 a).
  { intros a Ha Hown. apply in_map_iff in Ha as (e & <- & He).
    pose proof (proj1 (Forall_forall _ _) Hfresh e He) as Hge.
    assert (Hown' : owns_pair wd (snd e)).
    { apply (frame_owns wd (mem wd1) (snd e) F).
      rewrite <- Hsk. now destruct wd1. }
    pose proof (inv_owned_allocated _ _ I Hown'). simpl in Hge. lia. }
  split; [assumption|]. split.
  { rewrite Hview. unfold view. fold (entries wd). apply Forall_map.
    exact (inv_items _ I). }
  split; [assumption|]. split; [now rewrite Hsk|]. split; [assumption|].
  intros m' [Mnp Mnd Md Mp] evs wdA Hs.
  assert (H : agree wd1 (mkWorld m' (sk wd1))).
  { constructor; simpl; auto.
    - unfold entries. simpl. apply Md. rewrite Hsk. auto.
    - intros a Ha. apply Mp. intros Hin. exact (Hnot a Hin Ha). }
  destruct (steps_agree _ _ _ _ _ Hs _ I1 H) as (wdB & HsB & HB & IA).
  exists wdB. split; [assumption|]. split.
  - intros x. now apply agree_estimate.
  - intros s wA HA.
    destruct (heavyHitters_agree _ _ _ _ IA HB HA) as (wB & E & _ & V).
    eauto.
Qed.

Lemma heavy_hitters_snapshot_independent_witness :
  exists wdB,
    steps sample_hash sample_digest
      (mkWorld sample_mutated (sk (snd sample_snapshot)))
      [EvUpdate "c" 9 (Ok tt)] wdB
    /\ (forall x,
          estimate sample_hash sample_digest wdB x
          = estimate sample_hash sample_digest
              (snd (update sample_hash sample_digest (snd sample_snapshot)
                      "c" 9)) x)
    /\ (forall s wA,
          heavyHitters
            (snd (update sample_hash sample_digest (snd sample_snapshot)
                    "c" 9)) = (s, wA) ->
          exists wB, heavyHitters wdB = (s, wB)
                     /\ view (mem wB) s = view (mem wA) s).
Proof.
  destruct (heavy_hitters_snapshot_independent sample_hash sample_digest
              4 2 2 sample_world (snd sample_snapshot) (fst sample_snapshot))
    as (_ & _ & _ & _ & _ & H).
  - exact sample_reachable.
  - reflexivity.
  - apply (H sample_mutated sample_mutated_writes).
    econstructor; [|constructor]. constructor. reflexivity.
Defined.

(** * Further properties *)

(** ** Counters and the total count *)

Lemma row_sum_set_nth (l : list Z) :
  forall (i : nat) (x : Z), (i < length l)%nat ->
    row_sum (PyArray.set_nth l i x) = row_sum l - nth i l 0 + x.
Proof.
  induction l as [|a l IH]; intros [|i] x H; simpl in *; try lia.
  rewrite IH by lia. lia.
Qed.

Lemma row_sum_nonneg (l : list Z) :
  Forall (fun v => 0 <= v) l -> 0 <= row_sum l.
Proof. induction 1; simpl; lia. Qed.

Lemma nth_le_row_sum (l : list Z) :
  Forall (fun v => 0 <= v) l -> forall i, 0 <= nth i l 0 <= row_sum l.
Proof.
  induction 1 as [|a l Ha Hl IH]; intros [|i]; simpl; try lia.
  - pose proof (row_sum_nonneg l Hl). lia.
  - specialize (IH i). lia.
Qed.

Lemma set_nth_nonneg (l : list Z) (i : nat) (x : Z) :
  Forall (fun v => 0 <= v) l -> 0 <= x ->
  Forall (fun v => 0 <= v) (PyArray.set_nth l i x).
Proof.
  intros Hl Hx. revert i.
  induction Hl as [|a l Ha Hl IH]; intros [|i]; simpl; auto.
Qed.

Lemma index_in_range (len : nat) (idx : Z) (i : nat) :
  PyArray.index len idx = Ok i -> (i < len)%nat.
Proof.
  unfold PyArray.index.
  destruct (Z.leb_spec 0 idx), (Z.ltb_spec idx (Z.of_nat len)); simpl;
    try (intros [= <-]; lia);
    destruct (Z.leb_spec (- Z.of_nat len) idx), (Z.ltb_spec idx 0); simpl;
    try discriminate; intros [= <-]; lia.
Qed.

(** What [table[idx] += count] does to a row when it returns. *)
Lemma iadd_effect (row row' : list Z) (idx count : Z) :
  PyArray.iadd row idx count = Ok row' ->
  exists i, (i < length row)%nat
    /\ row' = PyArray.set_nth row i (nth i row 0 + count)
    /\ nth i row 0 + count <= PyArray.LONG_MAX.
Proof.
  unfold PyArray.iadd, PyArray.getitem, PyArray.setitem, bind.
  destruct (PyArray.index (length row) idx) as [i|] eqn:E; [|discriminate].
  destruct (Z.leb_spec PyArray.LONG_MIN (nth i row 0 + count));
    [|discriminate].
  destruct (Z.leb_spec (nth i row 0 + count) PyArray.LONG_MAX);
    [|discriminate].
  simpl. intros [= <-]. exists i. split; [|split]; auto.
  now apply index_in_range in E.
Qed.

Lemma iadd_sum (row row' : list Z) (idx count : Z) :
  PyArray.iadd row idx count = Ok row' ->
  row_sum row' = row_sum row + count.
Proof.
  intros H. apply iadd_effect in H as (i & Hi & -> & _).
  rewrite row_sum_set_nth by assumption. lia.
Qed.

Lemma iadd_nonneg (row row' : list Z) (idx count : Z) :
  0 <= count -> Forall (fun v => 0 <= v) row ->
  PyArray.iadd row idx count = Ok row' ->
  Forall (fun v => 0 <= v) row'.
Proof.
  intros Hc Hrow H. apply iadd_effect in H as (i & Hi & -> & _).
  apply set_nth_nonneg; auto.
  pose proof (nth_le_row_sum row Hrow i). lia.
Qed.

(** The counter loop, stopped or not, adds at most [count] to a row. *)
Lemma add_count_bounded (n count : Z) (tables : list (list Z)) :
  forall idxs r tables',
  0 <= count ->
  add_count tables idxs count = (r, tables') ->
  Forall (fun row => Forall (fun v => 0 <= v) row /\ row_sum row <= n)
    tables ->
  Forall (fun row => Forall (fun v => 0 <= v) row
                     /\ row_sum row <= n + count) tables'.
Proof.
  induction tables as [|table ts IH]; intros idxs r tables' Hc H Hb;
    simpl in H.
  - injection H as <- <-. constructor.
  - assert (Hweak : Forall (fun row => Forall (fun v => 0 <= v) row
                                       /\ row_sum row <= n + count)
                      (table :: ts)).
    { eapply Forall_impl; [|exact Hb]. simpl. intros row [? ?].
      split; [assumption|lia]. }
    destruct idxs as [|[idx|e] rest]; try (injection H as <- <-; auto).
    destruct (PyArray.iadd table idx count) as [table'|e] eqn:E;
      [|injection H as <- <-; auto].
    destruct (add_count ts rest count) as [r1 ts'] eqn:E1.
    injection H as <- <-. inversion Hb as [|? ? [Hnn Hsum] Hrest]; subst.
    constructor; [|eapply IH; eauto]. split.
    + eapply iadd_nonneg; eauto.
    + rewrite (iadd_sum _ _ _ _ E). lia.
Qed.

(** The counter loop, run to its end, adds [count] to every row. *)
Lemma add_count_sums (n count : Z) (tables : list (list Z)) :
  forall idxs tables',
  add_count tables idxs count = (Ok tt, tables') ->
  length idxs = length tables ->
  Forall (fun row => row_sum row = n) tables ->
  Forall (fun row => row_sum row = n + count) tables'.
Proof.
  induction tables as [|table ts IH]; intros idxs tables' H Hl Hs;
    simpl in H.
  - injection H as <-. constructor.
  - destruct idxs as [|[idx|e] rest]; try discriminate.
    destruct (PyArray.iadd table idx count) as [table'|e] eqn:E;
      [|discriminate].
    destruct (add_count ts rest count) as [r1 ts'] eqn:E1.
    injection H as -> <-. inversion Hs as [|? ? Hsum Hrest]; subst.
    constructor; [|eapply IH; eauto].
    now rewrite (iadd_sum _ _ _ _ E).
Qed.

Lemma heavyHitters_sk (wd wd' : World) (d : nat) :
  heavyHitters wd = (d, wd') -> sk wd' = sk wd.
Proof.
  unfold heavyHitters.
  destruct (deepcopy_dict (mem wd) (_top_k (sk wd))) as [d' m'].
  now intros [= _ <-].
Qed.

Section TotalFacts.

Variable py_hash : string -> Z.
Variable md5 : string -> Z.

(** What a call of [update] does to the total and to the rows. *)
Lemma update_total (wd wd' : World) (item : string) (count : Z)
    (r : result unit) :
  update py_hash md5 wd item count = (r, wd') ->
  _n (sk wd') = _n (sk wd) + (if count <? 0 then 0 else count).
Proof.
  intros H. apply update_cases in H
    as [(Hc & _ & ->)|(Hc & r1 & tables & _ & H)].
  - rewrite (proj2 (Z.ltb_lt _ _) Hc). lia.
  - rewrite (proj2 (Z.ltb_ge _ _) Hc). simpl in H. destruct r1.
    + apply update_heap_tables in H. simpl in H. intuition congruence.
    + destruct H as [_ ->]. reflexivity.
Qed.

Lemma update_tables (wd wd' : World) (item : string) (count : Z)
    (r : result unit) :
  update py_hash md5 wd item count = (r, wd') ->
  (count < 0 /\ wd' = wd)
  \/ (0 <= count /\ exists r1,
        add_count (_tables (sk wd)) (_hash py_hash md5 (sk wd) item) count
        = (r1, _tables (sk wd'))
        /\ (is_ok r = true -> r1 = Ok tt)).
Proof.
  intros H. apply update_cases in H
    as [(Hc & _ & ->)|(Hc & r1 & tables & Hadd & H)]; [now left|].
  right. split; [assumption|]. exists r1. simpl in H. destruct r1 as [[]|e].
  - apply update_heap_tables in H. simpl in H.
    destruct H as (-> & _). auto.
  - destruct H as [-> ->]. simpl. split; [assumption|discriminate].
Qed.

Lemma step_total (wd wd' : World) (ev : event) :
  step py_hash md5 wd ev wd' ->
  _n (sk wd') = _n (sk wd) + accepted [ev].
Proof.
  intros H. destruct H as [wd item count r wd' H|wd d wd' H|wd m' H]; simpl.
  - rewrite (update_total _ _ _ _ _ H). lia.
  - rewrite (heavyHitters_sk _ _ _ H). lia.
  - lia.
Qed.

Lemma steps_total (wd wd' : World) (evs : list event) :
  steps py_hash md5 wd evs wd' ->
  _n (sk wd') = _n (sk wd) + accepted evs.
Proof.
  induction 1 as [wd|wd ev wd1 evs wd2 Hs _ IH]; simpl; [lia|].
  rewrite IH, (step_total _ _ _ Hs). simpl. destruct ev; lia.
Qed.

Lemma step_bounded (wd wd' : World) (ev : event) :
  counters_bounded wd -> step py_hash md5 wd ev wd' -> counters_bounded wd'.
Proof.
  intros B H. destruct H as [wd item count r wd' H|wd d wd' H|wd m' H].
  - pose proof (update_total _ _ _ _ _ H) as Hn.
    destruct (update_tables _ _ _ _ _ H)
      as [(_ & ->)|(Hc & r1 & Hadd & _)]; [assumption|].
    unfold counters_bounded. rewrite Hn.
    rewrite (proj2 (Z.ltb_ge _ _) Hc).
    eapply add_count_bounded; eauto.
  - unfold counters_bounded. now rewrite (heavyHitters_sk _ _ _ H).
  - exact B.
Qed.

Lemma steps_bounded (wd wd' : World) (evs : list event) :
  steps py_hash md5 wd evs wd' -> counters_bounded wd ->
  counters_bounded wd'.
Proof.
  induction 1 as [wd|wd ev wd1 evs wd2 Hs _ IH]; auto.
  intros B. apply IH. eapply step_bounded; eauto.
Qed.

Lemma construct_bounded (m : Memory) (w d k : Z) (wd : World) :
  construct m w d k = Ok wd -> counters_bounded wd.
Proof.
  intros H. destruct (construct_inv _ _ _ _ _ H)
    as (_ & _ & _ & _ & Hn & _ & _ & Ht).
  unfold counters_bounded. rewrite Ht, Hn. apply Forall_forall.
  intros row Hrow. apply in_map_iff in Hrow as (i & <- & _).
  generalize (range w). intros l. split.
  - apply Forall_forall. intros v Hv. apply in_map_iff in Hv as (? & <- & _).
    lia.
  - induction l; simpl; lia.
Qed.

Lemma reachable_bounded (w d k : Z) (wd : World) :
  reachable py_hash md5 w d k wd -> counters_bounded wd.
Proof.
  intros (m & wd0 & evs & Hc & Hs).
  exact (steps_bounded _ _ _ Hs (construct_bounded _ _ _ _ _ Hc)).
Qed.

End TotalFacts.

Lemma estimate_values_bounded (n : Z) (tables : list (list Z)) :
  forall idxs vs,
  estimate_values tables idxs = Ok vs ->
  Forall (fun row => Forall (fun v => 0 <= v) row /\ row_sum row <= n)
    tables ->
  Forall (fun v => 0 <= v <= n) vs.
Proof.
  induction tables as [|table ts IH]; intros idxs vs H Hb; simpl in H.
  - injection H as <-. constructor.
  - destruct idxs as [|[idx|e] rest]; simpl in H;
      try discriminate; [injection H as <-; constructor|].
    unfold PyArray.getitem in H.
    destruct (PyArray.index (length table) idx) as [i|]; simpl in H;
      [|discriminate].
    destruct (estimate_values ts rest) as [vs0|] eqn:E; simpl in H;
      [|discriminate].
    injection H as <-. inversion Hb as [|? ? [Hnn Hsum] Hrest]; subst.
    constructor; [|eapply IH; eauto].
    pose proof (nth_le_row_sum table Hnn i). lia.
Qed.

Lemma fold_min_in (t : list Z) :
  forall x, fold_left Z.min t x = x \/ In (fold_left Z.min t x) t.
Proof.
  induction t as [|a t IH]; intros x; simpl; [now left|].
  destruct (IH (Z.min x a)) as [E|Hin]; [|auto].
  rewrite E. destruct (Z.min_spec x a) as [[_ ->]|[_ ->]]; auto.
Qed.

Lemma py_min_in (vs : list Z) (e : Z) : py_min vs = Ok e -> In e vs.
Proof.
  destruct vs as [|x t]; [discriminate|]. intros [= <-].
  destruct (fold_min_in t x) as [->|H]; [now left|now right].
Qed.

Section BoundFacts.

Variable py_hash : string -> Z.
Variable md5 : string -> Z.

(** An estimate is one of the counters, so it lies between zero and the
    total. *)
Lemma estimate_bounded (wd : World) (x : string) :
  Inv wd -> counters_bounded wd -> 0 < _w (sk wd) -> 0 < _d (sk wd) ->
  exists e, estimate py_hash md5 wd x = Ok e /\ 0 <= e <= _n (sk wd).
Proof.
  intros I B Hw Hd.
  destruct (counters_ok py_hash md5 wd x I Hw) as (vs & Hvs & Hl).
  pose proof (estimate_values_bounded _ _ _ _ Hvs B) as Hb.
  unfold estimate. rewrite Hvs. simpl.
  destruct vs as [|v vs]; [simpl in Hl; lia|].
  eexists. split; [reflexivity|].
  apply (proj1 (Forall_forall _ _) Hb). apply py_min_in. reflexivity.
Qed.

Lemma step_rows_exact (wd wd' : World) (ev : event) :
  Inv wd -> step py_hash md5 wd ev wd' -> all_returned [ev] = true ->
  Forall (fun row => row_sum row = _n (sk wd)) (_tables (sk wd)) ->
  Forall (fun row => row_sum row = _n (sk wd')) (_tables (sk wd')).
Proof.
  intros I H Hall Hs.
  destruct H as [wd item count r wd' H|wd d wd' H|wd m' H].
  - pose proof (update_total _ _ _ _ _ _ _ H) as Hn.
    simpl in Hall. rewrite andb_true_r in Hall.
    destruct (update_tables _ _ _ _ _ _ _ H)
      as [(_ & ->)|(Hc & r1 & Hadd & Hr1)]; [assumption|].
    rewrite (Hr1 Hall) in Hadd. rewrite Hn.
    rewrite (proj2 (Z.ltb_ge _ _) Hc).
    eapply add_count_sums; eauto.
    rewrite hash_length. symmetry. apply I.
  - now rewrite (heavyHitters_sk _ _ _ H).
  - exact Hs.
Qed.

Lemma all_returned_cons (ev : event) (evs : list event) :
  all_returned (ev :: evs) = all_returned [ev] && all_returned evs.
Proof. destruct ev; simpl; now rewrite ?andb_true_r. Qed.

Lemma steps_rows_exact (wd wd' : World) (evs : list event) :
  steps py_hash md5 wd evs wd' -> Inv wd -> all_returned evs = true ->
  Forall (fun row => row_sum row = _n (sk wd)) (_tables (sk wd)) ->
  Forall (fun row => row_sum row = _n (sk wd')) (_tables (sk wd')).
Proof.
  induction 1 as [wd|wd ev wd1 evs wd2 Hs _ IH]; auto.
  intros I Hall Hrows. rewrite all_returned_cons in Hall.
  apply andb_true_iff in Hall as [H1 H2].
  apply IH; auto.
  - eapply step_inv; eauto.
  - eapply step_rows_exact; eauto.
Qed.

Lemma construct_rows_exact (m : Memory) (w d k : Z) (wd : World) :
  construct m w d k = Ok wd ->
  Forall (fun row => row_sum row = _n (sk wd)) (_tables (sk wd)).
Proof.
  intros H. destruct (construct_inv _ _ _ _ _ H)
    as (_ & _ & _ & _ & Hn & _ & _ & Ht).
  rewrite Ht, Hn. apply Forall_forall.
  intros row Hrow. apply in_map_iff in Hrow as (i & <- & _).
  generalize (range w). intros l. induction l; simpl; lia.
Qed.

(** When every call is on [x] and returns, what was applied to [x] is all
    that was accepted. *)
Lemma accepted_single (x : string) (calls : list (string * Z)) :
  forall wd evs wd',
  Forall (fun c => fst c = x) calls ->
  run_events py_hash md5 wd calls = (evs, wd') ->
  all_returned evs = true ->
  accepted evs = true_frequency x calls.
Proof.
  induction calls as [|[item count] rest IH]; intros wd evs wd' Hx; simpl.
  - intros [= <- <-]. reflexivity.
  - destruct (update py_hash md5 wd item count) as [r wd1] eqn:E.
    destruct (run_events py_hash md5 wd1 rest) as [evs1 wd2] eqn:E1.
    inversion Hx as [|c cs Hitem Hrest Ec]. simpl in Hitem. subst item.
    intros [= <- <-]. simpl. intros Hall.
    apply andb_true_iff in Hall as [Hr Hall].
    rewrite (IH _ _ _ Hrest E1 Hall). rewrite String.eqb_refl.
    destruct (Z.ltb_spec count 0) as [Hc|Hc]; [|reflexivity].
    apply update_cases in E as [(_ & -> & _)|(Hc' & _)];
      [discriminate|lia].
Qed.

End BoundFacts.

(** X1: the total count of a sketch is the sum of the weights of all the
    [update] calls made on it with a weight that is not negative, whether
    the call returned or raised after the check of the weight; neither
    [heavyHitters] nor a rejected call changes it. *)
Theorem total_count_is_accepted_weight (py_hash md5 : string -> Z)
    (m : Memory) (w d k : Z) (wd0 wd : World) (evs : list event) :
  construct m w d k = Ok wd0 -> steps py_hash md5 wd0 evs wd ->
  totalCount wd = accepted evs.
Proof.
  intros Hc Hs. unfold totalCount. rewrite (steps_total _ _ _ _ _ Hs).
  destruct (construct_inv _ _ _ _ _ Hc) as (_ & _ & _ & _ & Hn & _).
  rewrite Hn. lia.
Qed.

Lemma total_count_is_accepted_weight_witness :
  totalCount sample_world = accepted sample_events.
Proof.
  apply (total_count_is_accepted_weight sample_hash sample_digest
           empty_memory 4 2 2 sample_start sample_world sample_events).
  - reflexivity.
  - apply (run_events_steps _ _ sample_calls). reflexivity.
Defined.

(** X2: after a run in which every [update] call returned, every row of
    counters sums to the total count: each accepted weight was added to
    exactly one counter of each row. *)
Theorem rows_sum_to_total (py_hash md5 : string -> Z) (m : Memory)
    (w d k : Z) (wd0 wd : World) (evs : list event) :
  construct m w d k = Ok wd0 -> steps py_hash md5 wd0 evs wd ->
  all_returned evs = true ->
  Forall (fun row => row_sum row = totalCount wd) (_tables (sk wd)).
Proof.
  intros Hc Hs Hall.
  destruct (construct_inv _ _ _ _ _ Hc) as (I & _).
  exact (steps_rows_exact _ _ _ _ _ Hs I Hall
           (construct_rows_exact _ _ _ _ _ Hc)).
Qed.

Lemma rows_sum_to_total_witness :
  Forall (fun row => row_sum row = totalCount sample_world)
    (_tables (sk sample_world)).
Proof.
  apply (rows_sum_to_total sample_hash sample_digest empty_memory 4 2 2
           sample_start sample_world sample_events).
  - reflexivity.
  - apply (run_events_steps _ _ sample_calls). reflexivity.
  - reflexivity.
Defined.

(** X3: on a sketch of positive width and depth, [estimate] always
    returns, and what it returns is never negative and never above the
    total count, whatever calls were made before. *)
Theorem estimate_within_total (py_hash md5 : string -> Z) (w d k : Z)
    (wd : World) (x : string) :
  0 < w -> 0 < d -> reachable py_hash md5 w d k wd ->
  exists e, estimate py_hash md5 wd x = Ok e /\ 0 <= e <= totalCount wd.
Proof.
  intros Hw Hd Hr.
  destruct (reachable_inv _ _ _ _ _ _ Hr) as (I & Hw' & Hd' & _).
  apply estimate_bounded; auto; try lia.
  exact (reachable_bounded _ _ _ _ _ _ Hr).
Qed.

Lemma estimate_within_total_witness :
  exists e, estimate sample_hash sample_digest sample_world "zebra" = Ok e
            /\ 0 <= e <= totalCount sample_world.
Proof.
  apply (estimate_within_total sample_hash sample_digest 4 2 2).
  - lia.
  - lia.
  - exact sample_reachable.
Defined.

(** X4: when all calls of a run on a new sketch of positive width and
    depth are for one item and return, the estimate of that item is exact:
    it is the sum of the weights, which is also the total count. *)
Theorem single_item_estimate_exact (py_hash md5 : string -> Z) (m : Memory)
    (w d k : Z) (wd0 wd : World) (calls : list (string * Z))
    (evs : list event) (x : string) :
  0 < w -> 0 < d -> construct m w d k = Ok wd0 ->
  Forall (fun c => fst c = x) calls ->
  run_events py_hash md5 wd0 calls = (evs, wd) ->
  all_returned evs = true ->
  estimate py_hash md5 wd x = Ok (true_frequency x calls)
  /\ totalCount wd = true_frequency x calls.
Proof.
  intros Hw Hd Hc Hx Hrun Hall.
  pose proof (run_events_steps _ _ _ _ _ _ Hrun) as Hs.
  assert (Hr : reachable py_hash md5 w d k wd) by (exists m, wd0, evs; auto).
  destruct (reachable_inv _ _ _ _ _ _ Hr) as (I & Hw' & Hd' & _).
  assert (Hn : _n (sk wd) = true_frequency x calls).
  { rewrite (steps_total _ _ _ _ _ Hs).
    destruct (construct_inv _ _ _ _ _ Hc) as (_ & _ & _ & _ & -> & _).
    now rewrite (accepted_single _ _ x calls _ _ _ Hx Hrun Hall). }
  split; [|exact Hn].
  destruct (estimate_bounded py_hash md5 wd x I
              (reachable_bounded _ _ _ _ _ _ Hr) ltac:(lia) ltac:(lia))
    as (e & He & _ & Hup).
  destruct (estimate_not_below_applied py_hash md5 m w d k wd0 wd evs x
              Hw Hd Hc Hs) as (e' & He' & Hlow).
  rewrite (applied_all_returned _ _ x calls _ _ _ Hrun Hall) in Hlow.
  rewrite He in He'. injection He' as <-. rewrite He. f_equal. lia.
Qed.

Lemma single_item_estimate_exact_witness :
  estimate sample_hash sample_digest
    (snd (run_events sample_hash sample_digest sample_start
            [("a"%string, 5); ("a"%string, 2)])) "a"
  = Ok (true_frequency "a" [("a"%string, 5); ("a"%string, 2)])
  /\ totalCount
       (snd (run_events sample_hash sample_digest sample_start
               [("a"%string, 5); ("a"%string, 2)]))
     = true_frequency "a" [("a"%string, 5); ("a"%string, 2)].
Proof.
  apply (single_item_estimate_exact sample_hash sample_digest empty_memory
           4 2 2 sample_start _ _
           (fst (run_events sample_hash sample_digest sample_start
                   [("a"%string, 5); ("a"%string, 2)]))).
  - lia.
  - lia.
  - reflexivity.
  - repeat constructor.
  - reflexivity.
  - reflexivity.
Defined.

(** ** When [update] returns and when it raises *)

Lemma long_range : PyArray.LONG_MIN < 0 /\ 0 < PyArray.LONG_MAX.
Proof. unfold PyArray.LONG_MIN, PyArray.LONG_MAX. lia. Qed.

Lemma iadd_ok (row : list Z) (idx count n : Z) :
  0 <= idx < Z.of_nat (length row) ->
  Forall (fun v => 0 <= v) row -> row_sum row <= n ->
  0 <= count -> n + count <= PyArray.LONG_MAX ->
  exists row', PyArray.iadd row idx count = Ok row'.
Proof.
  intros Hidx Hnn Hsum Hc Hn. unfold PyArray.iadd, PyArray.setitem, bind.
  rewrite getitem_column, index_column by assumption.
  pose proof (nth_le_row_sum row Hnn (Z.to_nat idx)) as Hv.
  pose proof long_range as [Hmin _].
  destruct (Z.leb_spec PyArray.LONG_MIN (nth (Z.to_nat idx) row 0 + count));
    [|lia].
  destruct (Z.leb_spec (nth (Z.to_nat idx) row 0 + count) PyArray.LONG_MAX);
    [|lia].
  simpl. eauto.
Qed.

Lemma iadd_overflow (row : list Z) (idx count : Z) :
  0 <= idx < Z.of_nat (length row) ->
  Forall (fun v => 0 <= v) row -> PyArray.LONG_MAX < count ->
  PyArray.iadd row idx count = Raise OverflowError.
Proof.
  intros Hidx Hnn Hc. unfold PyArray.iadd, PyArray.setitem, bind.
  rewrite getitem_column, index_column by assumption.
  pose proof (nth_le_row_sum row Hnn (Z.to_nat idx)) as Hv.
  destruct (Z.leb_spec (nth (Z.to_nat idx) row 0 + count) PyArray.LONG_MAX);
    [lia|].
  now rewrite andb_false_r.
Qed.

Lemma add_count_ok (w : nat) (n count : Z) (tables : list (list Z)) :
  forall idxs,
  Forall (fun row => length row = w) tables ->
  Forall (column w) idxs ->
  Forall (fun row => Forall (fun v => 0 <= v) row /\ row_sum row <= n)
    tables ->
  0 <= count -> n + count <= PyArray.LONG_MAX ->
  exists tables', add_count tables idxs count = (Ok tt, tables').
Proof.
  induction tables as [|table ts IH]; intros idxs Hshape Hcols Hb Hc Hn;
    simpl; [eauto|].
  destruct idxs as [|ri rest]; [eauto|].
  inversion Hshape as [|? ? Hrow Hrest]; subst.
  inversion Hcols as [|? ? Hcol Hcs]; subst.
  inversion Hb as [|? ? [Hnn Hsum] Hbs]; subst.
  destruct Hcol as (idx & -> & Hidx).
  destruct (iadd_ok table idx count n Hidx Hnn Hsum Hc Hn) as [row' ->].
  destruct (IH rest Hrest Hcs Hbs Hc Hn) as [ts' ->]. eauto.
Qed.

Section OutcomeFacts.

Variable py_hash : string -> Z.
Variable md5 : string -> Z.

(** A sketch whose capacity is not positive never tracks anything. *)
Lemma step_heap_empty (wd wd' : World) (ev : event) :
  Inv wd -> _k (sk wd) <= 0 -> _heap (sk wd) = [] ->
  step py_hash md5 wd ev wd' -> _heap (sk wd') = [].
Proof.
  intros I Hk Hh H.
  destruct H as [wd item count r wd' H|wd d wd' H|wd m' H].
  - apply update_cases in H as [(_ & _ & ->)|(Hc & r1 & tables & Hadd & H)];
      [assumption|].
    simpl in H. destruct r1 as [[]|e]; [|destruct H as [_ ->]; exact Hh].
    destruct (add_count_shape _ _ _ _ _ _ Hadd (inv_rows _ I)) as [Hl Hs].
    pose proof (inv_tables_update wd (_n (sk wd) + count) tables I Hl Hs)
      as I1.
    destruct (update_heap_cases _ _ _ _ _ _ I1 H)
      as [(e & _ & _ & ->)|(est & _ & Hcases)]; [exact Hh|].
    cbv zeta in Hcases. simpl in Hcases.
    destruct Hcases as [(a & Hget & _)
                       |[(_ & Hroom & _)
                        |[(_ & _ & _ & _ & ->)
                         |[(_ & _ & h0 & rest & Hheap & _)
                          |(_ & _ & h0 & rest & Hheap & _)]]]].
    + apply (inv_heap_of_entry _ item a I1) in Hget as [Hin _].
      simpl in Hin. rewrite Hh in Hin. destruct Hin.
    + rewrite Hh in Hroom. simpl in Hroom. lia.
    + exact Hh.
    + congruence.
    + congruence.
  - now rewrite (heavyHitters_sk _ _ _ H).
  - exact Hh.
Qed.

Lemma reachable_heap_empty (w d k : Z) (wd : World) :
  k <= 0 -> reachable py_hash md5 w d k wd -> _heap (sk wd) = [].
Proof.
  intros Hk (m & wd0 & evs & Hc & Hs).
  destruct (construct_inv _ _ _ _ _ Hc) as (I0 & _ & _ & Hk0 & _ & Hh & _).
  rewrite <- Hk0 in Hk. clear Hc Hk0.
  induction Hs as [wd|wd ev wd1 evs wd2 Hs _ IH]; [assumption|].
  apply IH.
  - now rewrite (proj1 (proj2 (proj2 (step_params _ _ _ _ _ I0 Hs)))).
  - eapply step_inv; eauto.
  - eapply step_heap_empty; eauto.
Qed.

(** The state in which [_update_heap] is entered. *)
Lemma update_enters_tracker (w d k : Z) (wd : World) (item : string)
    (count : Z) :
  0 < w -> 0 < d -> reachable py_hash md5 w d k wd ->
  0 <= count -> _n (sk wd) + count <= PyArray.LONG_MAX ->
  exists tables,
    let wd1 := mkWorld (mem wd)
                 (with_tables (with_n (sk wd) (_n (sk wd) + count)) tables) in
    add_count (_tables (sk wd)) (_hash py_hash md5 (sk wd) item) count
    = (Ok tt, tables)
    /\ update py_hash md5 wd item count = _update_heap py_hash md5 wd1 item
    /\ Inv wd1
    /\ exists est, estimate py_hash md5 wd1 item = Ok est.
Proof.
  intros Hw Hd Hr Hc Hn.
  destruct (reachable_inv _ _ _ _ _ _ Hr) as (I & Hw' & Hd' & _).
  pose proof (reachable_bounded _ _ _ _ _ _ Hr) as B.
  destruct (add_count_ok (Z.to_nat (_w (sk wd))) (_n (sk wd)) count
              (_tables (sk wd)) (_hash py_hash md5 (sk wd) item))
    as [tables Hadd]; auto.
  { apply I. }
  { apply hash_columns. lia. }
  exists tables. cbv zeta.
  destruct (add_count_shape _ _ _ _ _ _ Hadd (inv_rows _ I)) as [Hl Hs].
  pose proof (inv_tables_update wd (_n (sk wd) + count) tables I Hl Hs)
    as I1.
  split; [exact Hadd|]. split; [|split; [exact I1|]].
  - rewrite update_unfold. rewrite (proj2 (Z.ltb_ge _ _) Hc).
    now rewrite Hadd.
  - assert (B1 : counters_bounded
                   (mkWorld (mem wd)
                      (with_tables (with_n (sk wd) (_n (sk wd) + count))
                         tables))).
    { unfold counters_bounded. simpl.
      eapply add_count_bounded; eauto. }
    destruct (estimate_bounded py_hash md5 _ item I1 B1) as (e & He & _);
      simpl; try lia.
    eauto.
Qed.

End OutcomeFacts.

Lemma fold_min_shift (t : list Z) (c : Z) :
  forall x, fold_left Z.min (map (fun v => v + c) t) (x + c)
            = fold_left Z.min t x + c.
Proof.
  induction t as [|a t IH]; intros x; simpl; [reflexivity|].
  rewrite <- IH. f_equal. lia.
Qed.

Lemma update_ok (py_hash md5 : string -> Z) (w d k : Z)
    (wd : World) (item : string) (count : Z) :
  0 < w -> 0 < d -> 0 < k -> reachable py_hash md5 w d k wd ->
  0 <= count -> totalCount wd + count <= PyArray.LONG_MAX ->
  exists wd', update py_hash md5 wd item count = (Ok tt, wd')
              /\ totalCount wd' = totalCount wd + count.
Proof.
  intros Hw Hd Hk Hr Hc Hn.
  destruct (update_enters_tracker py_hash md5 w d k wd item count
              Hw Hd Hr Hc Hn) as (tables & _ & Hu & I1 & est & Hest).
  cbv zeta in Hu.
  destruct (reachable_inv _ _ _ _ _ _ Hr) as (_ & _ & _ & Hk').
  destruct (update py_hash md5 wd item count) as [r wd'] eqn:E.
  pose proof (update_total _ _ _ _ _ _ _ E) as Ht.
  rewrite (proj2 (Z.ltb_ge _ _) Hc) in Ht.
  exists wd'. split; [|exact Ht]. f_equal.
  symmetry in Hu.
  destruct (update_heap_cases _ _ _ _ _ _ I1 Hu)
    as [(e & He & _)|(est' & _ & Hcases)]; [congruence|].
  cbv zeta in Hcases. simpl in Hcases.
  destruct Hcases as [(a & _ & -> & _)
                     |[(_ & _ & -> & _)
                      |[(_ & Hfull & Hnil & _)
                       |[(_ & _ & h0 & rest & _ & _ & -> & _)
                        |(_ & _ & h0 & rest & _ & _ & -> & _)]]]];
    try reflexivity.
  rewrite Hnil in Hfull. simpl in Hfull. lia.
Qed.

(** X5: on a sketch of positive width, depth and capacity, a call of
    [update] with a weight that is not negative returns whenever the new
    total count still fits a C long: no index is out of range, no key is
    missing and no counter overflows. *)
Theorem update_returns_within_long (py_hash md5 : string -> Z) (w d k : Z)
    (wd : World) (item : string) (count : Z) :
  0 < w -> 0 < d -> 0 < k -> reachable py_hash md5 w d k wd ->
  0 <= count -> totalCount wd + count <= PyArray.LONG_MAX ->
  exists wd', update py_hash md5 wd item count = (Ok tt, wd')
              /\ totalCount wd' = totalCount wd + count.
Proof. exact (update_ok py_hash md5 w d k wd item count). Qed.

Lemma update_returns_within_long_witness :
  exists wd', update sample_hash sample_digest sample_world "c" 9
              = (Ok tt, wd')
              /\ totalCount wd' = totalCount sample_world + 9.
Proof.
  apply (update_returns_within_long sample_hash sample_digest 4 2 2).
  - lia.
  - lia.
  - lia.
  - exact sample_reachable.
  - lia.
  - vm_compute. discriminate.
Defined.

Lemma no_capacity_index_error (py_hash md5 : string -> Z)
    (w d k : Z) (wd : World) (item : string) (count : Z) :
  0 < w -> 0 < d -> k <= 0 -> reachable py_hash md5 w d k wd ->
  0 <= count -> totalCount wd + count <= PyArray.LONG_MAX ->
  exists wd' e,
    update py_hash md5 wd item count = (Raise IndexError, wd')
    /\ totalCount wd' = totalCount wd + count
    /\ estimate py_hash md5 wd item = Ok e
    /\ estimate py_hash md5 wd' item = Ok (e + count)
    /\ _heap (sk wd') = [] /\ entries wd' = [].
Proof.
  intros Hw Hd Hk Hr Hc Hn.
  destruct (update_enters_tracker py_hash md5 w d k wd item count
              Hw Hd Hr Hc Hn) as (tables & Hadd & Hu & I1 & est & Hest).
  cbv zeta in Hu.
  destruct (reachable_inv _ _ _ _ _ _ Hr) as (I & Hw' & Hd' & Hk').
  pose proof (reachable_heap_empty py_hash md5 w d k wd Hk Hr) as Hh.
  destruct (update py_hash md5 wd item count) as [r wd'] eqn:E.
  pose proof (update_total _ _ _ _ _ _ _ E) as Ht.
  rewrite (proj2 (Z.ltb_ge _ _) Hc) in Ht.
  pose proof (update_inv _ _ _ _ _ _ _ I E) as I'.
  symmetry in Hu.
  destruct (update_heap_tables _ _ _ _ _ _ Hu) as (Htab & Hw1 & Hd1 & _).
  simpl in Htab, Hw1, Hd1.
  destruct (counters_ok py_hash md5 wd item I ltac:(lia)) as (vs & Hvs & Hl).
  assert (Hcols : Forall (column (Z.to_nat (_w (sk wd))))
                    (_hash py_hash md5 (sk wd) item))
    by (apply hash_columns; lia).
  assert (Hhl : length (_hash py_hash md5 (sk wd) item)
                = length (_tables (sk wd)))
    by (rewrite hash_length; symmetry; apply I).
  pose proof (add_count_exact (Z.to_nat (_w (sk wd))) count _ _ _ _ Hadd
                (inv_rows _ I) Hcols Hhl Hvs) as Hvs'.
  assert (Hne : vs <> []) by (intros ->; simpl in Hl; lia).
  destruct vs as [|v vs]; [congruence|].
  exists wd', (fold_left Z.min vs v).
  destruct (update_heap_cases _ _ _ _ _ _ I1 Hu)
    as [(e & He & _)|(est' & _ & Hcases)]; [congruence|].
  cbv zeta in Hcases. simpl in Hcases.
  assert (Hr' : r = Raise IndexError /\ _heap (sk wd') = []).
  { destruct Hcases as [(a & Hget & _)
                       |[(_ & Hroom & _)
                        |[(_ & _ & _ & -> & ->)
                         |[(_ & _ & h0 & rest & Hheap & _)
                          |(_ & _ & h0 & rest & Hheap & _)]]]];
      try congruence; try (rewrite Hh in Hroom; simpl in Hroom; lia).
    - apply (inv_heap_of_entry _ item a I1) in Hget as [Hin _].
      simpl in Hin. rewrite Hh in Hin. destruct Hin.
    - auto. }
  destruct Hr' as [-> Hh']. split; [reflexivity|].
  split; [exact Ht|]. split.
  { unfold estimate. now rewrite Hvs. }
  split.
  { unfold estimate.
    rewrite Htab, (hash_params py_hash md5 (sk wd) (sk wd') item Hw1 Hd1).
    rewrite Hvs'. simpl. f_equal. apply fold_min_shift. }
  split; [exact Hh'|].
  pose proof (Permutation_length (inv_same _ I')) as Hlen.
  rewrite Hh', length_map in Hlen.
  now apply length_zero_iff_nil.
Qed.

Lemma update_heap_no_capacity (py_hash md5 : string -> Z) (wd wd' : World)
    (item : string) (r : result unit) :
  Inv wd -> _k (sk wd) <= 0 -> _heap (sk wd) = [] ->
  _update_heap py_hash md5 wd item = (r, wd') -> is_ok r = false.
Proof.
  intros I Hk Hh H.
  destruct (update_heap_cases _ _ _ _ _ _ I H)
    as [(e & _ & -> & _)|(est & _ & Hcases)]; [reflexivity|].
  cbv zeta in Hcases.
  destruct Hcases as [(a & Hget & _)
                     |[(_ & Hroom & _)
                      |[(_ & _ & _ & -> & _)
                       |[(_ & _ & h0 & rest & Hheap & _)
                        |(_ & _ & h0 & rest & Hheap & _)]]]].
  - apply (inv_heap_of_entry _ item a I) in Hget as [Hin _].
    rewrite Hh in Hin. destruct Hin.
  - rewrite Hh in Hroom. simpl in Hroom. lia.
  - reflexivity.
  - congruence.
  - congruence.
Qed.

Lemma update_no_capacity_fails (py_hash md5 : string -> Z) (wd wd' : World)
    (item : string) (count : Z) (r : result unit) :
  Inv wd -> _k (sk wd) <= 0 -> _heap (sk wd) = [] ->
  update py_hash md5 wd item count = (r, wd') -> is_ok r = false.
Proof.
  intros I Hk Hh H.
  apply update_cases in H as [(_ & -> & _)|(Hc & r1 & tables & Hadd & H)];
    [reflexivity|].
  simpl in H. destruct r1 as [[]|e]; [|destruct H as [-> _]; reflexivity].
  destruct (add_count_shape _ _ _ _ _ _ Hadd (inv_rows _ I)) as [Hl Hs].
  pose proof (inv_tables_update wd (_n (sk wd) + count) tables I Hl Hs)
    as I1.
  exact (update_heap_no_capacity _ _ _ _ _ _ I1 Hk Hh H).
Qed.

(** X6: a sketch built with a capacity that is not positive cannot be
    updated: on positive width and depth no call of [update] ever returns,
    whatever the weight, and nothing is ever tracked.  When the weight is
    not negative and the new total count still fits a C long, what the
    call raises is IndexError (from [heap[0]] on the empty heap), and it
    does so after the total count and the counters of the item have been
    increased. *)
Theorem update_without_capacity_raises (py_hash md5 : string -> Z)
    (w d k : Z) (wd : World) (item : string) (count : Z) :
  0 < w -> 0 < d -> k <= 0 -> reachable py_hash md5 w d k wd ->
  (forall r wd', update py_hash md5 wd item count = (r, wd') ->
     is_ok r = false /\ _heap (sk wd') = [] /\ entries wd' = [])
  /\ (0 <= count -> totalCount wd + count <= PyArray.LONG_MAX ->
      exists wd' e,
        update py_hash md5 wd item count = (Raise IndexError, wd')
        /\ totalCount wd' = totalCount wd + count
        /\ estimate py_hash md5 wd item = Ok e
        /\ estimate py_hash md5 wd' item = Ok (e + count)
        /\ _heap (sk wd') = [] /\ entries wd' = []).
Proof.
  intros Hw Hd Hk Hr. split.
  - intros r wd' Hu.
    destruct (reachable_inv _ _ _ _ _ _ Hr) as (I & _ & _ & Hk').
    pose proof (reachable_heap_empty py_hash md5 w d k wd Hk Hr) as Hh.
    pose proof (update_inv _ _ _ _ _ _ _ I Hu) as I'.
    assert (Hh' : _heap (sk wd') = []).
    { apply (step_heap_empty py_hash md5 wd wd' (EvUpdate item count r) I);
        [lia|assumption|now constructor]. }
    split; [|split; [exact Hh'|]].
    + apply (update_no_capacity_fails py_hash md5 wd wd' item count r I);
        [lia|assumption|assumption].
    + pose proof (Permutation_length (inv_same _ I')) as Hlen.
      rewrite Hh', length_map in Hlen. now apply length_zero_iff_nil.
  - intros Hc Hn.
    exact (no_capacity_index_error py_hash md5 w d k wd item count
             Hw Hd Hk Hr Hc Hn).
Qed.

Lemma update_without_capacity_raises_witness :
  (forall r wd',
     update sample_hash sample_digest sample_no_capacity "a" 5 = (r, wd') ->
     is_ok r = false /\ _heap (sk wd') = [] /\ entries wd' = [])
  /\ exists wd' e,
       update sample_hash sample_digest sample_no_capacity "a" 5
       = (Raise IndexError, wd')
       /\ totalCount wd' = totalCount sample_no_capacity + 5
       /\ estimate sample_hash sample_digest sample_no_capacity "a" = Ok e
       /\ estimate sample_hash sample_digest wd' "a" = Ok (e + 5)
       /\ _heap (sk wd') = [] /\ entries wd' = [].
Proof.
  destruct (update_without_capacity_raises sample_hash sample_digest 4 2 0
              sample_no_capacity "a" 5) as [Hnever Hindex].
  - lia.
  - lia.
  - lia.
  - exists empty_memory, sample_no_capacity, []. split; [reflexivity|].
    constructor.
  - split; [exact Hnever|]. apply Hindex.
    + lia.
    + vm_compute. discriminate.
Defined.

(** X7: a weight above the range of a C long is not rejected up front: on
    a sketch of positive width and depth the call raises OverflowError at
    the first counter, after the total count has been increased by the
    weight; the counters and the tracker are as before. *)
Theorem update_overflow_keeps_total_change (py_hash md5 : string -> Z)
    (w d k : Z) (wd : World) (item : string) (count : Z) :
  0 < w -> 0 < d -> reachable py_hash md5 w d k wd ->
  PyArray.LONG_MAX < count ->
  update py_hash md5 wd item count
  = (Raise OverflowError,
     mkWorld (mem wd) (with_n (sk wd) (totalCount wd + count))).
Proof.
  intros Hw Hd Hr Hc.
  destruct (reachable_inv _ _ _ _ _ _ Hr) as (I & Hw' & Hd' & _).
  pose proof (reachable_bounded _ _ _ _ _ _ Hr) as B.
  pose proof long_range as [_ Hmax].
  rewrite update_unfold.
  destruct (Z.ltb_spec count 0); [lia|].
  pose proof (inv_tables _ I) as Hlen.
  pose proof (hash_length py_hash md5 (sk wd) item) as Hhl.
  pose proof (hash_columns py_hash md5 (sk wd) item ltac:(lia)) as Hcols.
  pose proof (inv_rows _ I) as Hrows.
  unfold counters_bounded in B.
  destruct (_tables (sk wd)) as [|table ts] eqn:Et;
    [simpl in Hlen; lia|].
  destruct (_hash py_hash md5 (sk wd) item) as [|ri rest];
    [simpl in Hhl; lia|].
  inversion Hcols as [|? ? (idx & -> & Hidx) _]; subst.
  inversion Hrows as [|? ? Hrow _]; subst.
  inversion B as [|? ? [Hnn _] _]; subst.
  simpl. rewrite iadd_overflow; auto; [|now rewrite Hrow].
  unfold totalCount. f_equal. f_equal.
  destruct (sk wd); simpl in *. now subst.
Qed.

Lemma update_overflow_keeps_total_change_witness :
  update sample_hash sample_digest sample_world "a" (2 ^ 63)
  = (Raise OverflowError,
     mkWorld (mem sample_world)
       (with_n (sk sample_world) (totalCount sample_world + 2 ^ 63))).
Proof.
  apply (update_overflow_keeps_total_change sample_hash sample_digest 4 2 2).
  - lia.
  - lia.
  - exact sample_reachable.
  - vm_compute. reflexivity.
Defined.

(** ** The hash generator and the dimensions *)

Lemma hash_loop_in_width (md5 : string -> Z) (w : Z) (rows : list nat) :
  forall data, w <> 0 -> Forall (in_width w) (hash_loop md5 w data rows).
Proof.
  induction rows as [|i rest IH]; intros data Hw; simpl; constructor;
    auto.
  unfold py_mod. destruct (Z.eqb_spec w 0); [contradiction|].
  eexists; split; [reflexivity|]. split; intros H.
  - apply Z.mod_pos_bound. lia.
  - apply Z.mod_neg_bound. lia.
Qed.

Lemma getitem_empty (idx : Z) : PyArray.getitem [] idx = Raise IndexError.
Proof.
  unfold PyArray.getitem, PyArray.index. simpl.
  destruct (Z.leb_spec 0 idx), (Z.ltb_spec idx 0); simpl; try reflexivity;
    lia.
Qed.

Section DimensionFacts.

Variable py_hash : string -> Z.
Variable md5 : string -> Z.

Lemma negative_depth_tables (w d k : Z) (wd : World) :
  d < 0 -> reachable py_hash md5 w d k wd -> _tables (sk wd) = [].
Proof.
  intros Hd Hr. destruct (reachable_inv _ _ _ _ _ _ Hr) as (I & _ & Hd' & _).
  pose proof (inv_tables _ I) as Hl. rewrite Hd' in Hl.
  apply length_zero_iff_nil. rewrite Hl. lia.
Qed.

Lemma negative_width_first (w d k : Z) (wd : World) (x : string) :
  w < 0 -> 0 < d -> reachable py_hash md5 w d k wd ->
  exists ts idx rest,
    _tables (sk wd) = [] :: ts
    /\ _hash py_hash md5 (sk wd) x = Ok idx :: rest.
Proof.
  intros Hw Hd Hr.
  destruct (reachable_inv _ _ _ _ _ _ Hr) as (I & Hw' & Hd' & _).
  pose proof (inv_tables _ I) as Hl.
  pose proof (inv_rows _ I) as Hrows.
  pose proof (hash_length py_hash md5 (sk wd) x) as Hhl.
  assert (Hin : Forall (in_width (_w (sk wd))) (_hash py_hash md5 (sk wd) x))
    by (apply hash_loop_in_width; lia).
  destruct (_tables (sk wd)) as [|row ts]; [simpl in Hl; lia|].
  destruct (_hash py_hash md5 (sk wd) x) as [|r rest]; [simpl in Hhl; lia|].
  inversion Hrows as [|? ? Hrow _]; subst.
  inversion Hin as [|? ? (idx & -> & _) _]; subst.
  exists ts, idx, rest. split; [|reflexivity]. f_equal.
  apply length_zero_iff_nil. rewrite Hrow. lia.
Qed.

End DimensionFacts.

(** X8: for a sketch of width [w <> 0] and any item, [_hash] yields one
    index per row, [d] in all, and each one is a value of Python's [%]:
    within [0, w) for a positive width, within (w, 0] for a negative one.
    The generator itself never raises. *)
Theorem hash_yields_one_index_per_row (py_hash md5 : string -> Z)
    (s : CountMinSketch) (item : string) :
  _w s <> 0 ->
  length (_hash py_hash md5 s item) = Z.to_nat (_d s)
  /\ Forall (in_width (_w s)) (_hash py_hash md5 s item).
Proof.
  intros Hw. split; [apply hash_length|].
  now apply hash_loop_in_width.
Qed.

Lemma hash_yields_one_index_per_row_witness :
  length (_hash sample_hash sample_digest (sk sample_world) "a")
  = Z.to_nat (_d (sk sample_world))
  /\ Forall (in_width (_w (sk sample_world)))
       (_hash sample_hash sample_digest (sk sample_world) "a").
Proof.
  apply hash_yields_one_index_per_row. vm_compute. discriminate.
Defined.

(** X9: a new sketch of positive width and depth is empty: its total
    count is zero, the estimate of every item is zero, its heap and its
    reverse index are empty and [heavyHitters] returns an empty
    dictionary. *)
Theorem new_sketch_is_empty (py_hash md5 : string -> Z) (m : Memory)
    (w d k : Z) (wd : World) :
  0 < w -> 0 < d -> construct m w d k = Ok wd ->
  totalCount wd = 0
  /\ (forall x, estimate py_hash md5 wd x = Ok 0)
  /\ _heap (sk wd) = [] /\ entries wd = []
  /\ forall snap wd', heavyHitters wd = (snap, wd') ->
       dict_cells (mem wd') snap = [].
Proof.
  intros Hw Hd Hc.
  destruct (construct_inv _ _ _ _ _ Hc)
    as (I & Hw' & Hd' & _ & Hn & Hh & He & _).
  split; [exact Hn|]. split; [|split; [exact Hh|split; [exact He|]]].
  - intros x.
    destruct (estimate_bounded py_hash md5 wd x I
                (construct_bounded _ _ _ _ _ Hc) ltac:(lia) ltac:(lia))
      as (e & -> & Hb).
    f_equal. lia.
  - intros snap wd' H.
    destruct (heavyHitters_spec _ _ _ I H) as (_ & _ & _ & Hview & _).
    apply length_zero_iff_nil. rewrite <- view_length, Hview, view_length.
    fold (entries wd). now rewrite He.
Qed.

Lemma new_sketch_is_empty_witness :
  totalCount sample_start = 0
  /\ (forall x, estimate sample_hash sample_digest sample_start x = Ok 0)
  /\ _heap (sk sample_start) = [] /\ entries sample_start = []
  /\ forall snap wd', heavyHitters sample_start = (snap, wd') ->
       dict_cells (mem wd') snap = [].
Proof.
  apply (new_sketch_is_empty sample_hash sample_digest empty_memory 4 2 2).
  - lia.
  - lia.
  - reflexivity.
Defined.

(** X10: a negative depth is accepted by the constructor, but the sketch
    it builds has no rows: every [estimate] raises ValueError ([min] of an
    empty sequence), and every [update] with a weight that is not negative
    raises ValueError too, after it has added the weight to the total
    count. *)
Theorem negative_depth_sketch_raises (py_hash md5 : string -> Z)
    (w d k : Z) (wd : World) (x : string) (count : Z) :
  d < 0 -> reachable py_hash md5 w d k wd -> 0 <= count ->
  estimate py_hash md5 wd x = Raise ValueError
  /\ update py_hash md5 wd x count
     = (Raise ValueError,
        mkWorld (mem wd) (with_n (sk wd) (totalCount wd + count))).
Proof.
  intros Hd Hr Hc.
  pose proof (negative_depth_tables _ _ _ _ _ _ Hd Hr) as Ht.
  split.
  - unfold estimate. now rewrite Ht.
  - rewrite update_unfold. rewrite (proj2 (Z.ltb_ge _ _) Hc). rewrite Ht.
    simpl. unfold _update_heap, estimate. simpl.
    unfold totalCount. f_equal. f_equal.
    destruct (sk wd); simpl in *. now subst.
Qed.

Lemma negative_depth_sketch_raises_witness :
  estimate sample_hash sample_digest sample_negative_depth "a"
  = Raise ValueError
  /\ update sample_hash sample_digest sample_negative_depth "a" 5
     = (Raise ValueError,
        mkWorld (mem sample_negative_depth)
          (with_n (sk sample_negative_depth)
             (totalCount sample_negative_depth + 5))).
Proof.
  apply (negative_depth_sketch_raises sample_hash sample_digest 4 (-2) 10).
  - lia.
  - exists empty_memory, sample_negative_depth, [].
    split; [reflexivity|constructor].
  - lia.
Defined.

(** X11: a negative width is accepted by the constructor, but the rows of
    the sketch it builds are empty: with a positive depth every [estimate]
    raises IndexError, and every [update] with a weight that is not
    negative raises IndexError at the first row, after it has added the
    weight to the total count. *)
Theorem negative_width_sketch_raises (py_hash md5 : string -> Z)
    (w d k : Z) (wd : World) (x : string) (count : Z) :
  w < 0 -> 0 < d -> reachable py_hash md5 w d k wd -> 0 <= count ->
  estimate py_hash md5 wd x = Raise IndexError
  /\ update py_hash md5 wd x count
     = (Raise IndexError,
        mkWorld (mem wd) (with_n (sk wd) (totalCount wd + count))).
Proof.
  intros Hw Hd Hr Hc.
  destruct (negative_width_first _ _ _ _ _ _ x Hw Hd Hr)
    as (ts & idx & rest & Ht & Hh).
  split.
  - unfold estimate. rewrite Ht, Hh. simpl. now rewrite getitem_empty.
  - rewrite update_unfold. rewrite (proj2 (Z.ltb_ge _ _) Hc).
    rewrite Ht, Hh. simpl. unfold PyArray.iadd. rewrite getitem_empty.
    simpl. unfold totalCount. f_equal. f_equal.
    destruct (sk wd); simpl in *. now subst.
Qed.

Lemma negative_width_sketch_raises_witness :
  estimate sample_hash sample_digest sample_negative_width "a"
  = Raise IndexError
  /\ update sample_hash sample_digest sample_negative_width "a" 5
     = (Raise IndexError,
        mkWorld (mem sample_negative_width)
          (with_n (sk sample_negative_width)
             (totalCount sample_negative_width + 5))).
Proof.
  apply (negative_width_sketch_raises sample_hash sample_digest (-1) 3 10).
  - lia.
  - lia.
  - exists empty_memory, sample_negative_width, [].
    split; [reflexivity|constructor].
  - lia.
Defined.

(** ** The tracker after an update *)

Section TrackerCases.

Variable py_hash : string -> Z.
Variable md5 : string -> Z.

(** A call of [update] that got past the counter loop: the state in which
    [_update_heap] ran, and the estimate it computed there. *)
Lemma update_through_tracker (wd wd' : World) (item : string) (count : Z) :
  Inv wd -> update py_hash md5 wd item count = (Ok tt, wd') ->
  exists tables,
    let wd1 := mkWorld (mem wd)
                 (with_tables (with_n (sk wd) (_n (sk wd) + count)) tables) in
    Inv wd1
    /\ _update_heap py_hash md5 wd1 item = (Ok tt, wd')
    /\ estimate py_hash md5 wd' item = estimate py_hash md5 wd1 item.
Proof.
  intros I Hu.
  apply update_cases in Hu
    as [(_ & [=] & _)|(Hc & r1 & tables & Hadd & Hu)].
  simpl in Hu. destruct r1 as [[]|e]; [|destruct Hu; discriminate].
  destruct (add_count_shape _ _ _ _ _ _ Hadd (inv_rows _ I)) as [Hl Hs].
  exists tables. cbv zeta. split; [|split].
  - exact (inv_tables_update wd (_n (sk wd) + count) tables I Hl Hs).
  - exact Hu.
  - destruct (update_heap_tables _ _ _ _ _ _ Hu) as (Ht & Hw & Hd & _).
    unfold estimate. now rewrite Ht, (hash_params _ _ _ _ item Hw Hd).
Qed.

Lemma owned_cell_after_new_pair (wd : World) (v : Z * string) (a : nat) :
  Inv wd -> owns_pair wd a ->
  pair_cells (snd (new_pair (mem wd) v)) a = pair_cells (mem wd) a.
Proof.
  intros I Ha. pose proof (inv_owned_allocated _ _ I Ha). simpl.
  destruct (Nat.eqb_spec a (next_pair (mem wd))); [lia|reflexivity].
Qed.

End TrackerCases.

(** X12: an [update] that returns, for an item that is tracked, stores the
    item's new estimate in the list the reverse index holds for it; the
    reverse index keeps its entries, the heap keeps its lists (reordered),
    and the other lists keep their contents. *)
Theorem tracked_item_is_refreshed (py_hash md5 : string -> Z) (w d k : Z)
    (wd wd' : World) (item : string) (count : Z) (a : nat) :
  reachable py_hash md5 w d k wd ->
  dict_get (entries wd) item = Some a ->
  update py_hash md5 wd item count = (Ok tt, wd') ->
  exists est,
    estimate py_hash md5 wd' item = Ok est
    /\ pair_cells (mem wd') a = (est, item)
    /\ entries wd' = entries wd
    /\ Permutation (_heap (sk wd')) (_heap (sk wd))
    /\ forall b, b <> a -> pair_cells (mem wd') b = pair_cells (mem wd) b.
Proof.
  intros Hr Hget Hu.
  destruct (reachable_inv _ _ _ _ _ _ Hr) as (I & _).
  destruct (update_through_tracker _ _ _ _ _ _ I Hu)
    as (tables & I1 & Hu1 & Hest).
  cbv zeta in I1, Hu1, Hest.
  destruct (update_heap_cases _ _ _ _ _ _ I1 Hu1)
    as [(e & _ & [=] & _)|(est & Eest & Hcases)].
  cbv zeta in Hcases. unfold entries in Hcases. simpl in Hcases.
  fold (entries wd) in Hcases.
  exists est. rewrite Hest, Eest. split; [reflexivity|].
  destruct (inv_heap_of_entry _ _ _ I Hget) as [_ Hitem].
  destruct Hcases as [(a' & Hget' & _ & ->)|Hcases].
  - assert (a' = a) by congruence. subst a'. simpl.
    rewrite Nat.eqb_refl, Hitem. split; [reflexivity|].
    split; [reflexivity|]. split; [apply heapify_perm|].
    intros b Hb. destruct (Nat.eqb_spec b a); [contradiction|reflexivity].
  - destruct Hcases as [(Hn & _)|[(Hn & _)|[(Hn & _)|(Hn & _)]]];
      congruence.
Qed.

Lemma tracked_item_is_refreshed_witness :
  exists est,
    estimate sample_hash sample_digest
      (snd (update sample_hash sample_digest sample_world "a" 2)) "a"
    = Ok est
    /\ pair_cells
         (mem (snd (update sample_hash sample_digest sample_world "a" 2))) 0
       = (est, String "a" EmptyString)
    /\ entries (snd (update sample_hash sample_digest sample_world "a" 2))
       = entries sample_world
    /\ Permutation
         (_heap (sk (snd (update sample_hash sample_digest sample_world
                            "a" 2))))
         (_heap (sk sample_world))
    /\ forall b, b <> 0%nat ->
         pair_cells
           (mem (snd (update sample_hash sample_digest sample_world "a" 2)))
           b
         = pair_cells (mem sample_world) b.
Proof.
  apply (tracked_item_is_refreshed sample_hash sample_digest 4 2 2
           sample_world _ "a" 2 0%nat).
  - exact sample_reachable.
  - reflexivity.
  - reflexivity.
Defined.

(** X13: an [update] that returns, for an item that is not tracked, while
    the heap holds fewer than [k] lists, makes the item tracked: a new list
    with the item's estimate and the item enters the heap and becomes the
    last entry of the reverse index; the lists that were there keep their
    contents. *)
Theorem untracked_item_enters_free_place (py_hash md5 : string -> Z)
    (w d k : Z) (wd wd' : World) (item : string) (count : Z) :
  reachable py_hash md5 w d k wd ->
  dict_get (entries wd) item = None ->
  Z.of_nat (length (_heap (sk wd))) < k ->
  update py_hash md5 wd item count = (Ok tt, wd') ->
  exists est,
    estimate py_hash md5 wd' item = Ok est
    /\ entries wd' = entries wd ++ [(item, next_pair (mem wd))]
    /\ pair_cells (mem wd') (next_pair (mem wd)) = (est, item)
    /\ Permutation (_heap (sk wd')) (next_pair (mem wd) :: _heap (sk wd))
    /\ forall b, b <> next_pair (mem wd) ->
         pair_cells (mem wd') b = pair_cells (mem wd) b.
Proof.
  intros Hr Hget Hroom Hu.
  destruct (reachable_inv _ _ _ _ _ _ Hr) as (I & _ & _ & Hk).
  destruct (update_through_tracker _ _ _ _ _ _ I Hu)
    as (tables & I1 & Hu1 & Hest).
  cbv zeta in I1, Hu1, Hest.
  destruct (update_heap_cases _ _ _ _ _ _ I1 Hu1)
    as [(e & _ & [=] & _)|(est & Eest & Hcases)].
  cbv zeta in Hcases. unfold entries in Hcases. simpl in Hcases.
  fold (entries wd) in Hcases.
  exists est. rewrite Hest, Eest. split; [reflexivity|].
  destruct Hcases as [(a' & Hget' & _)
                     |[(_ & _ & _ & ->)
                      |[(_ & Hfull & _)
                       |[(_ & Hfull & _)|(_ & Hfull & _)]]]];
    try congruence; try lia.
  split.
  { unfold entries. simpl. rewrite Nat.eqb_refl. now apply dict_set_fresh. }
  simpl. rewrite Nat.eqb_refl.
  split; [reflexivity|]. split; [apply heappush_perm|].
  intros b Hb.
  destruct (Nat.eqb_spec b (next_pair (mem wd))); [contradiction|reflexivity].
Qed.

Lemma untracked_item_enters_free_place_witness :
  exists est,
    estimate sample_hash sample_digest
      (snd (update sample_hash sample_digest sample_start "a" 5)) "a"
    = Ok est
    /\ entries (snd (update sample_hash sample_digest sample_start "a" 5))
       = entries sample_start
           ++ [(String "a" EmptyString, next_pair (mem sample_start))]
    /\ pair_cells
         (mem (snd (update sample_hash sample_digest sample_start "a" 5)))
         (next_pair (mem sample_start))
       = (est, String "a" EmptyString)
    /\ Permutation
         (_heap (sk (snd (update sample_hash sample_digest sample_start
                            "a" 5))))
         (next_pair (mem sample_start) :: _heap (sk sample_start))
    /\ forall b, b <> next_pair (mem sample_start) ->
         pair_cells
           (mem (snd (update sample_hash sample_digest sample_start "a" 5)))
           b
         = pair_cells (mem sample_start) b.
Proof.
  apply (untracked_item_enters_free_place sample_hash sample_digest 4 2 2
           sample_start _ "a" 5).
  - exists empty_memory, sample_start, []. split; [reflexivity|constructor].
  - reflexivity.
  - vm_compute. reflexivity.
  - reflexivity.
Defined.

(** ** Where the entries of the reverse index come from *)

Lemma dict_get_app (es : list (string * nat)) (k x : string) (v : nat) :
  dict_get (es ++ [(k, v)]) x
  = match dict_get es x with
    | Some b => Some b
    | None => if String.eqb k x then Some v else None
    end.
Proof.
  induction es as [|[k' v'] es IH]; simpl; [reflexivity|].
  destruct (String.eqb k' x); auto.
Qed.

Lemma dict_remove_get_same (es : list (string * nat)) (k : string) :
  NoDup (map fst es) -> dict_get (dict_remove es k) k = None.
Proof.
  induction es as [|[k' v'] es IH]; simpl; [reflexivity|].
  intros Hnd. inversion Hnd as [|? ? Hnotin Hnd']; subst.
  destruct (String.eqb_spec k' k) as [->|Hne].
  - now apply dict_get_not_in.
  - simpl. destruct (String.eqb_spec k' k); [contradiction|]. auto.
Qed.

Section OriginFacts.

Variable py_hash : string -> Z.
Variable md5 : string -> Z.

Lemma update_estimate_monotone (wd wd' : World) (item x : string)
    (count e : Z) (r : result unit) :
  Inv wd -> 0 < _w (sk wd) ->
  update py_hash md5 wd item count = (r, wd') ->
  estimate py_hash md5 wd x = Ok e ->
  exists e', estimate py_hash md5 wd' x = Ok e' /\ e <= e'.
Proof.
  intros I Hw Hu He. unfold estimate in He |- *.
  destruct (estimate_values (_tables (sk wd)) (_hash py_hash md5 (sk wd) x))
    as [vs|] eqn:Hvs; [|discriminate].
  simpl in He.
  destruct (update_counters _ _ _ _ _ x _ _ _ I Hw Hu Hvs)
    as (vs' & Hvs' & Hle & _).
  rewrite Hvs'. simpl. exact (py_min_monotone _ _ _ Hle He).
Qed.

(** After a call of [update], an entry of the reverse index is either the
    one of the updated item, whose list then holds the item's new estimate,
    or an entry that was there before, whose list is untouched. *)
Lemma update_heap_entry_origin (wd wd' : World) (item x : string)
    (r : result unit) (b : nat) :
  Inv wd -> _update_heap py_hash md5 wd item = (r, wd') ->
  dict_get (entries wd') x = Some b ->
  (x = item /\ exists est, estimate py_hash md5 wd item = Ok est
                           /\ pair_cells (mem wd') b = (est, item))
  \/ (dict_get (entries wd) x = Some b
      /\ pair_cells (mem wd') b = pair_cells (mem wd) b).
Proof.
  intros I Hu Hx.
  assert (Hold : forall y c, dict_get (entries wd) y = Some c ->
            pair_cells (snd (new_pair (mem wd) (0, y))) c
            = pair_cells (mem wd) c -> owns_pair wd c).
  { intros y c Hy _. right. apply dict_get_some in Hy.
    change c with (snd (y, c)). now apply in_map. }
  assert (Hown : forall y c, dict_get (entries wd) y = Some c ->
            owns_pair wd c).
  { intros y c Hy. right. apply dict_get_some in Hy.
    change c with (snd (y, c)). now apply in_map. }
  clear Hold.
  destruct (update_heap_cases _ _ _ _ _ _ I Hu)
    as [(e & _ & _ & ->)|(est & Eest & Hcases)]; [now right|].
  cbv zeta in Hcases.
  destruct Hcases as [(a & Hget & _ & ->)
                     |[(Hget & _ & _ & ->)
                      |[(Hget & _ & _ & _ & ->)
                       |[(Hget & _ & h0 & rest & _ & _ & _ & ->)
                        |(Hget & _ & h0 & rest & Hheap & Hlt & _ & ->)]]]].
  - (* refreshed *)
    unfold entries in Hx. simpl in Hx. fold (entries wd) in Hx. simpl.
    destruct (Nat.eqb_spec b a) as [->|Hne]; [|now right].
    left.
    destruct (inv_heap_of_entry _ _ _ I Hx) as [_ Hxa].
    destruct (inv_heap_of_entry _ _ _ I Hget) as [_ Hia].
    split; [congruence|]. exists est. rewrite Hia. auto.
  - (* inserted *)
    unfold entries in Hx. simpl in Hx. rewrite Nat.eqb_refl in Hx.
    fold (entries wd) in Hx.
    rewrite (dict_set_fresh _ _ _ Hget), dict_get_app in Hx. simpl.
    destruct (dict_get (entries wd) x) as [c|] eqn:Ex.
    + injection Hx as <-. right. split; [reflexivity|].
      pose proof (inv_owned_allocated _ _ I (Hown _ _ Ex)).
      destruct (Nat.eqb_spec c (next_pair (mem wd))); [lia|reflexivity].
    + destruct (String.eqb_spec item x) as [<-|]; [|discriminate].
      injection Hx as <-. left. split; [reflexivity|]. exists est.
      now rewrite Nat.eqb_refl.
  - (* no place, empty heap *)
    unfold entries in Hx. simpl in Hx. fold (entries wd) in Hx.
    right. split; [assumption|].
    now apply owned_cell_after_new_pair, (Hown x).
  - (* kept *)
    unfold entries in Hx. simpl in Hx. fold (entries wd) in Hx.
    right. split; [assumption|].
    now apply owned_cell_after_new_pair, (Hown x).
  - (* replaced *)
    destruct (evict_root wd item est h0 rest I Hheap Hlt) as (Hcell & _ & _).
    unfold entries in Hx. simpl in Hx. rewrite Nat.eqb_refl in Hx.
    fold (entries wd) in Hx.
    set (gone := snd (pair_cells (snd (new_pair (mem wd) (est, item))) h0))
      in *.
    assert (Hin : In h0 (_heap (sk wd))) by (rewrite Hheap; now left).
    assert (Hkey : dict_get (entries wd) gone = Some h0).
    { unfold gone. rewrite Hcell. now apply inv_entry_of_heap. }
    assert (Hne : item <> gone) by (intros E; congruence).
    assert (Hget1 : dict_get (dict_remove (entries wd) gone) item = None).
    { rewrite dict_remove_get_other by congruence. assumption. }
    rewrite (dict_set_fresh _ _ _ Hget1), dict_get_app in Hx. simpl.
    destruct (dict_get (dict_remove (entries wd) gone) x) as [c|] eqn:Ex.
    + injection Hx as <-. right.
      destruct (String.eqb_spec x gone) as [->|Hxg].
      * rewrite (dict_remove_get_same _ _ (inv_keys_nodup _ I)) in Ex.
        discriminate.
      * rewrite dict_remove_get_other in Ex by assumption.
        split; [assumption|].
        pose proof (inv_owned_allocated _ _ I (Hown _ _ Ex)).
        destruct (Nat.eqb_spec c (next_pair (mem wd))); [lia|reflexivity].
    + destruct (String.eqb_spec item x) as [<-|]; [|discriminate].
      injection Hx as <-. left. split; [reflexivity|]. exists est.
      now rewrite Nat.eqb_refl.
Qed.

Lemma update_entry_origin (wd wd' : World) (item x : string) (count : Z)
    (r : result unit) (b : nat) :
  Inv wd -> update py_hash md5 wd item count = (r, wd') ->
  dict_get (entries wd') x = Some b ->
  (x = item /\ exists est, estimate py_hash md5 wd' item = Ok est
                           /\ pair_cells (mem wd') b = (est, item))
  \/ (dict_get (entries wd) x = Some b
      /\ pair_cells (mem wd') b = pair_cells (mem wd) b).
Proof.
  intros I Hu Hx.
  apply update_cases in Hu
    as [(_ & _ & ->)|(Hc & r1 & tables & Hadd & Hu)]; [now right|].
  simpl in Hu. destruct r1 as [[]|e]; [|destruct Hu as [_ ->]; now right].
  destruct (add_count_shape _ _ _ _ _ _ Hadd (inv_rows _ I)) as [Hl Hs].
  pose proof (inv_tables_update wd (_n (sk wd) + count) tables I Hl Hs)
    as I1.
  destruct (update_heap_entry_origin _ _ _ x _ _ I1 Hu Hx)
    as [(-> & est & Eest & Hcell)|H]; [|now right].
  left. split; [reflexivity|]. exists est. split; [|assumption].
  destruct (update_heap_tables _ _ _ _ _ _ Hu) as (Ht & Hw & Hd & _).
  unfold estimate in Eest |- *.
  now rewrite Ht, (hash_params _ _ _ _ item Hw Hd).
Qed.

Lemma step_stored (wd wd' : World) (ev : event) :
  Inv wd -> 0 < _w (sk wd) -> stored_not_above py_hash md5 wd ->
  step py_hash md5 wd ev wd' -> stored_not_above py_hash md5 wd'.
Proof.
  intros I Hw S H.
  assert (Hframe : forall m', frame wd m' ->
            stored_not_above py_hash md5 (mkWorld m' (sk wd))).
  { intros m' F x a Hx. unfold entries in Hx. simpl in Hx.
    rewrite (frame_dict _ _ F) in Hx.
    destruct (S x a Hx) as (e & He & Hle). exists e. split; [exact He|].
    simpl. rewrite (frame_pairs _ _ F); [assumption|].
    right. apply dict_get_some in Hx.
    change a with (snd (x, a)). now apply in_map. }
  destruct H as [wd item count r wd' H|wd d wd' H|wd m' F].
  - intros x b Hx.
    destruct (update_entry_origin _ _ _ x _ _ _ I H Hx)
      as [(-> & est & Eest & Hcell)|[Hold Hcell]].
    + exists est. rewrite Hcell. simpl. split; [assumption|lia].
    + destruct (S x b Hold) as (e & He & Hle).
      destruct (update_estimate_monotone _ _ _ x _ _ _ I Hw H He)
        as (e' & He' & Hee).
      exists e'. rewrite Hcell. split; [assumption|lia].
  - destruct (heavyHitters_spec _ _ _ I H) as (Hsk & F & _).
    specialize (Hframe _ F). rewrite <- Hsk in Hframe.
    now destruct wd'.
  - now apply Hframe.
Qed.

Lemma reachable_stored (w d k : Z) (wd : World) :
  0 < w -> reachable py_hash md5 w d k wd ->
  stored_not_above py_hash md5 wd.
Proof.
  intros Hw (m & wd0 & evs & Hc & Hs).
  destruct (construct_inv _ _ _ _ _ Hc) as (I0 & Hw0 & _ & _ & _ & _ & He & _).
  assert (S0 : stored_not_above py_hash md5 wd0).
  { intros x a Hx. rewrite He in Hx. discriminate. }
  rewrite <- Hw0 in Hw. clear Hc Hw0 He.
  induction Hs as [wd|wd ev wd1 evs wd2 Hs _ IH]; [assumption|].
  apply IH.
  - now rewrite (proj1 (step_params _ _ _ _ _ I0 Hs)).
  - eapply step_inv; eauto.
  - eapply step_stored; eauto.
Qed.

End OriginFacts.

(** X14: after an [update] that returns, the updated item is tracked
    exactly when it was tracked before, or the heap had a free place, or
    its new estimate is above the smallest stored estimate; when it is
    tracked its list holds the new estimate.  The entries of the other
    items that remain are the ones that were there, their lists
    untouched. *)
Theorem update_tracks_item_iff (py_hash md5 : string -> Z) (w d k : Z)
    (wd wd' : World) (item : string) (count : Z) :
  reachable py_hash md5 w d k wd ->
  update py_hash md5 wd item count = (Ok tt, wd') ->
  exists est,
    estimate py_hash md5 wd' item = Ok est
    /\ ((exists a, dict_get (entries wd') item = Some a)
        <-> ((exists a, dict_get (entries wd) item = Some a)
             \/ Z.of_nat (length (_heap (sk wd))) < k
             \/ exists low, min_tracked wd = Ok low /\ low < est))
    /\ (forall a, dict_get (entries wd') item = Some a ->
          pair_cells (mem wd') a = (est, item))
    /\ (forall x b, x <> item -> dict_get (entries wd') x = Some b ->
          dict_get (entries wd) x = Some b
          /\ pair_cells (mem wd') b = pair_cells (mem wd) b).
Proof.
  intros Hr Hu.
  destruct (reachable_inv _ _ _ _ _ _ Hr) as (I & _ & _ & Hk).
  assert (Hothers : forall x b, x <> item ->
            dict_get (entries wd') x = Some b ->
            dict_get (entries wd) x = Some b
            /\ pair_cells (mem wd') b = pair_cells (mem wd) b).
  { intros x b Hne Hx.
    destruct (update_entry_origin _ _ _ _ _ x _ _ _ I Hu Hx)
      as [(-> & _)|H]; [contradiction|assumption]. }
  destruct (update_through_tracker _ _ _ _ _ _ I Hu)
    as (tables & I1 & Hu1 & Hest).
  cbv zeta in I1, Hu1, Hest.
  destruct (update_heap_cases _ _ _ _ _ _ I1 Hu1)
    as [(e & _ & [=] & _)|(est & Eest & Hcases)].
  cbv zeta in Hcases. unfold entries in Hcases. simpl in Hcases.
  fold (entries wd) in Hcases.
  exists est. rewrite Hest, Eest. split; [reflexivity|].
  destruct Hcases as [(a & Hget & _ & Hwd')
                     |[(Hget & Hroom & _ & Hwd')
                      |[(_ & _ & _ & [=] & _)
                       |[(Hget & Hfull & h0 & rest & Hheap & Hle & _ & Hwd')
                        |(Hget & Hfull & h0 & rest & Hheap & Hlt & _ & Hwd')]]]].
  - (* refreshed *)
    assert (He : entries wd' = entries wd) by (now subst wd').
    destruct (inv_heap_of_entry _ _ _ I Hget) as [_ Hitem].
    split; [|split; [|exact Hothers]].
    + rewrite He. split; eauto.
    + intros a' Ha'. rewrite He, Hget in Ha'. injection Ha' as <-.
      subst wd'. simpl. now rewrite Nat.eqb_refl, Hitem.
  - (* inserted *)
    assert (He : dict_get (entries wd') item = Some (next_pair (mem wd))).
    { subst wd'. unfold entries. simpl. rewrite Nat.eqb_refl.
      fold (entries wd). rewrite (dict_set_fresh _ _ _ Hget), dict_get_app.
      fold (entries wd) in Hget. rewrite Hget. now rewrite String.eqb_refl. }
    split; [|split; [|exact Hothers]].
    + split; [intros _; right; left; lia|eauto].
    + intros a' Ha'. rewrite He in Ha'. injection Ha' as <-.
      subst wd'. simpl. now rewrite Nat.eqb_refl.
  - (* kept *)
    assert (He : entries wd' = entries wd) by (now subst wd').
    assert (Hin : In h0 (_heap (sk wd))) by (rewrite Hheap; now left).
    pose proof (owned_cell_after_new_pair wd (est, item) h0 I
                  (or_introl Hin)) as Hcell.
    simpl in Hcell. rewrite Hcell in Hle.
    pose proof (min_tracked_root wd h0 rest I Hheap) as Hmin.
    split; [|split; [|exact Hothers]].
    + rewrite He. split.
      * intros [a Ha]. fold (entries wd) in Hget. congruence.
      * intros [[a Ha]|[Hroom|(low & Hlow & Hlt)]].
        -- fold (entries wd) in Hget. congruence.
        -- lia.
        -- rewrite Hmin in Hlow. injection Hlow as <-. lia.
    + intros a' Ha'. rewrite He in Ha'. fold (entries wd) in Hget.
      congruence.
  - (* replaced *)
    destruct (evict_root wd item est h0 rest I Hheap Hlt) as (Hcell & _ & _).
    pose proof (min_tracked_root wd h0 rest I Hheap) as Hmin.
    assert (Hin : In h0 (_heap (sk wd))) by (rewrite Hheap; now left).
    fold (entries wd) in Hget.
    assert (He : dict_get (entries wd') item = Some (next_pair (mem wd))).
    { pose proof Hcell as Hcell'. simpl in Hcell'.
      subst wd'. unfold entries. simpl. rewrite Nat.eqb_refl.
      fold (entries wd). rewrite Hcell'.
      set (gone := snd (pair_cells (mem wd) h0)).
      assert (Hkey : dict_get (entries wd) gone = Some h0).
      { unfold gone. now apply inv_entry_of_heap. }
      assert (Hne : item <> gone) by (intros E; congruence).
      assert (Hget1 : dict_get (dict_remove (entries wd) gone) item = None).
      { rewrite dict_remove_get_other by congruence. assumption. }
      rewrite (dict_set_fresh _ _ _ Hget1), dict_get_app, Hget1.
      now rewrite String.eqb_refl. }
    split; [|split; [|exact Hothers]].
    + split; [intros _|eauto]. right. right.
      exists (fst (pair_cells (mem wd) h0)). split; [assumption|].
      now rewrite <- Hcell.
    + intros a' Ha'. rewrite He in Ha'. injection Ha' as <-.
      subst wd'. simpl. now rewrite Nat.eqb_refl.
Qed.

Lemma update_tracks_item_iff_witness :
  exists est,
    estimate sample_hash sample_digest
      (snd (update sample_hash sample_digest sample_world "c" 9)) "c"
    = Ok est
    /\ ((exists a,
           dict_get
             (entries (snd (update sample_hash sample_digest sample_world
                              "c" 9))) "c" = Some a)
        <-> ((exists a, dict_get (entries sample_world) "c" = Some a)
             \/ Z.of_nat (length (_heap (sk sample_world))) < 2
             \/ exists low, min_tracked sample_world = Ok low /\ low < est))
    /\ (forall a,
          dict_get
            (entries (snd (update sample_hash sample_digest sample_world
                             "c" 9))) "c" = Some a ->
          pair_cells
            (mem (snd (update sample_hash sample_digest sample_world "c" 9)))
            a
          = (est, String "c" EmptyString))
    /\ (forall x b, x <> String "c" EmptyString ->
          dict_get
            (entries (snd (update sample_hash sample_digest sample_world
                             "c" 9))) x = Some b ->
          dict_get (entries sample_world) x = Some b
          /\ pair_cells
               (mem (snd (update sample_hash sample_digest sample_world
                            "c" 9))) b
             = pair_cells (mem sample_world) b).
Proof.
  apply (update_tracks_item_iff sample_hash sample_digest 4 2 2
           sample_world _ "c" 9).
  - exact sample_reachable.
  - reflexivity.
Defined.

(** X15: the estimate that the tracker stores for an item, which is what
    [heavyHitters] reports, is never above the item's current estimate: it
    is the estimate as of the item's last update, and estimates only
    grow. *)
Theorem reported_estimate_not_above_current (py_hash md5 : string -> Z)
    (w d k : Z) (wd wd' : World) (snap : nat) (x : string) (v : Z * string) :
  0 < w -> reachable py_hash md5 w d k wd ->
  heavyHitters wd = (snap, wd') ->
  In (x, v) (view (mem wd') snap) ->
  exists e, estimate py_hash md5 wd x = Ok e /\ fst v <= e /\ snd v = x.
Proof.
  intros Hw Hr Hh Hin.
  destruct (reachable_inv _ _ _ _ _ _ Hr) as (I & _).
  destruct (heavyHitters_spec _ _ _ I Hh) as (_ & _ & _ & Hview & _).
  rewrite Hview in Hin. unfold view in Hin. fold (entries wd) in Hin.
  apply in_map_iff in Hin as ([x' a] & [= -> <-] & Hin).
  pose proof (dict_get_in _ _ _ (inv_keys_nodup _ I) Hin) as Hget.
  destruct (reachable_stored py_hash md5 w d k wd Hw Hr x a Hget)
    as (e & He & Hle).
  exists e. split; [assumption|]. split; [assumption|].
  exact (proj2 (inv_heap_of_entry _ _ _ I Hget)).
Qed.

Lemma reported_estimate_not_above_current_witness :
  exists e, estimate sample_hash sample_digest sample_world "a" = Ok e
            /\ fst (5, String "a" EmptyString) <= e
            /\ snd (5, String "a" EmptyString) = String "a" EmptyString.
Proof.
  apply (reported_estimate_not_above_current sample_hash sample_digest
           4 2 2 sample_world (snd sample_snapshot) (fst sample_snapshot)).
  - lia.
  - exact sample_reachable.
  - reflexivity.
  - vm_compute. now left.
Defined.

(** X16: in every reachable state the first list of the heap is the
    smallest one: no list of the heap compares below it, so its stored
    estimate is the smallest stored estimate, which is the one that
    [_update_heap] compares a new estimate with. *)
Theorem heap_root_is_smallest (py_hash md5 : string -> Z) (w d k : Z)
    (wd : World) (h0 : nat) (rest : list nat) :
  reachable py_hash md5 w d k wd -> _heap (sk wd) = h0 :: rest ->
  min_tracked wd = Ok (fst (pair_cells (mem wd) h0))
  /\ forall a, In a (_heap (sk wd)) ->
       lt_at (mem wd) a h0 = false
       /\ fst (pair_cells (mem wd) h0) <= fst (pair_cells (mem wd) a).
Proof.
  intros Hr Hheap.
  destruct (reachable_inv _ _ _ _ _ _ Hr) as (I & _).
  split; [now apply (min_tracked_root wd h0 rest)|].
  intros a Ha. apply In_nth_error in Ha as [i Hi].
  assert (H : lt_at (mem wd) a h0 = false).
  { apply (heap_root_min (lt_at (mem wd)) (lt_at_asym _) (lt_at_negtrans _)
             (_heap (sk wd)) h0 (inv_heap_ok _ I)
             ltac:(now rewrite Hheap) i).
    exact Hi. }
  split; [exact H|]. now apply list_lt_false_estimate.
Qed.

Lemma heap_root_is_smallest_witness :
  min_tracked sample_world = Ok (fst (pair_cells (mem sample_world) 0))
  /\ forall a, In a (_heap (sk sample_world)) ->
       lt_at (mem sample_world) a 0 = false
       /\ fst (pair_cells (mem sample_world) 0)
          <= fst (pair_cells (mem sample_world) a).
Proof.
  apply (heap_root_is_smallest sample_hash sample_digest 4 2 2 sample_world
           0%nat [1%nat]).
  - exact sample_reachable.
  - reflexivity.
Defined.

(** ** What the calls write to *)

Lemma heavyHitters_memory (wd wd' : World) (d : nat) :
  Inv wd -> heavyHitters wd = (d, wd') ->
  d = next_dict (mem wd)
  /\ (next_pair (mem wd) <= next_pair (mem wd'))%nat
  /\ next_dict (mem wd') = S (next_dict (mem wd))
  /\ (forall b, b <> d -> dict_cells (mem wd') b = dict_cells (mem wd) b)
  /\ (forall a, (a < next_pair (mem wd))%nat ->
        pair_cells (mem wd') a = pair_cells (mem wd) a)
  /\ Forall (fun e' => (next_pair (mem wd) <= snd e'
                        < next_pair (mem wd'))%nat)
       (dict_cells (mem wd') d).
Proof.
  intros I. unfold heavyHitters.
  destruct (deepcopy_dict (mem wd) (_top_k (sk wd))) as [d' m'] eqn:E.
  intros [= <- <-]. simpl.
  assert (Hes : Forall (fun e => (snd e < next_pair (mem wd))%nat)
                  (entries wd)).
  { apply Forall_forall. intros e He.
    apply (inv_owned_allocated wd (snd e) I). right. now apply in_map. }
  destruct (deepcopy_dict_spec _ _ _ _ E (inv_dict_alloc _ I) Hes)
    as (Hd & Hn & Hnd & Hdict & Hold & _ & Hfresh).
  auto 10.
Qed.

Section WriteFacts.

Variable py_hash : string -> Z.
Variable md5 : string -> Z.

(** [_update_heap] allocates at most one list, writes to lists the sketch
    owns and to its own dictionary, and owns afterwards only lists it
    owned or the new one. *)
Lemma update_heap_writes (wd wd' : World) (item : string) (r : result unit) :
  Inv wd -> _update_heap py_hash md5 wd item = (r, wd') ->
  (next_pair (mem wd) <= next_pair (mem wd'))%nat
  /\ next_dict (mem wd') = next_dict (mem wd)
  /\ (forall b, b <> _top_k (sk wd) ->
        dict_cells (mem wd') b = dict_cells (mem wd) b)
  /\ (forall c, ~ owns_pair wd c -> (c < next_pair (mem wd))%nat ->
        pair_cells (mem wd') c = pair_cells (mem wd) c)
  /\ (forall c, In c (_heap (sk wd')) ->
        In c (_heap (sk wd)) \/ c = next_pair (mem wd)).
Proof.
  intros I Hu.
  assert (Hfresh : forall c, (c < next_pair (mem wd))%nat ->
            (c =? next_pair (mem wd))%nat = false).
  { intros c Hc. apply Nat.eqb_neq. lia. }
  assert (Hdict : forall b es, b <> _top_k (sk wd) ->
            (if (b =? _top_k (sk wd))%nat then es
             else dict_cells (mem wd) b) = dict_cells (mem wd) b).
  { intros b es Hb. apply Nat.eqb_neq in Hb. now rewrite Hb. }
  destruct (update_heap_cases _ _ _ _ _ _ I Hu)
    as [(e & _ & _ & ->)|(est & Eest & Hcases)]; [auto 10|].
  cbv zeta in Hcases.
  destruct Hcases as [(a & Hget & _ & ->)
                     |[(Hget & _ & _ & ->)
                      |[(Hget & _ & _ & _ & ->)
                       |[(Hget & _ & h0 & rest & _ & _ & _ & ->)
                        |(Hget & _ & h0 & rest & Hheap & Hlt & _ & ->)]]]];
    simpl.
  - split; [lia|]. split; [reflexivity|]. split; [reflexivity|]. split.
    + intros c Hc _. destruct (Nat.eqb_spec c a) as [->|]; [|reflexivity].
      exfalso. apply Hc. left. exact (proj1 (inv_heap_of_entry _ _ _ I Hget)).
    + intros c Hc. left. exact (Permutation_in _ (heapify_perm _ _) Hc).
  - split; [lia|]. split; [reflexivity|]. split; [exact (fun b => Hdict b _)|].
    split.
    + intros c _ Hc. now rewrite Hfresh.
    + intros c Hc. apply (Permutation_in _ (heappush_perm _ _ _)) in Hc.
      destruct Hc as [<-|Hc]; auto.
  - split; [lia|]. split; [reflexivity|]. split; [reflexivity|]. split.
    + intros c _ Hc. now rewrite Hfresh.
    + auto.
  - split; [lia|]. split; [reflexivity|]. split; [reflexivity|]. split.
    + intros c _ Hc. now rewrite Hfresh.
    + auto.
  - split; [lia|]. split; [reflexivity|]. split; [exact (fun b => Hdict b _)|].
    split.
    + intros c _ Hc. now rewrite Hfresh.
    + intros c Hc. apply (Permutation_in _ (siftup_perm _ _ _)) in Hc.
      rewrite Hheap. destruct Hc as [<-|Hc]; [now right|left; now right].
Qed.

Lemma update_writes (wd wd' : World) (item : string) (count : Z)
    (r : result unit) :
  Inv wd -> update py_hash md5 wd item count = (r, wd') ->
  (next_pair (mem wd) <= next_pair (mem wd'))%nat
  /\ next_dict (mem wd') = next_dict (mem wd)
  /\ (forall b, b <> _top_k (sk wd) ->
        dict_cells (mem wd') b = dict_cells (mem wd) b)
  /\ (forall c, ~ owns_pair wd c -> (c < next_pair (mem wd))%nat ->
        pair_cells (mem wd') c = pair_cells (mem wd) c)
  /\ (forall c, In c (_heap (sk wd')) ->
        In c (_heap (sk wd)) \/ c = next_pair (mem wd)).
Proof.
  intros I Hu.
  apply update_cases in Hu
    as [(_ & _ & ->)|(Hc & r1 & tables & Hadd & Hu)]; [auto 10|].
  simpl in Hu. destruct r1 as [[]|e]; [|destruct Hu as [_ ->]; simpl; auto 10].
  destruct (add_count_shape _ _ _ _ _ _ Hadd (inv_rows _ I)) as [Hl Hs].
  pose proof (inv_tables_update wd (_n (sk wd) + count) tables I Hl Hs)
    as I1.
  exact (update_heap_writes _ _ _ _ I1 Hu).
Qed.

Lemma step_apart (wd wd' : World) (ev : event) (snap : nat)
    (es : list (string * nat)) (cells : nat -> Z * string) :
  Inv wd -> step py_hash md5 wd ev wd' -> calls_only [ev] = true ->
  apart wd snap es cells -> apart wd' snap es cells.
Proof.
  intros I H Hev [Ha Hd He Hl].
  destruct H as [wd item count r wd' H|wd d wd' H|wd m' F];
    [| |discriminate].
  - destruct (update_writes _ _ _ _ _ I H) as (Hnp & Hnd & Hdc & Hpc & Hown).
    destruct (update_params _ _ _ _ _ _ _ H) as (_ & _ & _ & Htk).
    pose proof (update_inv _ _ _ _ _ _ _ I H) as I'.
    constructor.
    + lia.
    + now rewrite Htk.
    + now rewrite Hdc.
    + intros e Hin. destruct (Hl e Hin) as (Hlt & Hno & Hcell).
      split; [lia|]. split.
      * intros Ho. apply (owns_heap _ _ I') in Ho.
        destruct (Hown _ Ho) as [Hc|Hc]; [|lia].
        apply Hno. now left.
      * now rewrite Hpc.
  - destruct (heavyHitters_memory _ _ _ I H)
      as (Hd' & Hnp & Hnd & Hdc & Hpc & _).
    destruct (heavyHitters_spec _ _ _ I H) as (Hsk & F & _).
    constructor.
    + lia.
    + now rewrite Hsk.
    + rewrite Hdc; [assumption|lia].
    + intros e Hin. destruct (Hl e Hin) as (Hlt & Hno & Hcell).
      split; [lia|]. split.
      * intros Ho. apply Hno. apply (frame_owns wd (mem wd') (snd e) F).
        rewrite <- Hsk. now destruct wd'.
      * now rewrite Hpc.
Qed.

Lemma steps_apart (wd wd' : World) (evs : list event) (snap : nat)
    (es : list (string * nat)) (cells : nat -> Z * string) :
  steps py_hash md5 wd evs wd' -> Inv wd -> calls_only evs = true ->
  apart wd snap es cells -> apart wd' snap es cells.
Proof.
  induction 1 as [wd|wd ev wd1 evs wd2 Hs _ IH]; auto.
  intros I Hev A.
  assert (Hev1 : calls_only [ev] = true /\ calls_only evs = true).
  { destruct ev; simpl in *; auto; discriminate. }
  destruct Hev1 as [H1 H2]. apply IH; auto.
  - eapply step_inv; eauto.
  - eapply step_apart; eauto.
Qed.

Lemma heavyHitters_apart (wd wd' : World) (snap : nat) :
  Inv wd -> heavyHitters wd = (snap, wd') ->
  apart wd' snap (dict_cells (mem wd') snap) (pair_cells (mem wd')).
Proof.
  intros I H.
  destruct (heavyHitters_memory _ _ _ I H)
    as (Hd' & Hnp & Hnd & Hdc & Hpc & Hfresh).
  destruct (heavyHitters_spec _ _ _ I H) as (Hsk & F & Hne & _).
  constructor.
  - lia.
  - now rewrite Hsk.
  - reflexivity.
  - intros e Hin.
    pose proof (proj1 (Forall_forall _ _) Hfresh e Hin) as Hr.
    simpl in Hr. split; [lia|]. split; [|reflexivity].
    intros Ho.
    assert (Ho' : owns_pair wd (snd e)).
    { apply (frame_owns wd (mem wd') (snd e) F).
      rewrite <- Hsk. now destruct wd'. }
    pose proof (inv_owned_allocated _ _ I Ho'). lia.
Qed.

End WriteFacts.

(** X17: a snapshot returned by [heavyHitters] is not changed by later
    calls on the sketch: after any run of [update] and [heavyHitters]
    calls, the dictionary still has the entries and its lists the contents
    they had when it was returned, which are those of the tracker at that
    time. *)
Theorem snapshot_survives_later_calls (py_hash md5 : string -> Z)
    (w d k : Z) (wd wd1 wd2 : World) (snap : nat) (evs : list event) :
  reachable py_hash md5 w d k wd ->
  heavyHitters wd = (snap, wd1) ->
  steps py_hash md5 wd1 evs wd2 -> calls_only evs = true ->
  view (mem wd2) snap = view (mem wd1) snap
  /\ view (mem wd2) snap = view (mem wd) (_top_k (sk wd)).
Proof.
  intros Hr Hh Hs Hev.
  destruct (reachable_inv _ _ _ _ _ _ Hr) as (I & _).
  pose proof (heavyHitters_inv _ _ _ I Hh) as I1.
  destruct (heavyHitters_spec _ _ _ I Hh) as (_ & _ & _ & Hview & _).
  destruct (steps_apart _ _ _ _ _ _ _ _ Hs I1 Hev
              (heavyHitters_apart _ _ _ I Hh)) as [_ _ He Hl].
  assert (E : view (mem wd2) snap = view (mem wd1) snap).
  { unfold view. rewrite He. apply map_ext_in. intros e Hin.
    now rewrite (proj2 (proj2 (Hl e Hin))). }
  split; [exact E|]. now rewrite E.
Qed.

Lemma snapshot_survives_later_calls_witness :
  view
    (mem (snd (update sample_hash sample_digest (snd sample_snapshot)
                 "c" 9)))
    (fst sample_snapshot)
  = view (mem (snd sample_snapshot)) (fst sample_snapshot)
  /\ view
       (mem (snd (update sample_hash sample_digest (snd sample_snapshot)
                    "c" 9)))
       (fst sample_snapshot)
     = view (mem sample_world) (_top_k (sk sample_world)).
Proof.
  apply (snapshot_survives_later_calls sample_hash sample_digest 4 2 2
           sample_world (snd sample_snapshot) _ (fst sample_snapshot)
           [EvUpdate "c" 9 (Ok tt)]).
  - exact sample_reachable.
  - reflexivity.
  - econstructor; [|constructor]. constructor. reflexivity.
  - reflexivity.
Defined.

(** X18: [heavyHitters] reads only: it leaves the fields of the sketch,
    and so every estimate and the total count, as they were; and each call
    returns a dictionary and lists of its own: two calls in a row return
    two different dictionaries with equal contents and no list in
    common. *)
Theorem heavy_hitters_reads_only (py_hash md5 : string -> Z) (w d k : Z)
    (wd wd1 wd2 : World) (s1 s2 : nat) :
  reachable py_hash md5 w d k wd ->
  heavyHitters wd = (s1, wd1) -> heavyHitters wd1 = (s2, wd2) ->
  sk wd1 = sk wd
  /\ (forall x, estimate py_hash md5 wd1 x = estimate py_hash md5 wd x)
  /\ totalCount wd1 = totalCount wd
  /\ s1 <> s2
  /\ view (mem wd2) s2 = view (mem wd2) s1
  /\ forall a, In a (map snd (dict_cells (mem wd2) s1)) ->
       ~ In a (map snd (dict_cells (mem wd2) s2)).
Proof.
  intros Hr H1 H2.
  destruct (reachable_inv _ _ _ _ _ _ Hr) as (I & _).
  pose proof (heavyHitters_inv _ _ _ I H1) as I1.
  destruct (heavyHitters_spec _ _ _ I H1) as (Hsk & F1 & _ & Hv1 & _).
  destruct (heavyHitters_spec _ _ _ I1 H2) as (Hsk2 & F2 & _ & Hv2 & _).
  destruct (heavyHitters_memory _ _ _ I H1)
    as (Hd1 & Hnp1 & Hnd1 & _ & _ & Hf1).
  destruct (heavyHitters_memory _ _ _ I1 H2)
    as (Hd2 & Hnp2 & Hnd2 & Hdc2 & Hpc2 & Hf2).
  assert (Hne : s1 <> s2) by lia.
  assert (Hsame : dict_cells (mem wd2) s1 = dict_cells (mem wd1) s1)
    by (now apply Hdc2).
  split; [exact Hsk|]. split; [|split; [|split; [exact Hne|split]]].
  - intros x. unfold estimate. now rewrite Hsk.
  - unfold totalCount. now rewrite Hsk.
  - rewrite Hv2.
    assert (E : view (mem wd2) s1 = view (mem wd1) s1).
    { unfold view. rewrite Hsame. apply map_ext_in. intros e Hin.
      pose proof (proj1 (Forall_forall _ _) Hf1 e Hin) as Hr1.
      simpl in Hr1. rewrite Hpc2 by lia. reflexivity. }
    rewrite E, Hv1.
    unfold view. fold (entries wd1). fold (entries wd).
    assert (He : entries wd1 = entries wd).
    { unfold entries. rewrite Hsk. exact (frame_dict _ _ F1). }
    rewrite He. apply map_ext_in. intros e Hin.
    rewrite (frame_pairs _ _ F1); [reflexivity|].
    right. now apply in_map.
  - intros a Ha1 Ha2. rewrite Hsame in Ha1.
    apply in_map_iff in Ha1 as (e1 & <- & Hin1).
    apply in_map_iff in Ha2 as (e2 & Heq & Hin2).
    pose proof (proj1 (Forall_forall _ _) Hf1 e1 Hin1) as Hr1.
    pose proof (proj1 (Forall_forall _ _) Hf2 e2 Hin2) as Hr2.
    simpl in Hr1, Hr2. lia.
Qed.

Lemma heavy_hitters_reads_only_witness :
  sk (snd sample_snapshot) = sk sample_world
  /\ (forall x, estimate sample_hash sample_digest (snd sample_snapshot) x
                = estimate sample_hash sample_digest sample_world x)
  /\ totalCount (snd sample_snapshot) = totalCount sample_world
  /\ fst sample_snapshot <> fst (heavyHitters (snd sample_snapshot))
  /\ view (mem (snd (heavyHitters (snd sample_snapshot))))
       (fst (heavyHitters (snd sample_snapshot)))
     = view (mem (snd (heavyHitters (snd sample_snapshot))))
         (fst sample_snapshot)
  /\ forall a,
       In a (map snd
               (dict_cells (mem (snd (heavyHitters (snd sample_snapshot))))
                  (fst sample_snapshot))) ->
       ~ In a (map snd
                 (dict_cells (mem (snd (heavyHitters (snd sample_snapshot))))
                    (fst (heavyHitters (snd sample_snapshot))))).
Proof.
  apply (heavy_hitters_reads_only sample_hash sample_digest 4 2 2
           sample_world (snd sample_snapshot)
           (snd (heavyHitters (snd sample_snapshot)))
           (fst sample_snapshot)
           (fst (heavyHitters (snd sample_snapshot)))).
  - exact sample_reachable.
  - vm_compute. reflexivity.
  - vm_compute. reflexivity.
Defined.

(** ** The parameters and the item's own estimate *)

Section ParameterFacts.

Variable py_hash : string -> Z.
Variable md5 : string -> Z.

Lemma step_floats (wd wd' : World) (ev : event) :
  Inv wd -> step py_hash md5 wd ev wd' ->
  _eps (sk wd') = _eps (sk wd) /\ _delta (sk wd') = _delta (sk wd).
Proof.
  intros I H. destruct H as [wd item count r wd' H|wd d wd' H|wd m' H].
  - apply update_cases in H as [(_ & _ & ->)|(_ & r1 & tables & _ & H)];
      [auto|].
    simpl in H. destruct r1.
    + apply update_heap_fields in H. rewrite H. simpl. auto.
    + destruct H as [_ ->]. simpl. auto.
  - now rewrite (heavyHitters_sk _ _ _ H).
  - auto.
Qed.

Lemma steps_floats (wd wd' : World) (evs : list event) :
  steps py_hash md5 wd evs wd' -> Inv wd ->
  _eps (sk wd') = _eps (sk wd) /\ _delta (sk wd') = _delta (sk wd).
Proof.
  induction 1 as [wd|wd ev wd1 evs wd2 Hs _ IH]; auto.
  intros I. destruct (step_floats _ _ _ I Hs) as [<- <-].
  apply IH. eapply step_inv; eauto.
Qed.

Lemma steps_snoc (wd wd1 wd2 : World) (evs : list event) (ev : event) :
  steps py_hash md5 wd evs wd1 -> step py_hash md5 wd1 ev wd2 ->
  steps py_hash md5 wd (evs ++ [ev]) wd2.
Proof.
  induction 1 as [wd|wd ev0 wd0 evs wd1 Hs _ IH]; intros H; simpl.
  - econstructor; [eassumption|constructor].
  - econstructor; [eassumption|auto].
Qed.

Lemma reachable_step (w d k : Z) (wd wd' : World) (ev : event) :
  reachable py_hash md5 w d k wd -> step py_hash md5 wd ev wd' ->
  reachable py_hash md5 w d k wd'.
Proof.
  intros (m & wd0 & evs & Hc & Hs) H.
  exists m, wd0, (evs ++ [ev]). split; [assumption|].
  eapply steps_snoc; eauto.
Qed.

(** A returned [update] adds the weight to each counter of the item. *)
Lemma update_estimate_exact (wd wd' : World) (item : string) (count e : Z) :
  Inv wd -> 0 < _w (sk wd) ->
  update py_hash md5 wd item count = (Ok tt, wd') ->
  estimate py_hash md5 wd item = Ok e ->
  estimate py_hash md5 wd' item = Ok (e + count).
Proof.
  intros I Hw Hu He. unfold estimate in He |- *.
  destruct (estimate_values (_tables (sk wd))
              (_hash py_hash md5 (sk wd) item)) as [vs|] eqn:Hvs;
    [|discriminate].
  simpl in He.
  destruct (update_counters _ _ _ _ _ item _ _ _ I Hw Hu Hvs)
    as (vs' & Hvs' & _ & Hex).
  destruct (Hex eq_refl) as [_ Hmap]. rewrite Hvs', (Hmap eq_refl). simpl.
  destruct vs as [|v vs]; [discriminate|]. injection He as <-.
  simpl. f_equal. apply fold_min_shift.
Qed.

End ParameterFacts.

(** X19: the parameters of a sketch are fixed at construction: after any
    run, [relativeError] is still [2.0 / w] and [confidence] still
    [1.0 - 1.0 / math.pow(2, d)], computed in floating point from the
    width and the depth given to the constructor, which are kept as
    well. *)
Theorem parameters_fixed_at_construction (py_hash md5 : string -> Z)
    (m : Memory) (w d k : Z) (wd0 wd : World) (evs : list event) :
  construct m w d k = Ok wd0 -> steps py_hash md5 wd0 evs wd ->
  exists wf p,
    PyFloat.of_int w = Ok wf /\ PyFloat.pow2 d = Ok p
    /\ relativeError wd = PrimFloat.div 2 wf
    /\ confidence wd = PrimFloat.sub 1 (PrimFloat.div 1 p)
    /\ _w (sk wd) = w /\ _d (sk wd) = d /\ _k (sk wd) = k.
Proof.
  intros Hc Hs.
  destruct (construct_inv _ _ _ _ _ Hc) as (I0 & Hw & Hd & Hk & _).
  destruct (steps_inv _ _ _ _ _ I0 Hs) as (_ & Hw' & Hd' & Hk').
  destruct (steps_floats _ _ _ _ _ Hs I0) as [He Hdl].
  unfold relativeError, confidence. rewrite He, Hdl.
  unfold construct in Hc.
  destruct ((w =? 0) || (d =? 0)); [discriminate|].
  destruct (PyFloat.of_int w) as [wf|]; [|discriminate]. simpl in Hc.
  unfold PyFloat.truediv in Hc at 1.
  destruct (PrimFloat.is_zero wf); [discriminate|]. simpl in Hc.
  destruct (PyFloat.pow2 d) as [p|]; [|discriminate]. simpl in Hc.
  unfold PyFloat.truediv in Hc.
  destruct (PrimFloat.is_zero p); [discriminate|]. simpl in Hc.
  injection Hc as <-. simpl.
  exists wf, p. repeat split; congruence.
Qed.

Lemma parameters_fixed_at_construction_witness :
  exists wf p,
    PyFloat.of_int 4 = Ok wf /\ PyFloat.pow2 2 = Ok p
    /\ relativeError sample_world = PrimFloat.div 2 wf
    /\ confidence sample_world = PrimFloat.sub 1 (PrimFloat.div 1 p)
    /\ _w (sk sample_world) = 4 /\ _d (sk sample_world) = 2
    /\ _k (sk sample_world) = 2.
Proof.
  apply (parameters_fixed_at_construction sample_hash sample_digest
           empty_memory 4 2 2 sample_start sample_world sample_events).
  - reflexivity.
  - apply (run_events_steps _ _ sample_calls). reflexivity.
Defined.

(** X20: on a sketch of positive width and depth, an [update] that
    returns raises the estimate of the updated item by exactly the weight
    it was given. *)
Theorem update_adds_weight_to_own_estimate (py_hash md5 : string -> Z)
    (w d k : Z) (wd wd' : World) (item : string) (count : Z) :
  0 < w -> 0 < d -> reachable py_hash md5 w d k wd ->
  update py_hash md5 wd item count = (Ok tt, wd') ->
  exists e, estimate py_hash md5 wd item = Ok e
            /\ estimate py_hash md5 wd' item = Ok (e + count).
Proof.
  intros Hw Hd Hr Hu.
  destruct (reachable_inv _ _ _ _ _ _ Hr) as (I & Hw' & Hd' & _).
  destruct (estimate_bounded py_hash md5 wd item I
              (reachable_bounded _ _ _ _ _ _ Hr) ltac:(lia) ltac:(lia))
    as (e & He & _).
  exists e. split; [assumption|].
  apply (update_estimate_exact py_hash md5 wd wd' item count e I); auto.
  lia.
Qed.

Lemma update_adds_weight_to_own_estimate_witness :
  exists e, estimate sample_hash sample_digest sample_world "b" = Ok e
            /\ estimate sample_hash sample_digest
                 (snd (update sample_hash sample_digest sample_world "b" 4))
                 "b"
               = Ok (e + 4).
Proof.
  apply (update_adds_weight_to_own_estimate sample_hash sample_digest 4 2 2).
  - lia.
  - lia.
  - exact sample_reachable.
  - reflexivity.
Defined.

(** ** The stream listener *)

Section ListenerFacts.

Variable py_hash : string -> Z.
Variable md5 : string -> Z.
Variable lower : string -> string.

Lemma update_hashtags_ok (w d k count : Z) (tags : list (option string)) :
  0 < w -> 0 < d -> 0 < k -> 0 <= count ->
  forall wd,
  reachable py_hash md5 w d k wd ->
  totalCount wd + Z.of_nat (length tags) * count <= PyArray.LONG_MAX ->
  exists wd',
    update_hashtags py_hash md5 lower wd tags count = (Ok tt, wd')
    /\ reachable py_hash md5 w d k wd'
    /\ totalCount wd' = totalCount wd + Z.of_nat (length tags) * count
    /\ (forall x e, estimate py_hash md5 wd x = Ok e ->
          exists e', estimate py_hash md5 wd' x = Ok e' /\ e <= e')
    /\ (forall t, In t tags ->
          exists e, estimate py_hash md5 wd' (lower (str_of_text t)) = Ok e
                    /\ count <= e).
Proof.
  intros Hw Hd Hk Hc.
  induction tags as [|t rest IH]; intros wd Hr Hn.
  - exists wd. simpl. split; [reflexivity|]. split; [assumption|].
    split; [lia|]. split; [eauto with zarith|]. intros t [].
  - cbn [length] in Hn. rewrite Nat2Z.inj_succ in Hn.
    destruct (update_ok py_hash md5 w d k wd (lower (str_of_text t)) count
                Hw Hd Hk Hr Hc ltac:(nia)) as (wd1 & Hu & Ht).
    assert (Hr1 : reachable py_hash md5 w d k wd1).
    { eapply reachable_step; [exact Hr|]. constructor. exact Hu. }
    destruct (IH wd1 Hr1 ltac:(nia)) as (wd' & Hus & Hr' & Ht' & Hmono & Hin).
    destruct (reachable_inv _ _ _ _ _ _ Hr) as (I & Hw' & Hd' & _).
    exists wd'. cbn [update_hashtags]. rewrite Hu.
    split; [exact Hus|]. split; [exact Hr'|].
    split; [cbn [length]; rewrite Nat2Z.inj_succ; lia|]. split.
    + intros x e He.
      destruct (update_estimate_monotone py_hash md5 _ _ _ x _ _ _ I
                  ltac:(lia) Hu He) as (e1 & He1 & Hle1).
      destruct (Hmono x e1 He1) as (e' & He' & Hle').
      exists e'. split; [assumption|lia].
    + intros t' [<-|Ht'in]; [|auto].
      destruct (estimate_bounded py_hash md5 wd (lower (str_of_text t)) I
                  (reachable_bounded _ _ _ _ _ _ Hr) ltac:(lia) ltac:(lia))
        as (e0 & He0 & Hb0).
      pose proof (update_estimate_exact py_hash md5 _ _ _ _ _ I ltac:(lia)
                    Hu He0) as He1.
      destruct (Hmono _ _ He1) as (e' & He' & Hle').
      exists e'. split; [assumption|lia].
Qed.

End ListenerFacts.

(** X21: [on_status] on a status that is not a retweet, with a retweet
    count that is not negative, on a sketch of positive width, depth and
    capacity: while the total count stays within a C long the call
    returns, every hashtag has been counted, in lower case, with the
    weight [retweet_count + 1], so the total count has grown by that
    weight times the number of hashtags and the estimate of each hashtag
    is at least that weight; the report is printed exactly when the new
    total count is a multiple of 100. *)
Theorem on_status_counts_hashtags (py_hash md5 : string -> Z)
    (lower : string -> string) (w d k : Z) (wd : World) (status : Status)
    (tags : list (option string)) :
  0 < w -> 0 < d -> 0 < k -> reachable py_hash md5 w d k wd ->
  retweeted status = false -> hashtags status = Some tags ->
  0 <= retweet_count status ->
  totalCount wd + Z.of_nat (length tags) * (retweet_count status + 1)
  <= PyArray.LONG_MAX ->
  exists wd' out,
    on_status py_hash md5 lower wd status = (Ok tt, wd', out)
    /\ totalCount wd'
       = totalCount wd + Z.of_nat (length tags) * (retweet_count status + 1)
    /\ (forall t, In t tags ->
          exists e, estimate py_hash md5 wd' (lower (str_of_text t)) = Ok e
                    /\ retweet_count status + 1 <= e)
    /\ (out <> [] <-> totalCount wd' mod 100 = 0).
Proof.
  intros Hw Hd Hk Hr Hrt Htags Hc Hn.
  destruct (update_hashtags_ok py_hash md5 lower w d k
              (retweet_count status + 1) tags Hw Hd Hk ltac:(lia) wd Hr Hn)
    as (wd1 & Hus & Hr1 & Ht & _ & Hin).
  unfold on_status. rewrite Hrt, Htags, Hus.
  destruct (Z.eqb_spec (totalCount wd1 mod 100) 0) as [Hz|Hz].
  - destruct (heavyHitters wd1) as [dd wd2] eqn:Hh.
    pose proof (heavyHitters_sk _ _ _ Hh) as Hsk.
    exists wd2. eexists. split; [reflexivity|]. split; [|split].
    + unfold totalCount. rewrite Hsk. exact Ht.
    + intros t Hinn. destruct (Hin t Hinn) as (e & He & Hle).
      exists e. split; [|assumption]. unfold estimate in He |- *.
      now rewrite Hsk.
    + unfold totalCount. rewrite Hsk. split; [auto|discriminate].
  - exists wd1, []. split; [reflexivity|]. split; [exact Ht|].
    split; [exact Hin|]. split; [congruence|]. intros; contradiction.
Qed.

Lemma on_status_counts_hashtags_witness :
  exists wd' out,
    on_status sample_hash sample_digest sample_lower stream_sketch
      sample_status = (Ok tt, wd', out)
    /\ totalCount wd'
       = totalCount stream_sketch
         + Z.of_nat (length [Some "Rocq"%string; Some "proofs"%string])
           * (retweet_count sample_status + 1)
    /\ (forall t, In t [Some "Rocq"%string; Some "proofs"%string] ->
          exists e,
            estimate sample_hash sample_digest wd'
              (sample_lower (str_of_text t)) = Ok e
            /\ retweet_count sample_status + 1 <= e)
    /\ (out <> [] <-> totalCount wd' mod 100 = 0).
Proof.
  apply (on_status_counts_hashtags sample_hash sample_digest sample_lower
           2000 10 10 stream_sketch sample_status).
  - lia.
  - lia.
  - lia.
  - exists empty_memory, stream_sketch, []. split; [|constructor].
    vm_compute. reflexivity.
  - reflexivity.
  - reflexivity.
  - vm_compute. discriminate.
  - vm_compute. discriminate.
Defined.

(** ** The tracked set over a run *)

Section TrackedSet.

Variable py_hash : string -> Z.
Variable md5 : string -> Z.

Lemma update_heap_length (wd wd' : World) (item : string) (r : result unit) :
  Inv wd -> _update_heap py_hash md5 wd item = (r, wd') ->
  (length (_heap (sk wd)) <= length (_heap (sk wd')))%nat.
Proof.
  intros I Hu.
  destruct (update_heap_cases _ _ _ _ _ _ I Hu)
    as [(e & _ & _ & ->)|(est & _ & Hcases)]; [lia|].
  cbv zeta in Hcases.
  destruct Hcases as [(a & _ & _ & ->)
                     |[(_ & _ & _ & ->)
                      |[(_ & _ & _ & _ & ->)
                       |[(_ & _ & h0 & rest & _ & _ & _ & ->)
                        |(_ & _ & h0 & rest & Hheap & _ & _ & ->)]]]];
    simpl.
  - now rewrite (Permutation_length (heapify_perm _ _)).
  - rewrite (Permutation_length (heappush_perm _ _ _)). simpl. lia.
  - lia.
  - lia.
  - rewrite (Permutation_length (siftup_perm _ _ _)), Hheap. simpl. lia.
Qed.

Lemma step_heap_length (wd wd' : World) (ev : event) :
  Inv wd -> step py_hash md5 wd ev wd' ->
  (length (_heap (sk wd)) <= length (_heap (sk wd')))%nat.
Proof.
  intros I H. destruct H as [wd item count r wd' H|wd d wd' H|wd m' H].
  - apply update_cases in H
      as [(_ & _ & ->)|(Hc & r1 & tables & Hadd & H)]; [lia|].
    simpl in H. destruct r1 as [[]|e]; [|destruct H as [_ ->]; simpl; lia].
    destruct (add_count_shape _ _ _ _ _ _ Hadd (inv_rows _ I)) as [Hl Hs].
    pose proof (inv_tables_update wd (_n (sk wd) + count) tables I Hl Hs)
      as I1.
    exact (update_heap_length _ _ _ _ I1 H).
  - rewrite (heavyHitters_sk _ _ _ H). lia.
  - simpl. lia.
Qed.

Lemma step_tracked_updated (wd wd' : World) (ev : event) (x : string)
    (b : nat) :
  Inv wd -> step py_hash md5 wd ev wd' ->
  dict_get (entries wd') x = Some b ->
  In x (updated_items [ev]) \/ dict_get (entries wd) x = Some b.
Proof.
  intros I H Hx. destruct H as [wd item count r wd' H|wd d wd' H|wd m' F].
  - simpl. destruct (Z.ltb_spec count 0) as [Hc|Hc].
    + apply update_cases in H as [(_ & _ & ->)|(Hc' & _)]; [now right|lia].
    + destruct (update_entry_origin _ _ _ _ _ x _ _ _ I H Hx)
        as [(-> & _)|[Hold _]]; [left; now left|now right].
  - right. destruct (heavyHitters_spec _ _ _ I H) as (Hsk & F & _).
    unfold entries in Hx. rewrite Hsk, (frame_dict _ _ F) in Hx. exact Hx.
  - right. unfold entries in Hx. simpl in Hx.
    now rewrite (frame_dict _ _ F) in Hx.
Qed.

End TrackedSet.

(** X22: the tracker never shrinks: along any run the number of lists in
    the heap, which is the number of tracked items, does not decrease; an
    item only leaves when another one takes its place. *)
Theorem tracker_never_shrinks (py_hash md5 : string -> Z) (w d k : Z)
    (wd wd' : World) (evs : list event) :
  reachable py_hash md5 w d k wd -> steps py_hash md5 wd evs wd' ->
  (length (_heap (sk wd)) <= length (_heap (sk wd')))%nat
  /\ (length (entries wd) <= length (entries wd'))%nat.
Proof.
  intros Hr Hs.
  destruct (reachable_inv _ _ _ _ _ _ Hr) as (I & _).
  destruct (steps_inv _ _ _ _ _ I Hs) as (I' & _).
  rewrite (entries_length _ I), (entries_length _ I').
  split; [|].
  - clear Hr I'. induction Hs as [wd|wd ev wd1 evs wd2 H _ IH]; [lia|].
    pose proof (step_heap_length _ _ _ _ _ I H).
    specialize (IH (step_inv _ _ _ _ _ I H)). lia.
  - clear Hr I'. induction Hs as [wd|wd ev wd1 evs wd2 H _ IH]; [lia|].
    pose proof (step_heap_length _ _ _ _ _ I H).
    specialize (IH (step_inv _ _ _ _ _ I H)). lia.
Qed.

Lemma tracker_never_shrinks_witness :
  (length (_heap (sk sample_start)) <= length (_heap (sk sample_world)))%nat
  /\ (length (entries sample_start) <= length (entries sample_world))%nat.
Proof.
  apply (tracker_never_shrinks sample_hash sample_digest 4 2 2 sample_start
           sample_world sample_events).
  - exists empty_memory, sample_start, []. split; [reflexivity|constructor].
  - apply (run_events_steps _ _ sample_calls). reflexivity.
Defined.

(** X23: the tracker holds only items that were passed to [update]: in
    every state reached from a new sketch, each key of the reverse index,
    and so each key that [heavyHitters] returns, is the item of an
    [update] call of the run whose weight was not negative. *)
Theorem tracked_items_were_updated (py_hash md5 : string -> Z) (m : Memory)
    (w d k : Z) (wd0 wd : World) (evs : list event) (x : string) (a : nat) :
  construct m w d k = Ok wd0 -> steps py_hash md5 wd0 evs wd ->
  dict_get (entries wd) x = Some a ->
  In x (updated_items evs).
Proof.
  intros Hc Hs Hx.
  destruct (construct_inv _ _ _ _ _ Hc) as (I0 & _ & _ & _ & _ & _ & He & _).
  assert (H : In x (updated_items evs) \/ dict_get (entries wd0) x = Some a).
  { clear Hc He. revert a Hx.
    induction Hs as [wd|wd ev wd1 evs wd2 H1 Hs IH]; intros a Hx; [now right|].
    destruct (IH (step_inv _ _ _ _ _ I0 H1) a Hx) as [Hin|Hold].
    - left. destruct ev as [item count r|dd|]; simpl; auto.
      destruct (count <? 0); [assumption|now right].
    - destruct (step_tracked_updated _ _ _ _ _ x a I0 H1 Hold) as [Hin|Hx0];
        [|now right].
      left. destruct ev as [item count r|dd|]; simpl in Hin |- *;
        try contradiction.
      destruct (count <? 0); [contradiction|].
      destruct Hin as [->|[]]. now left. }
  destruct H as [H|H]; [assumption|].
  rewrite He in H. discriminate.
Qed.

Lemma tracked_items_were_updated_witness :
  In (String "b" EmptyString) (updated_items sample_events).
Proof.
  apply (tracked_items_were_updated sample_hash sample_digest empty_memory
           4 2 2 sample_start sample_world sample_events "b" 1%nat).
  - reflexivity.
  - apply (run_events_steps _ _ sample_calls). reflexivity.
  - reflexivity.
Defined.
